(** * Block scan micro-benchmark (scan/warp/testScanBlock.cu)

    A shallow embedding of the CPU reference scans, of the test driver and of
    the segmented-scan kernels of [testScanBlock.cu], with the properties the
    specification states about them.

    Conventions.
    - An [int] is a [Z] kept in the signed 32-bit range by [wrap32]; the
      additions of the source ([sum += next]) are [add32].
    - Host memory is one flat store [list Z]; a pointer is the index of the
      first cell of its buffer.  Two pointer arguments may therefore alias,
      as they can in the source.  A load or store outside the store is a
      [Fault].
    - Indices of type [size_t] are [nat]. *)

From Stdlib Require Import ZArith Lia.
From stdpp Require Import base numbers option list.

(** ** 32-bit signed integers *)

Module Int32.

Definition wrap32 (z : Z) : Z := ((z + 2 ^ 31) mod 2 ^ 32 - 2 ^ 31)%Z.

Definition add32 (a b : Z) : Z := wrap32 (a + b).

Definition sub32 (a b : Z) : Z := wrap32 (a - b).

Definition in_range (z : Z) : Prop := (- 2 ^ 31 <= z < 2 ^ 31)%Z.

End Int32.
Export Int32.

(** ** Outcomes of a run *)

Inductive result (A : Type) : Type :=
  | Ok (a : A)
  | Fault       (* access outside the store: undefined behaviour in C *)
  | OutOfFuel.  (* the loop did not finish: the run diverges *)
Arguments Ok {A} a.
Arguments Fault {A}.
Arguments OutOfFuel {A}.

#[global] Instance result_ret : MRet result := λ A a, Ok a.
#[global] Instance result_bind : MBind result := λ A B f r,
  match r with
  | Ok a => f a
  | Fault => Fault
  | OutOfFuel => OutOfFuel
  end.

(** ** The store *)

Definition load (m : list Z) (p : nat) : result Z :=
  match m !! p with
  | Some v => Ok v
  | None => Fault
  end.

Definition store (m : list Z) (p : nat) (v : Z) : result (list Z) :=
  if decide (p < length m) then Ok (<[p:=v]> m) else Fault.

(** The cell [k] of the buffer at [p], for stating results ([0] outside). *)
Definition cell (m : list Z) (p : nat) (k : nat) : Z := default 0%Z (m !! (p + k)).

(** ** The CPU reference scans *)

Inductive ScanType : Type := Inclusive | Exclusive.

#[global] Instance ScanType_eq_dec : EqDecision ScanType.
Proof. solve_decision. Defined.

(** Inner loop of [ScanExclusiveCPUPeriodic], with [todo = period - j]
    iterations left:
    [int next = in[i+j]; out[i+j] = sum; sum += next;] *)
Fixpoint ScanExclusive_inner (todo : nat) (out inp i j : nat) (sum : Z)
    (m : list Z) : result (list Z) :=
  match todo with
  | O => Ok m
  | S todo' =>
      next ← load m (inp + (i + j));
      m' ← store m (out + (i + j)) sum;
      ScanExclusive_inner todo' out inp i (S j) (add32 sum next) m'
  end.

(** Outer loop [for ( size_t i = 0; i < N; i += period )]. *)
Fixpoint ScanExclusive_outer (fuel : nat) (period out inp N i : nat)
    (m : list Z) : result (list Z) :=
  if decide (i < N) then
    match fuel with
    | O => OutOfFuel
    | S fuel' =>
        m' ← ScanExclusive_inner period out inp i 0 0%Z m;
        ScanExclusive_outer fuel' period out inp N (i + period) m'
    end
  else Ok m.

(** [i] grows by [period] each round, so [N] rounds are enough whenever
    [period] is positive; with [period = 0] and [0 < N] the source loops
    forever and the model answers [OutOfFuel]. *)
Definition ScanExclusiveCPUPeriodic (period : nat) (out inp N : nat)
    (m : list Z) : result (list Z) :=
  ScanExclusive_outer N period out inp N 0 m.

(** Inner loop of [ScanInclusiveCPUPeriodic]:
    [sum += in[i+j]; out[i+j] = sum;] *)
Fixpoint ScanInclusive_inner (todo : nat) (out inp i j : nat) (sum : Z)
    (m : list Z) : result (list Z) :=
  match todo with
  | O => Ok m
  | S todo' =>
      v ← load m (inp + (i + j));
      let sum' := add32 sum v in
      m' ← store m (out + (i + j)) sum';
      ScanInclusive_inner todo' out inp i (S j) sum' m'
  end.

Fixpoint ScanInclusive_outer (fuel : nat) (period out inp N i : nat)
    (m : list Z) : result (list Z) :=
  if decide (i < N) then
    match fuel with
    | O => OutOfFuel
    | S fuel' =>
        m' ← ScanInclusive_inner period out inp i 0 0%Z m;
        ScanInclusive_outer fuel' period out inp N (i + period) m'
    end
  else Ok m.

Definition ScanInclusiveCPUPeriodic (period : nat) (out inp N : nat)
    (m : list Z) : result (list Z) :=
  ScanInclusive_outer N period out inp N 0 m.

(** [ScanCPU32]: the reference for the warp scans, period 32. *)
Definition ScanCPU32 (scantype : ScanType) (out inp N : nat) (m : list Z)
    : result (list Z) :=
  match scantype with
  | Exclusive => ScanExclusiveCPUPeriodic 32 out inp N m
  | Inclusive => ScanInclusiveCPUPeriodic 32 out inp N m
  end.

(** [ScanCPUBlock]: [switch ( numThreads )] with the cases 256, 512 and
    1024, and [default: return;]. *)
Definition ScanCPUBlock (scantype : ScanType) (out inp N : nat)
    (numThreads : Z) (m : list Z) : result (list Z) :=
  if decide (numThreads = 256%Z) then
    match scantype with
    | Exclusive => ScanExclusiveCPUPeriodic 256 out inp N m
    | Inclusive => ScanInclusiveCPUPeriodic 256 out inp N m
    end
  else if decide (numThreads = 512%Z) then
    match scantype with
    | Exclusive => ScanExclusiveCPUPeriodic 512 out inp N m
    | Inclusive => ScanInclusiveCPUPeriodic 512 out inp N m
    end
  else if decide (numThreads = 1024%Z) then
    match scantype with
    | Exclusive => ScanExclusiveCPUPeriodic 1024 out inp N m
    | Inclusive => ScanInclusiveCPUPeriodic 1024 out inp N m
    end
  else Ok m.

(** ** What a periodic scan is *)

(** [rsum x lo len] is the exact sum [x lo + ... + x (lo + len - 1)]. *)
Fixpoint rsum (x : nat → Z) (lo len : nat) : Z :=
  match len with
  | O => 0%Z
  | S len' => (x lo + rsum x (S lo) len')%Z
  end.

(** The value a scan with period starting at [lo] has at offset [r]: the
    32-bit sum of the inputs of the period up to and including [r]
    (inclusive) or strictly before [r] (exclusive). *)
Definition scan_value (scantype : ScanType) (x : nat → Z) (lo r : nat) : Z :=
  match scantype with
  | Inclusive => wrap32 (rsum x lo (S r))
  | Exclusive => wrap32 (rsum x lo r)
  end.

(** The buffer at [out] in [m'] holds the periodic scan, with period [B],
    of the [N] inputs [x]. *)
Definition periodic_scan (scantype : ScanType) (B : nat) (x : nat → Z)
    (out N : nat) (m' : list Z) : Prop :=
  ∀ q r, r < B → q * B + r < N →
    m' !! (out + (q * B + r)) = Some (scan_value scantype x (q * B) r).

(** The value of the periodic scan at the absolute position [k]. *)
Definition periodic_value (scantype : ScanType) (B : nat) (x : nat → Z)
    (k : nat) : Z :=
  scan_value scantype x (k / B * B) (k mod B).


(** [scanned val out t m0 m]: the store [m] is the store [m0] in which the
    first [t] cells of the buffer at [out] have been overwritten with
    [val 0 .. val (t-1)]. *)

Definition scanned (val : nat → Z) (out t : nat) (m0 m : list Z) : Prop :=
  length m = length m0 ∧
  (∀ p, p < out ∨ out + t ≤ p → m !! p = m0 !! p) ∧
  (∀ k, k < t → m !! (out + k) = Some (val k)).

(** [framed out t m0 m]: the store [m] differs from [m0] at most in the
    first [t] cells of the buffer at [out]. *)
Definition framed (out t : nat) (m0 m : list Z) : Prop :=
  length m = length m0 ∧
  (∀ p, p < out ∨ out + t ≤ p → m !! p = m0 !! p).

(** [firsts_zero B out t m]: the first cell of every period that starts
    before position [t] holds 0 in the buffer at [out]. *)
Definition firsts_zero (B out t : nat) (m : list Z) : Prop :=
  ∀ q, q * B < t → m !! (out + q * B) = Some 0%Z.

(** ** The test driver [TestScanBlock] *)

(** Block write: the [length vs] cells from [p] on are replaced, as by
    [cudaMemcpy] or by the threads of a block that each store one cell. *)
Definition write_block (m : list Z) (p : nat) (vs : list Z) : result (list Z) :=
  if decide (p + length vs ≤ length m)
  then Ok (take p m ++ vs ++ drop (p + length vs) m)
  else Fault.

(** Block read: the [N] cells from [p] on, as by [cudaMemcpy] or by the
    threads of a block that each load one cell. *)
Definition read_block (m : list Z) (p N : nat) : result (list Z) :=
  if decide (p + N ≤ length m) then Ok (take N (drop p m)) else Fault.

(** [(size_t) i] for an [int] [i], with a [size_t] of 64 bits. *)
Definition size_t_of_int (i : Z) : Z := (i mod 2 ^ 64)%Z.

(** How a run of [TestScanBlock] ends. *)
Inductive verdict : Type :=
  | Passed         (* the arrays agree: [ret = true] is returned *)
  | ScanFailed     (* "Scan failed" is printed, then [assert(0)] (on
                      Windows [__debugbreak()]), [goto Error] *)
  | RuntimeError.  (* a [CUDART_CHECK] failed: [goto Error] *)


Section Harness.
(** The generator of the C library: [rand ()] reads and advances a hidden
    state.  [rng] is the type of that state ([srand] chooses it). *)
Variable rng : Type.
Variable rand : rng → Z * rng.

(** [RandomArray]: [out[i] = rand() % modulus] for [i = 0 .. N-1];
    [%] truncates toward zero and a zero modulus is undefined. *)
Fixpoint RandomArray_loop (todo : nat) (out i : nat) (modulus : Z)
    (s : rng) (m : list Z) : result (rng * list Z) :=
  match todo with
  | O => Ok (s, m)
  | S todo' =>
      let '(r, s') := rand s in
      if decide (modulus = 0%Z) then Fault else
      m' ← store m (out + i) (Z.rem r modulus);
      RandomArray_loop todo' out (S i) modulus s' m'
  end.

Definition RandomArray (out N : nat) (modulus : Z) (s : rng) (m : list Z)
    : result (rng * list Z) :=
  RandomArray_loop N out 0 modulus s m.

(** [for ( int i = 0; i < N; i++ ) inCPU[i] = i;]  The counter is an
    [int] and [N] a [size_t]: [i < N] is compared in [size_t], to which
    [i] is converted (a negative [i] becomes [i + 2^64]); [i++] is an
    addition of [int], which wraps here as the other additions do (past
    the largest [int] it is undefined in C: the loop is as written only for
    [N] below 2^31); [inCPU[i]] is the cell [i] cells from [inCPU], which
    for a negative [i] lies before the buffer. *)
Fixpoint fill_index (fuel : nat) (inCPU N : nat) (i : Z) (m : list Z)
    : result (list Z) :=
  if decide (size_t_of_int i < Z.of_nat N)%Z then
    match fuel with
    | O => OutOfFuel
    | S fuel' =>
        m' ← (if decide (0 <= Z.of_nat inCPU + i)%Z
              then store m (Z.to_nat (Z.of_nat inCPU + i)) i
              else Fault);
        fill_index fuel' inCPU N (add32 i 1) m'
    end
  else Ok m.

(** The comparison loop [for ( size_t i = 0; i < N; i++ )]: the first
    [hostGPU[i] != outCPU[i]] ends the test with "Scan failed". *)
Fixpoint compare_loop (todo : nat) (hostGPU outCPU i : nat) (m : list Z)
    : result verdict :=
  match todo with
  | O => Ok Passed
  | S todo' =>
      g ← load m (hostGPU + i);
      c ← load m (outCPU + i);
      if decide (g ≠ c) then Ok ScanFailed
      else compare_loop todo' hostGPU outCPU (S i) m
  end.

(** The input the two scans are given: the store after [RandomArray] and
    the loop that follows it.  The three host buffers [inCPU], [outCPU]
    and [hostGPU] come from [malloc], one after the other in the store at
    0, [N] and [2 * N], with indeterminate contents [junk]. *)
Definition TestScanBlock_input (s : rng) (junk : nat → Z) (N : nat)
    : result (list Z) :=
  let m0 := junk <$> seq 0 (3 * N) in
  '(_, m1) ← RandomArray 0 N 256%Z s m0;
  fill_index N 0 N 0%Z m1.

(** [TestScanBlock], with the allocations and the CUDA runtime calls
    assumed to succeed and the timing left out.  [pfnScanCPU out in N
    numThreads] runs on the host store; [pfnScanGPU outGPU inGPU N
    numThreads] answers the contents of the device buffer [outGPU] after
    the call, or [None] when the device reports an error to the
    [CUDART_CHECK] that follows.  The answer is how the test ends, with
    the final host store, which holds the arrays compared. *)
Definition TestScanBlock
    (pfnScanCPU : nat → nat → nat → Z → list Z → result (list Z))
    (pfnScanGPU : list Z → list Z → nat → Z → option (list Z))
    (s : rng) (junk : nat → Z) (N : nat) (numThreads : Z)
    : result (verdict * list Z) :=
  let inCPU := 0 in
  let outCPU := N in
  let hostGPU := 2 * N in
  let outGPU := repeat 0%Z N in            (* cudaMemset( outGPU, 0, .. ) *)
  m2 ← TestScanBlock_input s junk N;
  m3 ← pfnScanCPU outCPU inCPU N numThreads m2;
  inGPU ← read_block m3 inCPU N;           (* cudaMemcpy host to device *)
  match pfnScanGPU outGPU inGPU N numThreads with
  | None => Ok (RuntimeError, m3)          (* goto Error *)
  | Some outGPU' =>
      m4 ← write_block m3 hostGPU (take N outGPU');  (* device to host *)
      ret ← compare_loop N hostGPU outCPU 0 m4;
      Ok (ret, m4)
  end.
End Harness.

(** ** The block scan primitives

    The headers [scanWarp.cuh], [scanBlock.cuh], [scanWarpShuffle.cuh] and
    [scanBlockShuffle.cuh] are absent; the primitives the kernels call are
    written after sections 4.1 and 4.2 of the specification.  A block is
    the list of the values its threads hold, thread [tid] at index [tid];
    the threads of a group (warp) run in lockstep, and one step of a
    primitive between two barriers is one [imap] over the block. *)

(** The group of the source has 32 lanes ([inclusive_scan_warp_shfl<5>],
    [ScanCPU32]). *)
Definition warpSize : nat := 32.
Definition logWarpSize : nat := 5.

(** Modelled from the spec: one step of the warp scan of [scanWarp.cuh]
    (absent), shared-memory strategy with the explicit bounds check: "at
    step k each lane at index i adds the value currently held by the lane
    at i - 2^k, if i - 2^k is within the group's valid range". [d] is
    [2^k], [s] the shared buffer. *)
Definition scanWarp_step (d : nat) (s : list Z) : list Z :=
  imap (λ tid v, if decide (d ≤ tid mod warpSize)
                 then add32 v (s !!! (tid - d)) else v) s.

(** Modelled from the spec: the steps k = 0, 1, .. of the warp scan of
    [scanWarp.cuh] (absent), the offset [d] doubling from one step to the
    next. *)
Fixpoint scanWarp_steps (steps d : nat) (s : list Z) : list Z :=
  match steps with
  | O => s
  | S steps' => scanWarp_steps steps' (2 * d) (scanWarp_step d s)
  end.

(** Modelled from the spec: [scanWarp<int,false>] of [scanWarp.cuh]
    (absent): log2(group size) steps, after which "every lane holds the
    inclusive scan" of its group, in its slot of the shared buffer. *)
Definition scanWarp (s : list Z) : list Z := scanWarp_steps logWarpSize 1 s.

(** Modelled from the spec: step 2 of the block scan, "the last lane of
    each group writes its group's total into a small auxiliary buffer
    indexed by group number" (the groups that have a last lane). *)
Definition warp_totals (s : list Z) : list Z :=
  (λ w, s !!! (w * warpSize + (warpSize - 1))) <$> seq 0 (length s / warpSize).

(** Modelled from the spec: the exclusive value of a lane from an inclusive
    warp scan, "reading one lane's result from the neighbor directly to the
    left"; the first lane of a group has the identity. *)
Definition exclusive_of_left (incl : list Z) (i : nat) : Z :=
  if decide (i mod warpSize = 0) then 0%Z else incl !!! (i - 1).

(** Modelled from the spec: [scanBlock<int,false>( sPartials+tid, scanWarp )]
    of [scanBlock.cuh] (absent), the two-level scan of section 4.2: (1) each
    group scans its values, (2) the group totals go to an auxiliary buffer,
    (3) one group scans the totals, which gives each group its carry-in,
    the exclusive prefix of the totals, (4) each lane adds the carry-in of
    its group.  The answer is the value returned to each thread and the
    shared buffer afterwards, in which every thread has left its value. *)
Definition scanBlock (sPartials : list Z) : list Z * list Z :=
  let local := scanWarp sPartials in
  let totals := scanWarp (warp_totals local) in
  let sums := imap (λ tid v, add32 v (exclusive_of_left totals (tid / warpSize)))
                   local in
  (sums, sums).

(** Modelled from the spec: the exchange of the shuffle strategy, "each step
    reads a neighboring lane's register value directly"; a lane without
    such a neighbour in its group reads its own register. *)
Definition shfl_up (regs : list Z) (d tid : nat) : Z :=
  if decide (d ≤ tid mod warpSize) then regs !!! (tid - d) else regs !!! tid.

(** Modelled from the spec: one step of the warp scan of
    [scanWarpShuffle.cuh] (absent), shuffle strategy: the lane adds what it
    read from the lane [d] below, if there is one in its group. *)
Definition scan_warp_shfl_step (d : nat) (regs : list Z) : list Z :=
  imap (λ tid v, let y := shfl_up regs d tid in
                 if decide (d ≤ tid mod warpSize) then add32 v y else v) regs.

(** Modelled from the spec: the steps of the warp scan of
    [scanWarpShuffle.cuh] (absent), the offset doubling. *)
Fixpoint scan_warp_shfl_steps (steps d : nat) (regs : list Z) : list Z :=
  match steps with
  | O => regs
  | S steps' => scan_warp_shfl_steps steps' (2 * d) (scan_warp_shfl_step d regs)
  end.

(** Modelled from the spec: [inclusive_scan_warp_shfl<logn>] of
    [scanWarpShuffle.cuh] (absent), [logn] exchange steps. *)
Definition inclusive_scan_warp_shfl (logn : nat) (regs : list Z) : list Z :=
  scan_warp_shfl_steps logn 1 regs.

(** Modelled from the spec: [exclusive_scan_warp_shfl<logn>] of
    [scanWarpShuffle.cuh] (absent): "exclusive scan is derived by
    subtracting the lane's own original value from its inclusive result". *)
Definition exclusive_scan_warp_shfl (logn : nat) (regs : list Z) : list Z :=
  imap (λ tid v, sub32 (inclusive_scan_warp_shfl logn regs !!! tid) v) regs.

(** Modelled from the spec: the carry-in of the groups on the shuffle path:
    one group scans the group totals, exclusively, in
    [logBlockSize - logWarpSize] exchange steps. *)
Definition carry_in_shfl (logBlockSize : nat) (local_inclusive : list Z) : list Z :=
  exclusive_scan_warp_shfl (logBlockSize - logWarpSize) (warp_totals local_inclusive).

(** Modelled from the spec: [inclusive_scan_block<logBlockSize>] of
    [scanBlockShuffle.cuh] (absent): "each lane adds its group's carry-in to
    its own local scan result". *)
Definition inclusive_scan_block (logBlockSize : nat) (regs : list Z) : list Z :=
  let local := inclusive_scan_warp_shfl logWarpSize regs in
  let carry := carry_in_shfl logBlockSize local in
  imap (λ tid v, add32 v (carry !!! (tid / warpSize))) local.

(** Modelled from the spec: [exclusive_scan_block<logBlockSize>] of
    [scanBlockShuffle.cuh] (absent): "local-exclusive-plus-carry-in", each
    lane's own inclusive result converted to exclusive before the carry-in
    is added. *)
Definition exclusive_scan_block (logBlockSize : nat) (regs : list Z) : list Z :=
  let local := inclusive_scan_warp_shfl logWarpSize regs in
  let carry := carry_in_shfl logBlockSize local in
  imap (λ tid v, add32 v (carry !!! (tid / warpSize)))
       (exclusive_scan_warp_shfl logWarpSize regs).

(** ** The kernels and their host wrappers *)

(** The device: its limit on the threads of a block
    ([prop.maxThreadsPerBlock] in [main]), the order in which it runs the
    blocks of a grid of [n] blocks, and the order in which it runs the
    warps of a block where no barrier fixes it: [overtakes dev i tid] says
    that, in the round of the segment at [i], the warp before that of the
    thread [tid] is past its store of the next round when [tid] loads from
    the slot to its left.  The threads of a warp run in lockstep, the
    blocks one after the other.  The blocks that scan a segment all store
    to the same positions, where the stores of the last one remain:
    [overtakes] need only tell the order of the warps of that block. *)
Record device : Type := {
  maxThreadsPerBlock : Z;
  schedule : nat → list nat;
  overtakes : nat → nat → bool
}.

(** What [kernel<<<cBlocks, cThreads, ..>>>( out, in, N )] does to the
    buffer [out]. *)
Inductive launch_result : Type :=
  | Refused                      (* invalid configuration: no thread is run *)
  | Ran (r : result (list Z)).   (* the blocks were run *)

Fixpoint run_grid (kernel : nat → list Z → result (list Z))
    (blocks : list nat) (out : list Z) : result (list Z) :=
  match blocks with
  | [] => Ok out
  | b :: blocks' => out' ← kernel b out; run_grid kernel blocks' out'
  end.

(** A launch: the runtime refuses a grid without blocks, and a block
    without threads or with more threads than the device allows. *)
Definition launch (dev : device)
    (kernel : nat → nat → list Z → result (list Z))
    (cBlocks cThreads : Z) (out : list Z) : launch_result :=
  if decide (0 < cBlocks ∧ 0 < cThreads ≤ maxThreadsPerBlock dev)%Z
  then Ran (run_grid (λ blockIdx, kernel blockIdx (Z.to_nat cThreads))
                     (schedule dev (Z.to_nat cBlocks)) out)
  else Refused.

(** [int cBlocks = (int) (N/150); if ( cBlocks > 150 ) cBlocks = 150;] *)
Definition cBlocks_of (N : nat) : Z :=
  let cBlocks := wrap32 (Z.of_nat N / 150) in
  if decide (cBlocks > 150)%Z then 150%Z else cBlocks.

(** The body of the loop of the kernel [ScanGPUBlock] between the load and
    the store, for the block as a whole: [scanBlock] on the shared buffer
    and, for the exclusive scan, a barrier and
    [myValue = (tid) ? sPartials[tid-1] : 0], each slot holding what
    [scanBlock] left in it. *)
Definition ScanGPUBlock_values (scantype : ScanType) (sPartials : list Z)
    : list Z :=
  let '(myValue, sPartials') := scanBlock sPartials in
  match scantype with
  | Exclusive =>
      imap (λ tid _, if decide (tid = 0) then 0%Z else sPartials' !!! (tid - 1))
           myValue
  | Inclusive => myValue
  end.

(** What the thread [tid] stores to its slot in the round that follows the
    round of the segment at [i], if there is one: [in[i+blockDim+tid]]. *)
Definition next_input (blockDim N : nat) (inp : list Z) (i tid : nat)
    : option Z :=
  if decide (i + blockDim < N) then inp !! (i + blockDim + tid) else None.

(** The load [sPartials[tid-1]] of the exclusive scan comes after a barrier,
    but no barrier separates it from the store [sPartials[tid] = in[i+tid]]
    of the next round of the loop.  A thread whose left neighbour is in its
    own warp loads before the neighbour stores, the warp running in
    lockstep.  The first thread of a warp loads from the slot of the last
    thread of the warp before: when that warp is ahead ([ahead tid]) the
    slot already holds [next (tid - 1)], the input of the neighbour for the
    next round, and no longer its sum.  (The neighbour cannot be further
    ahead: the barrier of the next round waits for [tid].  If its load for
    the next round is outside [in], the next round is a [Fault].) *)
Definition ScanGPUBlock_overtaken (ahead : nat → bool) (scantype : ScanType)
    (next : nat → option Z) (myValue : list Z) : list Z :=
  match scantype with
  | Exclusive =>
      imap (λ tid v, if bool_decide (tid ≠ 0 ∧ tid mod warpSize = 0) && ahead tid
                     then default v (next (tid - 1)) else v)
           myValue
  | Inclusive => myValue
  end.

(** One round of the loop: [sPartials[tid] = in[i+tid]], barrier, the body
    above, in which a load of the exclusive scan may be overtaken by the
    next round, [out[i+threadIdx.x] = myValue].  [in] is a buffer of its
    own: the kernel does not write to it. *)
Definition ScanGPUBlock_round (ahead : nat → nat → bool) (scantype : ScanType)
    (blockDim N i : nat) (inp out : list Z) : result (list Z) :=
  sPartials ← read_block inp i blockDim;
  write_block out i
    (ScanGPUBlock_overtaken (ahead i) scantype (next_input blockDim N inp i)
                            (ScanGPUBlock_values scantype sPartials)).

(** [for ( size_t i = blockIdx.x*blockDim.x; i < N; i += blockDim.x )] *)
Fixpoint ScanGPUBlock_loop (fuel : nat) (ahead : nat → nat → bool)
    (scantype : ScanType) (blockDim N i : nat) (inp out : list Z)
    : result (list Z) :=
  if decide (i < N) then
    match fuel with
    | O => OutOfFuel
    | S fuel' =>
        out' ← ScanGPUBlock_round ahead scantype blockDim N i inp out;
        ScanGPUBlock_loop fuel' ahead scantype blockDim N (i + blockDim) inp out'
    end
  else Ok out.

Definition ScanGPUBlock_kernel (ahead : nat → nat → bool) (scantype : ScanType)
    (inp : list Z) (N : nat) (blockIdx blockDim : nat) (out : list Z)
    : result (list Z) :=
  ScanGPUBlock_loop N ahead scantype blockDim N (blockIdx * blockDim) inp out.

(** The host wrapper [ScanGPUBlock]. *)
Definition ScanGPUBlock (dev : device) (scantype : ScanType)
    (out inp : list Z) (N : nat) (cThreads : Z) : launch_result :=
  launch dev (ScanGPUBlock_kernel (overtakes dev) scantype inp N)
         (cBlocks_of N) cThreads out.

(** One round of the loop of the kernel [ScanGPUBlockShuffle]. *)
Definition ScanGPUBlockShuffle_round (scantype : ScanType) (logBlockSize : nat)
    (blockDim i : nat) (inp out : list Z) : result (list Z) :=
  myValue ← read_block inp i blockDim;
  let myValue :=
    match scantype with
    | Exclusive => exclusive_scan_block logBlockSize myValue
    | Inclusive => inclusive_scan_block logBlockSize myValue
    end in
  write_block out i myValue.

Fixpoint ScanGPUBlockShuffle_loop (fuel : nat) (scantype : ScanType)
    (logBlockSize blockDim N i : nat) (inp out : list Z) : result (list Z) :=
  if decide (i < N) then
    match fuel with
    | O => OutOfFuel
    | S fuel' =>
        out' ← ScanGPUBlockShuffle_round scantype logBlockSize blockDim i inp out;
        ScanGPUBlockShuffle_loop fuel' scantype logBlockSize blockDim N
                                 (i + blockDim) inp out'
    end
  else Ok out.

Definition ScanGPUBlockShuffle_kernel (scantype : ScanType) (logBlockSize : nat)
    (inp : list Z) (N : nat) (blockIdx blockDim : nat) (out : list Z)
    : result (list Z) :=
  ScanGPUBlockShuffle_loop N scantype logBlockSize blockDim N
                           (blockIdx * blockDim) inp out.

(** The host wrapper [ScanGPUBlockShuffle]: the shuffle kernel for 128,
    256, 512 and 1024 threads, the kernel [ScanGPUBlock] otherwise. *)
Definition ScanGPUBlockShuffle (dev : device) (scantype : ScanType)
    (out inp : list Z) (N : nat) (cThreads : Z) : launch_result :=
  let cBlocks := cBlocks_of N in
  if decide (cThreads = 128%Z) then
    launch dev (ScanGPUBlockShuffle_kernel scantype 7 inp N) cBlocks cThreads out
  else if decide (cThreads = 256%Z) then
    launch dev (ScanGPUBlockShuffle_kernel scantype 8 inp N) cBlocks cThreads out
  else if decide (cThreads = 512%Z) then
    launch dev (ScanGPUBlockShuffle_kernel scantype 9 inp N) cBlocks cThreads out
  else if decide (cThreads = 1024%Z) then
    launch dev (ScanGPUBlockShuffle_kernel scantype 10 inp N) cBlocks cThreads out
  else
    launch dev (ScanGPUBlock_kernel (overtakes dev) scantype inp N)
           cBlocks cThreads out.

(** ** Invariants of the block scan primitives *)

(** [windowed x d s]: every lane of [s] holds the 32-bit sum of the values
    of [x] over the window that ends at the lane and reaches back [d]
    lanes, or to the first lane of the group if that is nearer. *)
Definition windowed (x : nat → Z) (d : nat) (s : list Z) : Prop :=
  ∀ tid, tid < length s →
    s !! tid = Some (wrap32 (rsum x (tid - min (tid mod warpSize) (d - 1))
                                    (S (min (tid mod warpSize) (d - 1))))).

(** The sums of [x] over whole groups. *)
Definition group_total (x : nat → Z) (w : nat) : Z :=
  rsum x (w * warpSize) warpSize.

(** The scan of the [B] values [x 0 .. x (B-1)] of one block, as a list. *)
Definition scan_list (scantype : ScanType) (x : nat → Z) (B : nat) : list Z :=
  (λ tid, scan_value scantype x 0 tid) <$> seq 0 B.

(** [holds x s]: the block [s] holds the 32-bit values of [x]. *)
Definition holds (x : nat → Z) (s : list Z) : Prop :=
  ∀ tid, tid < length s → s !! tid = Some (wrap32 (x tid)).

#[global] Instance in_range_dec z : Decision (in_range z).
Proof. unfold in_range. apply _. Defined.

(** A device for the examples: 1024 threads a block, the blocks run in the
    order of their indices, the warps of a block abreast. *)
Definition reference_device : device :=
  {| maxThreadsPerBlock := 1024; schedule := λ n, seq 0 n;
     overtakes := λ _ _, false |}.

(** The same device with warps that run ahead wherever nothing holds them
    back. *)
Definition racing_device : device :=
  {| maxThreadsPerBlock := 1024; schedule := λ n, seq 0 n;
     overtakes := λ _ _, true |}.

(** The value the kernel [ScanGPUBlock] stores at offset [r] of the segment
    at [i]: the scan of the segment, or for an overtaken load the input
    found in the slot. *)
Definition ScanGPUBlock_cell (ahead : nat → nat → bool) (scantype : ScanType)
    (B N : nat) (inp : list Z) (i r : nat) : Z :=
  let v := scan_value scantype (cell inp 0) i r in
  match scantype with
  | Exclusive =>
      if bool_decide (r ≠ 0 ∧ r mod warpSize = 0) && ahead i r
      then default v (next_input B N inp i (r - 1)) else v
  | Inclusive => v
  end.

(** What one round of either kernel comes to when no load is overtaken:
    the segment of [blockDim] cells at [i] is read and its scan is written
    at [i]. *)
Definition scan_round (scantype : ScanType) (blockDim i : nat)
    (inp out : list Z) : result (list Z) :=
  _ ← read_block inp i blockDim;
  write_block out i (scan_list scantype (cell inp i) blockDim).

(** The other way to the exclusive block scan that section 4.2 of the
    specification describes, on the shared-memory primitives: each lane
    converts its own inclusive result of the group scan to exclusive, by
    subtracting its own value, before the carry-in of its group is added. *)
Definition exclusive_by_conversion (sPartials : list Z) : list Z :=
  let local := scanWarp sPartials in
  let totals := scanWarp (warp_totals local) in
  imap (λ tid v, add32 (sub32 (local !!! tid) v)
                       (exclusive_of_left totals (tid / warpSize)))
       sPartials.

(** The block size is a power of two (the usual bit test). *)
Definition is_power_of_two (c : Z) : Prop :=
  (0 < c)%Z ∧ Z.land c (c - 1) = 0%Z.

(** The device runs every block of a grid, once, in some order. *)
Definition runs_every_block (dev : device) : Prop :=
  ∀ n, schedule dev n ≡ₚ seq 0 n.

(** [good_from val t out]: from position [t] on, the buffer [out] holds the
    values [val]. *)
Definition good_from (val : nat → Z) (N t : nat) (out : list Z) : Prop :=
  length out = N ∧ ∀ k, t ≤ k < N → out !! k = Some (val k).

(** ** Further notions for the properties of the code *)

(** [n * B] is [N] rounded up to a whole number of periods of [B] cells. *)
Definition rounds_up (B N n : nat) : Prop := N ≤ n * B ∧ n * B < N + B.

(** The state of the generator after [k] calls of [rand], and the value the
    call number [k] returns (calls are counted from 0). *)
Fixpoint rand_state {rng : Type} (rand : rng → Z * rng) (s : rng) (k : nat) : rng :=
  match k with
  | O => s
  | S k' => rand_state rand (rand s).2 k'
  end.

Definition rand_value {rng : Type} (rand : rng → Z * rng) (s : rng) (k : nat) : Z :=
  (rand (rand_state rand s k)).1.

(** The host store of [TestScanBlock] when the scans are called: [inCPU]
    holds its indices, [outCPU] and [hostGPU] what [malloc] left there. *)
Definition index_store (junk : nat → Z) (N : nat) : list Z :=
  (Z.of_nat <$> seq 0 N) ++ (junk <$> seq N (2 * N)).

(** The thread counts [main] tests:
    [for ( int numThreads = 256; numThreads <= maxThreads; numThreads *= 2 )]. *)
Fixpoint main_numThreads (fuel : nat) (numThreads maxThreads : Z)
    : result (list Z) :=
  if decide (numThreads <= maxThreads)%Z then
    match fuel with
    | O => OutOfFuel
    | S fuel' =>
        rest ← main_numThreads fuel' (wrap32 (numThreads * 2)) maxThreads;
        Ok (numThreads :: rest)
    end
  else Ok [].

(** The shape the kernels of the file share: in each round the block loads
    the segment of [blockDim] cells at [i], its threads compute [f i] of it
    and store the result at [i]; the next round is [blockDim] cells on. *)
Definition block_round (f : nat → list Z → list Z) (blockDim i : nat)
    (inp out : list Z) : result (list Z) :=
  s ← read_block inp i blockDim;
  write_block out i (f i s).

Fixpoint block_loop (f : nat → list Z → list Z) (fuel : nat) (blockDim N i : nat)
    (inp out : list Z) : result (list Z) :=
  if decide (i < N) then
    match fuel with
    | O => OutOfFuel
    | S fuel' =>
        out' ← block_round f blockDim i inp out;
        block_loop f fuel' blockDim N (i + blockDim) inp out'
    end
  else Ok out.

(** What the threads of the kernel [ScanGPUBlockShuffle] compute in a
    round. *)
Definition ScanGPUBlockShuffle_values (scantype : ScanType) (logBlockSize : nat)
    (myValue : list Z) : list Z :=
  match scantype with
  | Exclusive => exclusive_scan_block logBlockSize myValue
  | Inclusive => inclusive_scan_block logBlockSize myValue
  end.

(** The value a kernel of that shape leaves at position [k]: cell
    [k mod B] of [f] of the segment that holds [k]. *)
Definition block_target (f : nat → list Z → list Z) (B : nat) (inp : list Z)
    (k : nat) : option Z :=
  f (k / B * B) (take B (drop (k / B * B) inp)) !! (k mod B).


(** ** The warp scan kernels *)

(** Modelled from the spec: [scanWarpExclusive<int,false>] of
    [scanWarp.cuh] (absent): "exclusive scan is derived by subtracting the
    lane's own original value from its inclusive result". *)
Definition scanWarpExclusive (s : list Z) : list Z :=
  imap (λ tid v, sub32 (scanWarp s !!! tid) v) s.

(** The body of the loop of the kernel [ScanGPUWarp] between the load and
    the store: [scanWarp<int,false>( sPartials+threadIdx.x )] for the
    inclusive scan, [scanWarpExclusive<int,false>] otherwise. *)
Definition ScanGPUWarp_values (scantype : ScanType) (sPartials : list Z)
    : list Z :=
  match scantype with
  | Inclusive => scanWarp sPartials
  | Exclusive => scanWarpExclusive sPartials
  end.

(** The kernel [ScanGPUWarp]:
    [for ( size_t i = blockIdx.x*blockDim.x; i < N; i += blockDim.x )]
    with [sPartials[threadIdx.x] = in[i+threadIdx.x]], a barrier, the body
    above and the store to [out[i+threadIdx.x]]. *)
Definition ScanGPUWarp_kernel (scantype : ScanType) (inp : list Z) (N : nat)
    (blockIdx blockDim : nat) (out : list Z) : result (list Z) :=
  block_loop (λ _, ScanGPUWarp_values scantype) N blockDim N
             (blockIdx * blockDim) inp out.

(** The host wrapper [ScanGPU]. *)
Definition ScanGPU (dev : device) (scantype : ScanType)
    (out inp : list Z) (N : nat) (cThreads : Z) : launch_result :=
  launch dev (ScanGPUWarp_kernel scantype inp N) (cBlocks_of N) cThreads out.

(** The body of the loop of the kernel [ScanGPUWarpShuffle]:
    [inclusive_scan_warp_shfl<5>( in[i+threadIdx.x] )] or
    [exclusive_scan_warp_shfl<5>( in[i+threadIdx.x] )]. *)
Definition ScanGPUWarpShuffle_values (scantype : ScanType) (regs : list Z)
    : list Z :=
  match scantype with
  | Inclusive => inclusive_scan_warp_shfl 5 regs
  | Exclusive => exclusive_scan_warp_shfl 5 regs
  end.

(** The kernel [ScanGPUWarpShuffle], the same loop without shared memory. *)
Definition ScanGPUWarpShuffle_kernel (scantype : ScanType) (inp : list Z)
    (N : nat) (blockIdx blockDim : nat) (out : list Z) : result (list Z) :=
  block_loop (λ _, ScanGPUWarpShuffle_values scantype) N blockDim N
             (blockIdx * blockDim) inp out.

(** The host wrapper [ScanGPUShuffle]. *)
Definition ScanGPUShuffle (dev : device) (scantype : ScanType)
    (out inp : list Z) (N : nat) (cThreads : Z) : launch_result :=
  launch dev (ScanGPUWarpShuffle_kernel scantype inp N) (cBlocks_of N) cThreads out.

(** * Proofs *)

(** ** 32-bit arithmetic *)

Lemma wrap32_range z : in_range (wrap32 z).
Proof.
  unfold in_range, wrap32.
  pose proof (Z.mod_pos_bound (z + 2 ^ 31) (2 ^ 32) ltac:(lia)). lia.
Qed.

Lemma wrap32_small z : in_range z → wrap32 z = z.
Proof.
  unfold in_range, wrap32. intros Hz.
  rewrite Z.mod_small by lia. lia.
Qed.

Lemma wrap32_add_l a b : wrap32 (wrap32 a + b) = wrap32 (a + b).
Proof.
  unfold wrap32. f_equal.
  replace ((a + 2 ^ 31) mod 2 ^ 32 - 2 ^ 31 + b + 2 ^ 31)%Z
    with ((a + 2 ^ 31) mod 2 ^ 32 + b)%Z by lia.
  rewrite Zplus_mod_idemp_l. f_equal. lia.
Qed.

Lemma wrap32_add_r a b : wrap32 (a + wrap32 b) = wrap32 (a + b).
Proof.
  replace (a + wrap32 b)%Z with (wrap32 b + a)%Z by lia.
  rewrite wrap32_add_l. f_equal. lia.
Qed.

Lemma wrap32_idem a : wrap32 (wrap32 a) = wrap32 a.
Proof. apply wrap32_small, wrap32_range. Qed.

Lemma wrap32_sub_l a b : wrap32 (wrap32 a - b) = wrap32 (a - b).
Proof. unfold Z.sub. apply wrap32_add_l. Qed.

Lemma add32_wrap_l a b : add32 (wrap32 a) b = wrap32 (a + b).
Proof. apply wrap32_add_l. Qed.

Lemma add32_wrap_r a b : add32 a (wrap32 b) = wrap32 (a + b).
Proof. apply wrap32_add_r. Qed.

Lemma add32_wrap a b : add32 (wrap32 a) (wrap32 b) = wrap32 (a + b).
Proof. unfold add32. rewrite wrap32_add_l. apply wrap32_add_r. Qed.

(** ** Runs of the CPU scans on small stores *)

Example ScanInclusive_run :
  ScanInclusiveCPUPeriodic 2 4 0 4 [1; 2; 3; 4; 0; 0; 0; 0]%Z
  = Ok [1; 2; 3; 4; 1; 3; 3; 7]%Z.
Proof. reflexivity. Qed.

Example ScanExclusive_run :
  ScanExclusiveCPUPeriodic 2 4 0 4 [1; 2; 3; 4; 9; 9; 9; 9]%Z
  = Ok [1; 2; 3; 4; 0; 1; 0; 3]%Z.
Proof. reflexivity. Qed.

Example ScanExclusive_in_place :
  ScanExclusiveCPUPeriodic 2 0 0 4 [1; 2; 3; 4]%Z = Ok [0; 1; 0; 3]%Z.
Proof. reflexivity. Qed.

Example ScanInclusive_wraps :
  ScanInclusiveCPUPeriodic 2 2 0 2 [2147483647; 1; 0; 0]%Z
  = Ok [2147483647; 1; 2147483647; -2147483648]%Z.
Proof. reflexivity. Qed.

(** The two scenarios of the specification: the indices 0 .. 255 with
    blocks of 256 give the triangular numbers, and 1024 ones with blocks of
    256 give 1 .. 256 four times. *)
Example ScanCPUBlock_triangular :
  ScanCPUBlock Inclusive 256 0 256 256%Z ((Z.of_nat <$> seq 0 256) ++ repeat 0%Z 256)
  = Ok ((Z.of_nat <$> seq 0 256) ++ ((λ k, Z.of_nat (k * (k + 1) / 2)) <$> seq 0 256))
  ∧ ScanCPUBlock Exclusive 256 0 256 256%Z ((Z.of_nat <$> seq 0 256) ++ repeat 0%Z 256)
    = Ok ((Z.of_nat <$> seq 0 256) ++ ((λ k, Z.of_nat (k * (k - 1) / 2)) <$> seq 0 256)).
Proof. split; vm_compute; reflexivity. Qed.

Example ScanCPUBlock_ones :
  ScanCPUBlock Inclusive 1024 0 1024 256%Z (repeat 1%Z 1024 ++ repeat 0%Z 1024)
  = Ok (repeat 1%Z 1024
        ++ mjoin (repeat (Z.of_nat <$> seq 1 256) 4)).
Proof. vm_compute. reflexivity. Qed.

(** ** Sums over a range *)

Lemma rsum_snoc x lo len :
  rsum x lo (S len) = (rsum x lo len + x (lo + len)%nat)%Z.
Proof.
  revert lo. induction len as [|len IH]; intros lo.
  - simpl. rewrite Nat.add_0_r. lia.
  - change (rsum x lo (S (S len))) with (x lo + rsum x (S lo) (S len))%Z.
    rewrite IH. replace (lo + S len) with (S lo + len) by lia.
    change (rsum x lo (S len)) with (x lo + rsum x (S lo) len)%Z. lia.
Qed.

Lemma rsum_app x lo a b :
  rsum x lo (a + b) = (rsum x lo a + rsum x (lo + a)%nat b)%Z.
Proof.
  revert lo. induction a as [|a IH]; intros lo; simpl.
  - rewrite Nat.add_0_r. reflexivity.
  - rewrite IH. replace (S lo + a) with (lo + S a) by lia. lia.
Qed.

Lemma rsum_ext x y lo len :
  (∀ k, lo ≤ k < lo + len → x k = y k) → rsum x lo len = rsum y lo len.
Proof.
  revert lo. induction len as [|len IH]; intros lo H; simpl; [reflexivity|].
  rewrite (H lo) by lia. rewrite (IH (S lo)); [reflexivity|].
  intros k Hk. apply H. lia.
Qed.

Lemma rsum_const1 lo len : rsum (λ _, 1%Z) lo len = Z.of_nat len.
Proof. revert lo. induction len as [|len IH]; intros lo; simpl; [|rewrite IH]; lia. Qed.

Lemma scanned_start val out m0 : scanned val out 0 m0 m0.
Proof. split; [reflexivity|]. split; [reflexivity|]. intros k Hk. lia. Qed.

Lemma scanned_step val out t m0 m :
  scanned val out t m0 m → out + t < length m0 →
  scanned val out (S t) m0 (<[out + t := val t]> m).
Proof.
  intros (Hlen & Hframe & Hdone) Hin. repeat split.
  - rewrite length_insert. exact Hlen.
  - intros p Hp. rewrite list_lookup_insert_ne by lia. apply Hframe. lia.
  - intros k Hk. destruct (decide (k = t)) as [->|Hne].
    + apply list_lookup_insert_eq. lia.
    + rewrite list_lookup_insert_ne by lia. apply Hdone. lia.
Qed.

Ltac run_bind := unfold mbind, result_bind; cbn beta iota.

Section CPUScan.
(** The input buffer at [inp] holds [x 0 .. x (N-1)] in the initial store
    [m0]; the output buffer at [out] starts at or before the input buffer,
    or after its end: in place ([out = inp]) and disjoint buffers both
    qualify. *)
Variables (x val : nat → Z) (out inp N : nat) (m0 : list Z).
Hypothesis Halias : out ≤ inp ∨ inp + N ≤ out.
Hypothesis Hin : ∀ k, k < N → m0 !! (inp + k) = Some (x k).
Hypothesis Hout : out + N ≤ length m0.

Lemma scanned_read t m k :
  scanned val out t m0 m → t ≤ k < N → m !! (inp + k) = Some (x k).
Proof.
  intros (_ & Hframe & _) Hk. rewrite Hframe by lia. apply Hin. lia.
Qed.

Lemma ScanExclusive_inner_spec todo : ∀ i j sum m,
  i + j + todo ≤ N →
  scanned val out (i + j) m0 m →
  sum = wrap32 (rsum x i j) →
  (∀ k, j ≤ k < j + todo → val (i + k) = wrap32 (rsum x i k)) →
  ∃ m', ScanExclusive_inner todo out inp i j sum m = Ok m' ∧
        scanned val out (i + j + todo) m0 m'.
Proof.
  induction todo as [|todo IH]; intros i j sum m Hle Hsc Hsum Hval.
  - exists m. rewrite Nat.add_0_r. split; [reflexivity | exact Hsc].
  - simpl. unfold load. rewrite (scanned_read (i + j) m (i + j) Hsc) by lia.
    run_bind. unfold store.
    destruct Hsc as (Hlen & Hsc').
    destruct (decide (out + (i + j) < length m)) as [_|Hno]; [|lia].
    run_bind.
    destruct (IH i (S j) (add32 sum (x (i + j))) (<[out + (i + j) := sum]> m))
      as (m' & Hrun & Hsc''); [lia | | | |].
    + replace (i + S j) with (S (i + j)) by lia.
      rewrite Hsum, <- (Hval j) by lia.
      apply scanned_step; [split; assumption | lia].
    + rewrite Hsum, rsum_snoc. apply add32_wrap_l.
    + intros k Hk. apply Hval. lia.
    + exists m'. split; [exact Hrun|].
      replace (i + j + S todo) with (i + S j + todo) by lia. exact Hsc''.
Qed.

Lemma ScanInclusive_inner_spec todo : ∀ i j sum m,
  i + j + todo ≤ N →
  scanned val out (i + j) m0 m →
  sum = wrap32 (rsum x i j) →
  (∀ k, j ≤ k < j + todo → val (i + k) = wrap32 (rsum x i (S k))) →
  ∃ m', ScanInclusive_inner todo out inp i j sum m = Ok m' ∧
        scanned val out (i + j + todo) m0 m'.
Proof.
  induction todo as [|todo IH]; intros i j sum m Hle Hsc Hsum Hval.
  - exists m. rewrite Nat.add_0_r. split; [reflexivity | exact Hsc].
  - simpl. unfold load. rewrite (scanned_read (i + j) m (i + j) Hsc) by lia.
    run_bind. unfold store.
    destruct Hsc as (Hlen & Hsc').
    destruct (decide (out + (i + j) < length m)) as [_|Hno]; [|lia].
    run_bind.
    assert (Hnew : add32 sum (x (i + j)) = wrap32 (rsum x i (S j))).
    { rewrite Hsum, rsum_snoc. apply add32_wrap_l. }
    destruct (IH i (S j) (add32 sum (x (i + j)))
                (<[out + (i + j) := add32 sum (x (i + j))]> m))
      as (m' & Hrun & Hsc''); [lia | | exact Hnew | |].
    + replace (i + S j) with (S (i + j)) by lia.
      rewrite Hnew, <- (Hval j) by lia.
      apply scanned_step; [split; assumption | lia].
    + intros k Hk. apply Hval. lia.
    + exists m'. split; [exact Hrun|].
      replace (i + j + S todo) with (i + S j + todo) by lia. exact Hsc''.
Qed.
End CPUScan.

Lemma periodic_value_at scantype B x q r :
  r < B → periodic_value scantype B x (q * B + r) = scan_value scantype x (q * B) r.
Proof.
  intros Hr. unfold periodic_value.
  rewrite Nat.div_add_l, Nat.div_small, Nat.add_0_r by lia.
  rewrite Nat.add_comm, Nat.Div0.mod_add, Nat.mod_small by lia. reflexivity.
Qed.

Lemma scanned_periodic scantype B x out N m0 m' :
  scanned (periodic_value scantype B x) out N m0 m' →
  periodic_scan scantype B x out N m'.
Proof.
  intros (_ & _ & Hdone) q r Hr Hlt.
  rewrite (Hdone _ Hlt). f_equal. apply periodic_value_at, Hr.
Qed.

Section CPUScanOuter.
Variables (x : nat → Z) (B n out inp : nat) (m0 : list Z).
Hypothesis HB : 0 < B.
Hypothesis Halias : out ≤ inp ∨ inp + n * B ≤ out.
Hypothesis Hin : ∀ k, k < n * B → m0 !! (inp + k) = Some (x k).
Hypothesis Hout : out + n * B ≤ length m0.

Lemma ScanExclusive_outer_spec fuel : ∀ q m,
  q ≤ n → n - q ≤ fuel →
  scanned (periodic_value Exclusive B x) out (q * B) m0 m →
  ∃ m', ScanExclusive_outer fuel B out inp (n * B) (q * B) m = Ok m' ∧
        scanned (periodic_value Exclusive B x) out (n * B) m0 m'.
Proof.
  induction fuel as [|fuel IH]; intros q m Hq Hfuel Hsc; simpl;
    destruct (decide (q * B < n * B)) as [Hlt|Hge];
    try (assert (q = n) as -> by nia; exists m; split; [reflexivity | exact Hsc]).
  - exfalso. nia.
  - destruct (ScanExclusive_inner_spec x (periodic_value Exclusive B x)
                out inp (n * B) m0 Halias Hin Hout B (q * B) 0 0%Z m)
      as (m1 & Hrun & Hsc1); [nia | | reflexivity | |].
    + rewrite Nat.add_0_r. exact Hsc.
    + intros k Hk. apply (periodic_value_at Exclusive). lia.
    + rewrite Hrun. run_bind.
      replace (q * B + B) with (S q * B) by lia.
      apply IH; [nia | lia |].
      replace (S q * B) with (q * B + 0 + B) by lia. exact Hsc1.
Qed.

Lemma ScanInclusive_outer_spec fuel : ∀ q m,
  q ≤ n → n - q ≤ fuel →
  scanned (periodic_value Inclusive B x) out (q * B) m0 m →
  ∃ m', ScanInclusive_outer fuel B out inp (n * B) (q * B) m = Ok m' ∧
        scanned (periodic_value Inclusive B x) out (n * B) m0 m'.
Proof.
  induction fuel as [|fuel IH]; intros q m Hq Hfuel Hsc; simpl;
    destruct (decide (q * B < n * B)) as [Hlt|Hge];
    try (assert (q = n) as -> by nia; exists m; split; [reflexivity | exact Hsc]).
  - exfalso. nia.
  - destruct (ScanInclusive_inner_spec x (periodic_value Inclusive B x)
                out inp (n * B) m0 Halias Hin Hout B (q * B) 0 0%Z m)
      as (m1 & Hrun & Hsc1); [nia | | reflexivity | |].
    + rewrite Nat.add_0_r. exact Hsc.
    + intros k Hk. apply (periodic_value_at Inclusive). lia.
    + rewrite Hrun. run_bind.
      replace (q * B + B) with (S q * B) by lia.
      apply IH; [nia | lia |].
      replace (S q * B) with (q * B + 0 + B) by lia. exact Hsc1.
Qed.
End CPUScanOuter.

(** The two scans, from any store in which the buffers fit, for a length
    that is a multiple of the period. *)
Lemma ScanExclusiveCPUPeriodic_scanned x B n out inp m0 :
  out ≤ inp ∨ inp + n * B ≤ out →
  (∀ k, k < n * B → m0 !! (inp + k) = Some (x k)) →
  out + n * B ≤ length m0 →
  ∃ m', ScanExclusiveCPUPeriodic B out inp (n * B) m0 = Ok m' ∧
        scanned (periodic_value Exclusive B x) out (n * B) m0 m'.
Proof.
  intros Halias Hin Hout. unfold ScanExclusiveCPUPeriodic.
  destruct (decide (B = 0)) as [->|HB].
  - rewrite Nat.mul_0_r. exists m0. split; [reflexivity | apply scanned_start].
  - apply (ScanExclusive_outer_spec x B n out inp m0 ltac:(lia) Halias Hin Hout
             (n * B) 0 m0); [lia | nia | apply scanned_start].
Qed.

Lemma ScanInclusiveCPUPeriodic_scanned x B n out inp m0 :
  out ≤ inp ∨ inp + n * B ≤ out →
  (∀ k, k < n * B → m0 !! (inp + k) = Some (x k)) →
  out + n * B ≤ length m0 →
  ∃ m', ScanInclusiveCPUPeriodic B out inp (n * B) m0 = Ok m' ∧
        scanned (periodic_value Inclusive B x) out (n * B) m0 m'.
Proof.
  intros Halias Hin Hout. unfold ScanInclusiveCPUPeriodic.
  destruct (decide (B = 0)) as [->|HB].
  - rewrite Nat.mul_0_r. exists m0. split; [reflexivity | apply scanned_start].
  - apply (ScanInclusive_outer_spec x B n out inp m0 ltac:(lia) Halias Hin Hout
             (n * B) 0 m0); [lia | nia | apply scanned_start].
Qed.

(** The input cells of a store in which the buffer at [inp] fits. *)
Lemma cell_lookup (m : list Z) inp N k :
  inp + N ≤ length m → k < N → m !! (inp + k) = Some (cell m inp k).
Proof.
  intros Hfit Hk. unfold cell.
  destruct (lookup_lt_is_Some_2 m (inp + k) ltac:(lia)) as [v ->]. reflexivity.
Qed.

(** ** The CPU reference scans are periodic scans *)

(** C1. For an input of [N = n * B] integers, [ScanInclusiveCPUPeriodic] and
    [ScanExclusiveCPUPeriodic] with period [B] return, and the output cell at
    position [q * B + r] holds the 32-bit sum of the inputs
    [q * B .. q * B + r] (inclusive) or [q * B .. q * B + r - 1] (exclusive,
    the empty sum 0 at [r = 0]).  The output buffer may be any buffer that
    starts at or before the input buffer or after its end. *)
Theorem CPU_reference_scan_is_periodic (B n inp out : nat) (m : list Z) :
  inp + n * B ≤ length m →
  out + n * B ≤ length m →
  out ≤ inp ∨ inp + n * B ≤ out →
  (∃ m', ScanInclusiveCPUPeriodic B out inp (n * B) m = Ok m' ∧
     ∀ q r, r < B → q < n →
       m' !! (out + (q * B + r)) = Some (wrap32 (rsum (cell m inp) (q * B) (S r))))
  ∧
  (∃ m', ScanExclusiveCPUPeriodic B out inp (n * B) m = Ok m' ∧
     ∀ q r, r < B → q < n →
       m' !! (out + (q * B + r)) = Some (wrap32 (rsum (cell m inp) (q * B) r))).
Proof.
  intros Hfit Hout Halias.
  assert (Hin : ∀ k, k < n * B → m !! (inp + k) = Some (cell m inp k))
    by (intros k Hk; apply (cell_lookup m inp (n * B)); assumption).
  split.
  - destruct (ScanInclusiveCPUPeriodic_scanned (cell m inp) B n out inp m
                Halias Hin Hout) as (m' & Hrun & Hsc).
    exists m'. split; [exact Hrun|]. intros q r Hr Hq.
    apply (scanned_periodic Inclusive) in Hsc. apply Hsc; [exact Hr | nia].
  - destruct (ScanExclusiveCPUPeriodic_scanned (cell m inp) B n out inp m
                Halias Hin Hout) as (m' & Hrun & Hsc).
    exists m'. split; [exact Hrun|]. intros q r Hr Hq.
    apply (scanned_periodic Exclusive) in Hsc. apply Hsc; [exact Hr | nia].
Qed.

Lemma CPU_reference_scan_is_periodic_witness :
  ∃ m', ScanInclusiveCPUPeriodic 2 4 0 (2 * 2) [1; 2; 3; 4; 0; 0; 0; 0]%Z = Ok m' ∧
        m' !! (4 + (1 * 2 + 1)) = Some 7%Z.
Proof.
  destruct (CPU_reference_scan_is_periodic 2 2 0 4 [1; 2; 3; 4; 0; 0; 0; 0]%Z)
    as [(m' & Hrun & Hval) _]; [simpl; lia | simpl; lia | lia |].
  exists m'. split; [exact Hrun|]. apply (Hval 1 1); lia.
Defined.

(** C7. After the inclusive scan of [n * B] inputs, the last cell of every
    period holds the 32-bit sum of the [B] inputs of that period. *)
Theorem inclusive_last_cell_is_period_total (B n inp out : nat) (m : list Z) :
  0 < B →
  inp + n * B ≤ length m →
  out + n * B ≤ length m →
  out ≤ inp ∨ inp + n * B ≤ out →
  ∃ m', ScanInclusiveCPUPeriodic B out inp (n * B) m = Ok m' ∧
    ∀ q, q < n →
      m' !! (out + (q * B + (B - 1))) = Some (wrap32 (rsum (cell m inp) (q * B) B)).
Proof.
  intros HB Hfit Hout Halias.
  assert (Hin : ∀ k, k < n * B → m !! (inp + k) = Some (cell m inp k))
    by (intros k Hk; apply (cell_lookup m inp (n * B)); assumption).
  destruct (ScanInclusiveCPUPeriodic_scanned (cell m inp) B n out inp m
              Halias Hin Hout) as (m' & Hrun & Hsc).
  exists m'. split; [exact Hrun|]. intros q Hq.
  apply (scanned_periodic Inclusive) in Hsc.
  rewrite (Hsc q (B - 1)) by nia. unfold scan_value.
  replace (S (B - 1)) with B by lia. reflexivity.
Qed.

Lemma inclusive_last_cell_is_period_total_witness :
  ∃ m', ScanInclusiveCPUPeriodic 2 4 0 (2 * 2) [1; 2; 3; 4; 0; 0; 0; 0]%Z = Ok m' ∧
        m' !! (4 + (1 * 2 + (2 - 1))) = Some 7%Z.
Proof.
  destruct (inclusive_last_cell_is_period_total 2 2 0 4 [1; 2; 3; 4; 0; 0; 0; 0]%Z)
    as (m' & Hrun & Hval); [lia | simpl; lia | simpl; lia | lia |].
  exists m'. split; [exact Hrun|]. apply (Hval 1); lia.
Defined.

(** C9. Run in place (output buffer = input buffer), each scan leaves in the
    buffer what it writes to a separate output buffer when it is run on the
    same input with two distinct buffers. *)
Theorem CPU_scans_in_place (B n p inp out : nat) (m1 m2 : list Z) :
  p + n * B ≤ length m1 →
  inp + n * B ≤ length m2 →
  out + n * B ≤ length m2 →
  inp + n * B ≤ out ∨ out + n * B ≤ inp →
  (∀ k, k < n * B → m1 !! (p + k) = m2 !! (inp + k)) →
  (∃ m1' m2',
     ScanExclusiveCPUPeriodic B p p (n * B) m1 = Ok m1' ∧
     ScanExclusiveCPUPeriodic B out inp (n * B) m2 = Ok m2' ∧
     ∀ k, k < n * B → m1' !! (p + k) = m2' !! (out + k))
  ∧
  (∃ m1' m2',
     ScanInclusiveCPUPeriodic B p p (n * B) m1 = Ok m1' ∧
     ScanInclusiveCPUPeriodic B out inp (n * B) m2 = Ok m2' ∧
     ∀ k, k < n * B → m1' !! (p + k) = m2' !! (out + k)).
Proof.
  intros Hfit1 Hfit2 Hout2 Hdisj Hsame.
  assert (Hin1 : ∀ k, k < n * B → m1 !! (p + k) = Some (cell m1 p k))
    by (intros k Hk; apply (cell_lookup m1 p (n * B)); assumption).
  assert (Hin2 : ∀ k, k < n * B → m2 !! (inp + k) = Some (cell m1 p k))
    by (intros k Hk; rewrite <- Hsame by exact Hk; apply Hin1, Hk).
  split.
  - destruct (ScanExclusiveCPUPeriodic_scanned (cell m1 p) B n p p m1
                ltac:(lia) Hin1 Hfit1) as (m1' & Hrun1 & _ & _ & Hd1).
    destruct (ScanExclusiveCPUPeriodic_scanned (cell m1 p) B n out inp m2
                ltac:(lia) Hin2 Hout2) as (m2' & Hrun2 & _ & _ & Hd2).
    exists m1', m2'. repeat split; [assumption.. |].
    intros k Hk. rewrite Hd1, Hd2 by exact Hk. reflexivity.
  - destruct (ScanInclusiveCPUPeriodic_scanned (cell m1 p) B n p p m1
                ltac:(lia) Hin1 Hfit1) as (m1' & Hrun1 & _ & _ & Hd1).
    destruct (ScanInclusiveCPUPeriodic_scanned (cell m1 p) B n out inp m2
                ltac:(lia) Hin2 Hout2) as (m2' & Hrun2 & _ & _ & Hd2).
    exists m1', m2'. repeat split; [assumption.. |].
    intros k Hk. rewrite Hd1, Hd2 by exact Hk. reflexivity.
Qed.

Lemma CPU_scans_in_place_witness :
  ∃ m1' m2',
    ScanExclusiveCPUPeriodic 2 0 0 (2 * 2) [1; 2; 3; 4]%Z = Ok m1' ∧
    ScanExclusiveCPUPeriodic 2 4 0 (2 * 2) [1; 2; 3; 4; 9; 9; 9; 9]%Z = Ok m2' ∧
    m1' !! (0 + 3) = m2' !! (4 + 3).
Proof.
  destruct (CPU_scans_in_place 2 2 0 0 4 [1; 2; 3; 4]%Z [1; 2; 3; 4; 9; 9; 9; 9]%Z)
    as [(m1' & m2' & H1 & H2 & H) _];
    [simpl; lia | simpl; lia | simpl; lia | lia | |].
  - intros k Hk. do 4 (destruct k as [|k]; [reflexivity|]). simpl in Hk. lia.
  - exists m1', m2'. repeat split; [exact H1 | exact H2 | apply H; simpl; lia].
Defined.

(** ** The first cell of a period of the exclusive scan

    This part makes no assumption on how the two buffers overlap. *)

Lemma load_in_range (m : list Z) p : p < length m → ∃ v, load m p = Ok v.
Proof.
  intros Hp. unfold load.
  destruct (lookup_lt_is_Some_2 m p Hp) as [v ->]. exists v. reflexivity.
Qed.

Lemma ScanExclusive_inner_firsts B out inp L q0 todo : ∀ j sum m,
  j + todo ≤ B →
  inp + (q0 * B + B) ≤ L → out + (q0 * B + B) ≤ L →
  length m = L →
  (j = 0 → sum = 0%Z) →
  firsts_zero B out (q0 * B + j) m →
  ∃ m', ScanExclusive_inner todo out inp (q0 * B) j sum m = Ok m' ∧
        length m' = L ∧ firsts_zero B out (q0 * B + j + todo) m'.
Proof.
  induction todo as [|todo IH]; intros j sum m Hj Hinp Hout Hlen Hsum Hz.
  - exists m. rewrite Nat.add_0_r. repeat split; assumption.
  - simpl. destruct (load_in_range m (inp + (q0 * B + j)) ltac:(lia)) as [v ->].
    run_bind. unfold store.
    destruct (decide (out + (q0 * B + j) < length m)) as [_|Hno]; [|lia].
    run_bind.
    destruct (IH (S j) (add32 sum v) (<[out + (q0 * B + j) := sum]> m))
      as (m' & Hrun & Hlen' & Hz'); [lia | assumption | assumption | | lia | |].
    + rewrite length_insert. exact Hlen.
    + intros q Hq. destruct (decide (q * B = q0 * B + j)) as [Heq|Hne].
      * assert (j = 0).
        { destruct (decide (q ≤ q0)) as [Hle|Hgt].
          - pose proof (Nat.mul_le_mono_r q q0 B Hle). lia.
          - pose proof (Nat.mul_le_mono_r (S q0) q B ltac:(lia)). lia. }
        rewrite Heq, (Hsum ltac:(assumption)).
        apply list_lookup_insert_eq. lia.
      * rewrite list_lookup_insert_ne by lia. apply Hz. lia.
    + exists m'. split; [exact Hrun|]. split; [exact Hlen'|].
      replace (q0 * B + j + S todo) with (q0 * B + S j + todo) by lia. exact Hz'.
Qed.

Lemma ScanExclusive_outer_firsts B n N out inp L fuel : ∀ q m,
  0 < B → N ≤ n * B →
  inp + n * B ≤ L → out + n * B ≤ L →
  N - q * B ≤ fuel * B →
  length m = L →
  firsts_zero B out (q * B) m →
  ∃ m', ScanExclusive_outer fuel B out inp N (q * B) m = Ok m' ∧
        firsts_zero B out N m'.
Proof.
  induction fuel as [|fuel IH]; intros q m HB HN Hinp Hout Hfuel Hlen Hz; simpl;
    destruct (decide (q * B < N)) as [Hlt|Hge];
    try (exists m; split; [reflexivity|]; intros q' Hq'; apply Hz; lia).
  - exfalso. lia.
  - assert (Hnext : q * B + B ≤ n * B).
    { destruct (decide (q < n)) as [Hqn|Hqn].
      - pose proof (Nat.mul_le_mono_r (S q) n B Hqn). lia.
      - pose proof (Nat.mul_le_mono_r n q B ltac:(lia)). lia. }
    destruct (ScanExclusive_inner_firsts B out inp L q B 0 0%Z m)
      as (m1 & Hrun & Hlen1 & Hz1);
      [lia | lia | lia | exact Hlen | reflexivity | | ].
    + rewrite Nat.add_0_r. exact Hz.
    + rewrite Hrun. run_bind.
      replace (q * B + B) with (S q * B) by lia.
      apply IH; [assumption.. | lia | exact Hlen1 |].
      replace (S q * B) with (q * B + 0 + B) by lia. exact Hz1.
Qed.

(** C8. Whatever the input values, whatever the period [B > 0] and
    however the two buffers overlap, the exclusive scan returns and the
    first output cell of every period (positions 0, B, 2B, ... below [N])
    holds 0.  The buffers hold a whole number [n] of periods, [N ≤ n * B]. *)
Theorem exclusive_first_of_period_is_zero (B n N inp out : nat) (m : list Z) :
  0 < B →
  N ≤ n * B →
  inp + n * B ≤ length m →
  out + n * B ≤ length m →
  ∃ m', ScanExclusiveCPUPeriodic B out inp N m = Ok m' ∧
    ∀ q, q * B < N → m' !! (out + q * B) = Some 0%Z.
Proof.
  intros HB HN Hinp Hout. unfold ScanExclusiveCPUPeriodic.
  apply (ScanExclusive_outer_firsts B n N out inp (length m) N 0 m);
    try assumption; [nia | reflexivity |].
  intros q Hq. simpl in Hq. lia.
Qed.

Lemma exclusive_first_of_period_is_zero_witness :
  ∃ m', ScanExclusiveCPUPeriodic 2 1 0 4 [5; 6; 7; 8; 9]%Z = Ok m' ∧
        m' !! (1 + 1 * 2) = Some 0%Z.
Proof.
  destruct (exclusive_first_of_period_is_zero 2 2 4 0 1 [5; 6; 7; 8; 9]%Z)
    as (m' & Hrun & Hz); [lia | lia | simpl; lia | simpl; lia |].
  exists m'. split; [exact Hrun | apply (Hz 1); lia].
Defined.

(** ** The input of the test does not depend on the generator *)

Section HarnessProofs.
Variable rng : Type.
Variable rand : rng → Z * rng.

Lemma RandomArray_loop_framed out modulus m0 todo : ∀ i s m,
  modulus ≠ 0%Z →
  out + i + todo ≤ length m0 →
  framed out i m0 m →
  ∃ s' m', RandomArray_loop rng rand todo out i modulus s m = Ok (s', m') ∧
           framed out (i + todo) m0 m'.
Proof.
  induction todo as [|todo IH]; intros i s m Hmod Hfit [Hlen Hfr].
  - exists s, m. rewrite Nat.add_0_r. split; [reflexivity | split; assumption].
  - simpl. destruct (rand s) as [r s1].
    destruct (decide (modulus = 0%Z)) as [?|_]; [contradiction|].
    unfold store.
    destruct (decide (out + i < length m)) as [_|Hno]; [|lia].
    run_bind.
    destruct (IH (S i) s1 (<[out + i := Z.rem r modulus]> m) Hmod ltac:(lia))
      as (s' & m' & Hrun & Hfr').
    + split; [rewrite length_insert; exact Hlen|].
      intros p Hp. rewrite list_lookup_insert_ne by lia. apply Hfr. lia.
    + exists s', m'. split; [exact Hrun|].
      replace (i + S todo) with (S i + todo) by lia. exact Hfr'.
Qed.

Lemma fill_index_scanned inCPU N m0 fuel : ∀ k m,
  (Z.of_nat N < 2 ^ 31)%Z → k ≤ N → N - k ≤ fuel →
  inCPU + N ≤ length m0 →
  scanned Z.of_nat inCPU k m0 m →
  ∃ m', fill_index fuel inCPU N (Z.of_nat k) m = Ok m' ∧
        scanned Z.of_nat inCPU N m0 m'.
Proof.
  induction fuel as [|fuel IH]; intros k m HN Hk Hfuel Hfit Hsc;
    cbn [fill_index]; unfold size_t_of_int;
    rewrite (Z.mod_small (Z.of_nat k)) by lia;
    destruct (decide (Z.of_nat k < Z.of_nat N)%Z) as [Hlt|Hge];
    try (assert (k = N) as -> by lia; exists m; split; [reflexivity | exact Hsc]).
  - lia.
  - rewrite decide_True by lia.
    replace (Z.to_nat (Z.of_nat inCPU + Z.of_nat k)) with (inCPU + k) by lia.
    unfold store. pose proof Hsc as (Hlen & _).
    rewrite decide_True by lia. run_bind.
    replace (add32 (Z.of_nat k) 1) with (Z.of_nat (S k))
      by (unfold add32; rewrite wrap32_small; [lia | unfold in_range; lia]).
    apply IH; [exact HN | lia | lia | exact Hfit |].
    apply (scanned_step Z.of_nat); [exact Hsc | lia].
Qed.

(** The store the scans start from: the indices in [inCPU], the
    indeterminate contents elsewhere. *)
Lemma TestScanBlock_input_eq s junk N :
  (Z.of_nat N < 2 ^ 31)%Z →
  TestScanBlock_input rng rand s junk N
  = Ok ((Z.of_nat <$> seq 0 N) ++ (junk <$> seq N (2 * N))).
Proof.
  intros HN. unfold TestScanBlock_input, RandomArray.
  set (m0 := junk <$> seq 0 (3 * N)).
  assert (Hlen0 : length m0 = 3 * N)
    by (unfold m0; rewrite length_fmap, length_seq; reflexivity).
  destruct (RandomArray_loop_framed 0 256%Z m0 N 0 s m0 ltac:(lia) ltac:(lia))
    as (s' & m1 & Hrun & Hlen1 & Hfr1); [split; reflexivity|].
  rewrite Hrun. run_bind.
  destruct (fill_index_scanned 0 N m1 N 0 m1 HN ltac:(lia) ltac:(lia) ltac:(lia)
              (scanned_start _ _ _))
    as (m2 & Hfill & Hlen2 & Hfr2 & Hdone2).
  change (Z.of_nat 0) with 0%Z in Hfill.
  rewrite Hfill. f_equal. apply list_eq. intros i.
  destruct (decide (i < N)) as [Hi|Hi].
  - pose proof (Hdone2 i Hi) as Hd. simpl in Hd. rewrite Hd.
    rewrite lookup_app_l by (rewrite length_fmap, length_seq; exact Hi).
    rewrite list_lookup_fmap, lookup_seq_lt by exact Hi. reflexivity.
  - rewrite Hfr2, Hfr1 by (simpl; lia).
    rewrite lookup_app_r by (rewrite length_fmap, length_seq; lia).
    rewrite length_fmap, length_seq. unfold m0.
    rewrite !list_lookup_fmap. f_equal.
    destruct (decide (i < 3 * N)) as [Hi3|Hi3].
    + rewrite !lookup_seq_lt by lia. f_equal. lia.
    + rewrite !lookup_seq_ge by lia. reflexivity.
Qed.
End HarnessProofs.

(** C10. The generator state has no influence on [TestScanBlock]: for a
    length [N] that the [int] counter of the overwriting loop reaches, as
    the array [0, 1, .., N-1] of [int]s requires, two runs that differ only
    in the state ([s1], [s2]) the generator starts from give the scans the
    same store and end the same way with the same arrays; the input array
    both scans read holds its own indices [0, 1, .., N-1]. *)
Theorem TestScanBlock_ignores_generator (rng : Type) (rand : rng → Z * rng)
    (pfnScanCPU : nat → nat → nat → Z → list Z → result (list Z))
    (pfnScanGPU : list Z → list Z → nat → Z → option (list Z))
    (s1 s2 : rng) (junk : nat → Z) (N : nat) (numThreads : Z) :
  (Z.of_nat N < 2 ^ 31)%Z →
  TestScanBlock rng rand pfnScanCPU pfnScanGPU s1 junk N numThreads
  = TestScanBlock rng rand pfnScanCPU pfnScanGPU s2 junk N numThreads
  ∧ TestScanBlock_input rng rand s1 junk N = TestScanBlock_input rng rand s2 junk N
  ∧ ∃ m, TestScanBlock_input rng rand s1 junk N = Ok m ∧
         ∀ i, i < N → m !! i = Some (Z.of_nat i).
Proof.
  intros HN. split; [|split].
  - unfold TestScanBlock. rewrite !TestScanBlock_input_eq by exact HN. reflexivity.
  - rewrite !TestScanBlock_input_eq by exact HN. reflexivity.
  - eexists. split; [apply TestScanBlock_input_eq, HN|].
    intros i Hi.
    rewrite lookup_app_l by (rewrite length_fmap, length_seq; exact Hi).
    rewrite list_lookup_fmap, lookup_seq_lt by exact Hi. reflexivity.
Qed.

Lemma TestScanBlock_ignores_generator_witness :
  TestScanBlock nat (λ s, (Z.of_nat s * 7919, S s)%Z)
    (ScanCPUBlock Inclusive) (λ out _ _ _, Some out) 3 (λ _, 0%Z) 4 256%Z
  = TestScanBlock nat (λ s, (Z.of_nat s * 7919, S s)%Z)
      (ScanCPUBlock Inclusive) (λ out _ _ _, Some out) 5 (λ _, 0%Z) 4 256%Z
  ∧ ∃ m, TestScanBlock_input nat (λ s, (Z.of_nat s * 7919, S s)%Z) 3 (λ _, 0%Z) 4
         = Ok m ∧ m !! 2 = Some 2%Z.
Proof.
  destruct (TestScanBlock_ignores_generator nat (λ s, (Z.of_nat s * 7919, S s)%Z)
              (ScanCPUBlock Inclusive) (λ out _ _ _, Some out)
              3 5 (λ _, 0%Z) 4 256%Z) as (Hsame & _ & m & Hm & Hidx);
    [vm_compute; reflexivity|].
  split; [exact Hsame|].
  exists m. split; [exact Hm|]. apply (Hidx 2). lia.
Defined.

(** ** [ScanCPUBlock] *)

(** For the thread counts the [switch] lists, [ScanCPUBlock] is the periodic
    scan with that period. *)
Lemma ScanCPUBlock_periodic scantype (B n inp out : nat) (m : list Z) :
  B = 256 ∨ B = 512 ∨ B = 1024 →
  inp + n * B ≤ length m →
  out + n * B ≤ length m →
  out ≤ inp ∨ inp + n * B ≤ out →
  ∃ m', ScanCPUBlock scantype out inp (n * B) (Z.of_nat B) m = Ok m' ∧
        periodic_scan scantype B (cell m inp) out (n * B) m'.
Proof.
  intros HB Hfit Hout Halias.
  assert (Hin : ∀ k, k < n * B → m !! (inp + k) = Some (cell m inp k))
    by (intros k Hk; apply (cell_lookup m inp (n * B)); assumption).
  assert (Hrun : ScanCPUBlock scantype out inp (n * B) (Z.of_nat B) m
                 = match scantype with
                   | Exclusive => ScanExclusiveCPUPeriodic B out inp (n * B) m
                   | Inclusive => ScanInclusiveCPUPeriodic B out inp (n * B) m
                   end).
  { unfold ScanCPUBlock. destruct HB as [-> | [-> | ->]].
    - rewrite decide_True by reflexivity. reflexivity.
    - rewrite decide_False, decide_True by (reflexivity || discriminate). reflexivity.
    - rewrite !decide_False, decide_True by (reflexivity || discriminate). reflexivity. }
  rewrite Hrun. destruct scantype.
  - destruct (ScanInclusiveCPUPeriodic_scanned (cell m inp) B n out inp m
                Halias Hin Hout) as (m' & Hrun' & Hsc).
    exists m'. split; [exact Hrun' | exact (scanned_periodic Inclusive _ _ _ _ _ _ Hsc)].
  - destruct (ScanExclusiveCPUPeriodic_scanned (cell m inp) B n out inp m
                Halias Hin Hout) as (m' & Hrun' & Hsc).
    exists m'. split; [exact Hrun' | exact (scanned_periodic Exclusive _ _ _ _ _ _ Hsc)].
Qed.

(** C3 (the code departs from the claim at 128 threads).  [ScanCPUBlock]
    has no case for [numThreads = 128]: it returns without a single store,
    whatever the scan type and the buffers.  With 128 ones as input the
    output buffer is left as it was and is not the scan of the input. *)
Theorem ScanCPUBlock_128_writes_nothing :
  (∀ scantype out inp N m, ScanCPUBlock scantype out inp N 128%Z m = Ok m)
  ∧ (let m := repeat 1%Z 128 ++ repeat 0%Z 128 in
     ScanCPUBlock Inclusive 128 0 128 128%Z m = Ok m
     ∧ ¬ periodic_scan Inclusive 128 (cell m 0) 128 128 m)
  ∧ (let m := repeat 1%Z 128 ++ repeat 7%Z 128 in
     ScanCPUBlock Exclusive 128 0 128 128%Z m = Ok m
     ∧ ¬ periodic_scan Exclusive 128 (cell m 0) 128 128 m).
Proof.
  split; [|split].
  - intros scantype out inp N m. reflexivity.
  - split; [reflexivity|]. intros H.
    specialize (H 0 0 ltac:(lia) ltac:(lia)). vm_compute in H. discriminate H.
  - split; [reflexivity|]. intros H.
    specialize (H 0 0 ltac:(lia) ltac:(lia)). vm_compute in H. discriminate H.
Qed.

(** ** The warp scan *)

Lemma lookup_total_Some (s : list Z) i v : s !! i = Some v → s !!! i = v.
Proof. intros H. apply list_lookup_total_correct, H. Qed.

Lemma mod_sub_lane tid d W :
  0 < W → d ≤ tid mod W → (tid - d) mod W = tid mod W - d.
Proof.
  intros HW Hd. symmetry. apply (Nat.mod_unique (tid - d) W (tid / W)).
  - pose proof (Nat.mod_upper_bound tid W). lia.
  - pose proof (Nat.div_mod_eq tid W). lia.
Qed.

Lemma div_sub_lane tid W : 0 < W → tid - tid mod W = tid / W * W.
Proof. intros HW. pose proof (Nat.div_mod_eq tid W). lia. Qed.

Lemma scanWarp_step_length d s : length (scanWarp_step d s) = length s.
Proof. unfold scanWarp_step. apply length_imap. Qed.

Lemma scanWarp_step_windowed x d s :
  1 ≤ d → windowed x d s → windowed x (2 * d) (scanWarp_step d s).
Proof.
  intros Hd Hw tid Htid. rewrite scanWarp_step_length in Htid.
  unfold scanWarp_step. rewrite list_lookup_imap, (Hw tid Htid).
  unfold fmap, option_fmap, option_map. cbn beta iota. f_equal.
  pose proof (Nat.Div0.mod_le tid warpSize) as Hle.
  destruct (decide (d ≤ tid mod warpSize)) as [Hge|Hlt].
  - rewrite (lookup_total_Some s (tid - d) _ (Hw (tid - d) ltac:(lia))).
    rewrite add32_wrap. f_equal.
    rewrite (mod_sub_lane tid d warpSize) by (unfold warpSize; lia || exact Hge).
    set (lane := tid mod warpSize) in *.
    replace (min lane (d - 1)) with (d - 1) by lia.
    replace (S (min lane (2 * d - 1)))
      with (S (min (lane - d) (d - 1)) + S (d - 1)) by lia.
    rewrite rsum_app.
    replace (tid - min lane (2 * d - 1))
      with (tid - d - min (lane - d) (d - 1)) by lia.
    replace (tid - d - min (lane - d) (d - 1) + S (min (lane - d) (d - 1)))
      with (tid - (d - 1)) by lia.
    lia.
  - set (lane := tid mod warpSize) in *.
    replace (min lane (2 * d - 1)) with (min lane (d - 1)) by lia.
    reflexivity.
Qed.

Lemma scanWarp_steps_length steps : ∀ d s,
  length (scanWarp_steps steps d s) = length s.
Proof.
  induction steps as [|steps IH]; intros d s; simpl; [reflexivity|].
  rewrite IH. apply scanWarp_step_length.
Qed.

Lemma scanWarp_steps_windowed x steps : ∀ d s,
  1 ≤ d → windowed x d s → windowed x (2 ^ steps * d) (scanWarp_steps steps d s).
Proof.
  induction steps as [|steps IH]; intros d s Hd Hw.
  - simpl. rewrite Nat.add_0_r. exact Hw.
  - change (scanWarp_steps (S steps) d s)
      with (scanWarp_steps steps (2 * d) (scanWarp_step d s)).
    replace (2 ^ S steps * d) with (2 ^ steps * (2 * d))
      by (rewrite Nat.pow_succ_r'; lia).
    apply IH; [lia | apply scanWarp_step_windowed; assumption].
Qed.

(** The lanes of [s] hold the 32-bit values of [x]. *)
Lemma windowed_start x s : holds x s → windowed x 1 s.
Proof.
  intros H tid Htid. rewrite (H tid Htid). simpl.
  rewrite Nat.min_0_r, Nat.sub_0_r. simpl. do 2 f_equal. lia.
Qed.

(** After [steps] steps a lane below [2 ^ steps] in its group holds the
    inclusive scan of its group. *)
Lemma scanWarp_steps_inclusive x steps s tid :
  holds x s →
  tid < length s → tid mod warpSize < 2 ^ steps →
  scanWarp_steps steps 1 s !! tid
  = Some (wrap32 (rsum x (tid - tid mod warpSize) (S (tid mod warpSize)))).
Proof.
  intros Hs Htid Hlane.
  pose proof (scanWarp_steps_windowed x steps 1 s ltac:(lia) (windowed_start x s Hs))
    as Hw.
  rewrite (Hw tid) by (rewrite scanWarp_steps_length; exact Htid).
  replace (min (tid mod warpSize) (2 ^ steps * 1 - 1)) with (tid mod warpSize) by lia.
  reflexivity.
Qed.

Lemma scanWarp_inclusive x s tid :
  holds x s →
  tid < length s →
  scanWarp s !! tid
  = Some (wrap32 (rsum x (tid - tid mod warpSize) (S (tid mod warpSize)))).
Proof.
  intros Hs Htid. apply scanWarp_steps_inclusive; [exact Hs | exact Htid |].
  unfold warpSize, logWarpSize. simpl. lia.
Qed.

(** The exchange steps compute what the shared-memory steps compute. *)
Lemma scan_warp_shfl_step_eq d regs :
  scan_warp_shfl_step d regs = scanWarp_step d regs.
Proof.
  unfold scan_warp_shfl_step, scanWarp_step, shfl_up.
  apply imap_ext. intros tid v _. cbv beta zeta.
  destruct (decide (d ≤ tid mod warpSize)); reflexivity.
Qed.

Lemma scan_warp_shfl_steps_eq steps : ∀ d regs,
  scan_warp_shfl_steps steps d regs = scanWarp_steps steps d regs.
Proof.
  induction steps as [|steps IH]; intros d regs; simpl; [reflexivity|].
  rewrite scan_warp_shfl_step_eq. apply IH.
Qed.

(** ** The block scan *)

Lemma wrap32_sub a b : wrap32 (wrap32 a - wrap32 b) = wrap32 (a - b).
Proof.
  rewrite wrap32_sub_l. unfold Z.sub.
  replace (a + - wrap32 b)%Z with (- wrap32 b + a)%Z by lia.
  replace (a + - b)%Z with (- b + a)%Z by lia.
  unfold wrap32. f_equal.
  rewrite <- !Z.add_assoc.
  rewrite <- (Zplus_mod_idemp_l (- ((b + 2 ^ 31) mod 2 ^ 32 - 2 ^ 31))).
  rewrite <- (Zplus_mod_idemp_l (- b)). f_equal. f_equal.
  replace (- ((b + 2 ^ 31) mod 2 ^ 32 - 2 ^ 31))%Z
    with (2 ^ 31 - (b + 2 ^ 31) mod 2 ^ 32)%Z by lia.
  rewrite Zminus_mod_idemp_r. f_equal. lia.
Qed.

Lemma sub32_wrap a b : sub32 (wrap32 a) (wrap32 b) = wrap32 (a - b).
Proof. apply wrap32_sub. Qed.

Lemma scanWarp_length s : length (scanWarp s) = length s.
Proof. apply scanWarp_steps_length. Qed.

Lemma warp_totals_length s : length (warp_totals s) = length s / warpSize.
Proof. unfold warp_totals. rewrite length_fmap, length_seq. reflexivity. Qed.

Lemma full_warp_fits n w : w < n / warpSize → w * warpSize + (warpSize - 1) < n.
Proof.
  intros Hw. pose proof (Nat.div_mod_eq n warpSize) as Hn.
  pose proof (Nat.mul_le_mono_l (S w) (n / warpSize) warpSize Hw).
  unfold warpSize in *. lia.
Qed.

Lemma last_lane w : (w * warpSize + (warpSize - 1)) mod warpSize = warpSize - 1.
Proof.
  rewrite Nat.add_comm, Nat.Div0.mod_add. apply Nat.mod_small.
  unfold warpSize. lia.
Qed.

Lemma rsum_groups x w : rsum (group_total x) 0 w = rsum x 0 (w * warpSize).
Proof.
  induction w as [|w IH]; [reflexivity|].
  rewrite rsum_snoc, IH. unfold group_total.
  replace (S w * warpSize) with (w * warpSize + warpSize) by lia.
  rewrite rsum_app. reflexivity.
Qed.

(** Steps 1 and 2: the auxiliary buffer holds the group totals. *)
Lemma warp_totals_holds x s :
  holds x s → holds (group_total x) (warp_totals (scanWarp s)).
Proof.
  intros Hs w Hw. rewrite warp_totals_length, scanWarp_length in Hw.
  unfold warp_totals.
  rewrite list_lookup_fmap, scanWarp_length, lookup_seq_lt by exact Hw.
  unfold fmap, option_fmap, option_map. cbn beta iota. f_equal.
  change (0 + w) with w.
  pose proof (full_warp_fits (length s) w Hw) as Hfit.
  rewrite (lookup_total_Some _ _ _ (scanWarp_inclusive x s _ Hs Hfit)).
  rewrite last_lane. unfold group_total. f_equal.
  replace (w * warpSize + (warpSize - 1) - (warpSize - 1)) with (w * warpSize) by lia.
  f_equal.
Qed.

(** Step 3 on the shared-memory path: the carry-in of group [w]. *)
Lemma carry_in_shared x s w :
  holds x s → w ≤ length s / warpSize → w < warpSize →
  exclusive_of_left (scanWarp (warp_totals (scanWarp s))) w
  = wrap32 (rsum x 0 (w * warpSize)).
Proof.
  intros Hs Hw Hlt. unfold exclusive_of_left.
  rewrite (Nat.mod_small w warpSize Hlt).
  destruct (decide (w = 0)) as [->|Hpos]; [reflexivity|].
  rewrite (lookup_total_Some _ _ _
             (scanWarp_inclusive (group_total x) _ (w - 1) (warp_totals_holds x s Hs)
                ltac:(rewrite warp_totals_length, scanWarp_length; lia))).
  rewrite (Nat.mod_small (w - 1) warpSize) by lia.
  replace (w - 1 - (w - 1)) with 0 by lia.
  replace (S (w - 1)) with w by lia.
  rewrite rsum_groups. reflexivity.
Qed.

(** Step 3 on the shuffle path. *)
Lemma carry_in_shfl_lookup x s logBlockSize w :
  holds x s →
  length s / warpSize ≤ 2 ^ (logBlockSize - logWarpSize) →
  length s / warpSize ≤ warpSize →
  w < length s / warpSize →
  carry_in_shfl logBlockSize (scanWarp s) !! w
  = Some (wrap32 (rsum x 0 (w * warpSize))).
Proof.
  intros Hs Hpow Hle Hw. unfold carry_in_shfl, exclusive_scan_warp_shfl.
  pose proof (warp_totals_holds x s Hs) as Ht.
  assert (Hwt : w < length (warp_totals (scanWarp s)))
    by (rewrite warp_totals_length, scanWarp_length; exact Hw).
  rewrite list_lookup_imap, (Ht w Hwt).
  unfold fmap, option_fmap, option_map. cbn beta iota. f_equal.
  unfold inclusive_scan_warp_shfl. rewrite scan_warp_shfl_steps_eq.
  assert (Hlane : w mod warpSize < 2 ^ (logBlockSize - logWarpSize))
    by (rewrite Nat.mod_small by lia; lia).
  rewrite (lookup_total_Some _ _ _
             (scanWarp_steps_inclusive (group_total x) _ _ w Ht Hwt Hlane)).
  rewrite (Nat.mod_small w warpSize) by lia.
  rewrite Nat.sub_diag, sub32_wrap, rsum_snoc. simpl (0 + w).
  rewrite <- rsum_groups. f_equal. lia.
Qed.

(** Step 4: the scan of the group and the carry-in of the group give the
    scan of the block. *)
Lemma add_carry_in x tid :
  add32 (wrap32 (rsum x (tid - tid mod warpSize) (S (tid mod warpSize))))
        (wrap32 (rsum x 0 (tid / warpSize * warpSize)))
  = wrap32 (rsum x 0 (S tid)).
Proof.
  rewrite add32_wrap. f_equal.
  rewrite (div_sub_lane tid warpSize) by (unfold warpSize; lia).
  pose proof (Nat.div_mod_eq tid warpSize) as Htid.
  replace (S tid) with (tid / warpSize * warpSize + S (tid mod warpSize)) by lia.
  rewrite rsum_app. rewrite Nat.add_0_l. lia.
Qed.

Lemma add_carry_in_exclusive x tid :
  add32 (sub32 (wrap32 (rsum x (tid - tid mod warpSize) (S (tid mod warpSize))))
               (wrap32 (x tid)))
        (wrap32 (rsum x 0 (tid / warpSize * warpSize)))
  = wrap32 (rsum x 0 tid).
Proof.
  rewrite sub32_wrap, add32_wrap. f_equal.
  rewrite (div_sub_lane tid warpSize) by (unfold warpSize; lia).
  pose proof (Nat.div_mod_eq tid warpSize) as Htid.
  assert (E : rsum x 0 tid
              = rsum x 0 (tid / warpSize * warpSize + tid mod warpSize))
    by (f_equal; lia).
  rewrite E, rsum_app, rsum_snoc. rewrite Nat.add_0_l.
  replace (tid / warpSize * warpSize + tid mod warpSize) with tid by lia. lia.
Qed.

(** ** The block scans compute the scan of the block *)

Lemma scan_list_length scantype x B : length (scan_list scantype x B) = B.
Proof. unfold scan_list. rewrite length_fmap, length_seq. reflexivity. Qed.

Lemma scan_list_lookup scantype x B tid :
  tid < B → scan_list scantype x B !! tid = Some (scan_value scantype x 0 tid).
Proof.
  intros Htid. unfold scan_list.
  rewrite list_lookup_fmap, lookup_seq_lt by exact Htid. reflexivity.
Qed.

(** Two lists of the same length with the same cells. *)
Lemma list_eq_lookup (l1 l2 : list Z) :
  length l1 = length l2 →
  (∀ i, i < length l1 → l1 !! i = l2 !! i) → l1 = l2.
Proof.
  intros Hlen H. apply list_eq. intros i.
  destruct (decide (i < length l1)) as [Hi|Hi]; [apply H, Hi|].
  rewrite !lookup_ge_None_2 by lia. reflexivity.
Qed.

Lemma group_index_bound tid n :
  tid < n → n ≤ warpSize * warpSize →
  tid / warpSize ≤ n / warpSize ∧ tid / warpSize < warpSize.
Proof.
  intros Htid Hn. split.
  - apply Nat.Div0.div_le_mono. lia.
  - apply Nat.Div0.div_lt_upper_bound. lia.
Qed.

Lemma scanBlock_scan x s :
  holds x s → length s ≤ warpSize * warpSize →
  scanBlock s = (scan_list Inclusive x (length s), scan_list Inclusive x (length s)).
Proof.
  intros Hs Hlen. unfold scanBlock.
  assert (E : imap (λ tid v, add32 v (exclusive_of_left
                       (scanWarp (warp_totals (scanWarp s))) (tid / warpSize)))
                   (scanWarp s)
              = scan_list Inclusive x (length s)).
  { apply list_eq_lookup.
    - rewrite length_imap, scanWarp_length, scan_list_length. reflexivity.
    - intros tid Htid. rewrite length_imap, scanWarp_length in Htid.
      destruct (group_index_bound tid (length s) Htid Hlen) as [Hw Hw'].
      rewrite list_lookup_imap, (scanWarp_inclusive x s tid Hs Htid).
      unfold fmap, option_fmap, option_map. cbn beta iota.
      rewrite (carry_in_shared x s _ Hs Hw Hw'), add_carry_in.
      rewrite scan_list_lookup by exact Htid. reflexivity. }
  rewrite E. reflexivity.
Qed.

(** The exclusive values the kernel [ScanGPUBlock] takes from the slot to
    the left once the inclusive scan is in the shared buffer. *)
Lemma left_neighbour_scan x B (myValue : list Z) :
  length myValue = B →
  imap (λ tid _, if decide (tid = 0) then 0%Z
                 else scan_list Inclusive x B !!! (tid - 1)) myValue
  = scan_list Exclusive x B.
Proof.
  intros Hlen. apply list_eq_lookup.
  - rewrite length_imap, scan_list_length. exact Hlen.
  - intros tid Htid. rewrite length_imap, Hlen in Htid.
    rewrite list_lookup_imap.
    destruct (lookup_lt_is_Some_2 myValue tid ltac:(lia)) as [v ->].
    unfold fmap, option_fmap, option_map. cbn beta iota.
    rewrite scan_list_lookup by exact Htid. f_equal.
    destruct (decide (tid = 0)) as [->|Hpos]; [reflexivity|].
    rewrite (lookup_total_Some _ _ _ (scan_list_lookup Inclusive x B (tid - 1) ltac:(lia))).
    unfold scan_value. replace (S (tid - 1)) with tid by lia. reflexivity.
Qed.

Section ShuffleBlock.
Variables (x : nat → Z) (s : list Z) (logBlockSize : nat).
Hypothesis Hs : holds x s.
Hypothesis Hlen : length s = 2 ^ logBlockSize.
Hypothesis Hlog : logWarpSize ≤ logBlockSize ≤ 2 * logWarpSize.

Lemma shuffle_groups :
  length s / warpSize = 2 ^ (logBlockSize - logWarpSize) ∧
  length s / warpSize ≤ warpSize ∧
  length s = length s / warpSize * warpSize.
Proof.
  assert (E : length s = 2 ^ (logBlockSize - logWarpSize) * warpSize).
  { rewrite Hlen. change warpSize with (2 ^ logWarpSize).
    rewrite <- Nat.pow_add_r. f_equal. lia. }
  assert (E' : length s / warpSize = 2 ^ (logBlockSize - logWarpSize)).
  { rewrite E. apply Nat.div_mul. unfold warpSize. lia. }
  split; [exact E'|]. split; [|rewrite E'; exact E].
  rewrite E'. change warpSize with (2 ^ logWarpSize).
  apply Nat.pow_le_mono_r; lia.
Qed.

Lemma shuffle_group_index tid : tid < length s → tid / warpSize < length s / warpSize.
Proof.
  intros Htid. destruct shuffle_groups as (_ & _ & E).
  apply Nat.Div0.div_lt_upper_bound. lia.
Qed.

Lemma inclusive_scan_block_scan :
  inclusive_scan_block logBlockSize s = scan_list Inclusive x (length s).
Proof.
  destruct shuffle_groups as (Epow & Hle & _).
  unfold inclusive_scan_block, inclusive_scan_warp_shfl.
  rewrite scan_warp_shfl_steps_eq. fold (scanWarp s).
  apply list_eq_lookup.
  - rewrite length_imap, scanWarp_length, scan_list_length. reflexivity.
  - intros tid Htid. rewrite length_imap, scanWarp_length in Htid.
    rewrite list_lookup_imap, (scanWarp_inclusive x s tid Hs Htid).
    unfold fmap, option_fmap, option_map. cbn beta iota.
    rewrite (lookup_total_Some _ _ _
               (carry_in_shfl_lookup x s logBlockSize _ Hs ltac:(lia) Hle
                  (shuffle_group_index tid Htid))).
    rewrite add_carry_in, scan_list_lookup by exact Htid. reflexivity.
Qed.

Lemma exclusive_scan_block_scan :
  exclusive_scan_block logBlockSize s = scan_list Exclusive x (length s).
Proof.
  destruct shuffle_groups as (Epow & Hle & _).
  unfold exclusive_scan_block, exclusive_scan_warp_shfl at 1, inclusive_scan_warp_shfl.
  rewrite scan_warp_shfl_steps_eq. fold (scanWarp s).
  apply list_eq_lookup.
  - rewrite !length_imap, scan_list_length. reflexivity.
  - intros tid Htid. rewrite !length_imap in Htid.
    rewrite !list_lookup_imap, (Hs tid Htid).
    unfold fmap, option_fmap, option_map. cbn beta iota.
    rewrite (lookup_total_Some _ _ _ (scanWarp_inclusive x s tid Hs Htid)).
    rewrite (lookup_total_Some _ _ _
               (carry_in_shfl_lookup x s logBlockSize _ Hs ltac:(lia) Hle
                  (shuffle_group_index tid Htid))).
    rewrite add_carry_in_exclusive, scan_list_lookup by exact Htid. reflexivity.
Qed.
End ShuffleBlock.

(** ** The rounds of the two kernels *)

Lemma read_block_holds inp i B s :
  Forall in_range inp → read_block inp i B = Ok s →
  length s = B ∧ holds (cell inp i) s.
Proof.
  intros Hrange Hread. unfold read_block in Hread.
  destruct (decide (i + B ≤ length inp)) as [Hfit|]; [|discriminate].
  injection Hread as <-.
  assert (Hlen : length (take B (drop i inp)) = B)
    by (rewrite length_take, length_drop; lia).
  split; [exact Hlen|].
  intros tid Htid. rewrite Hlen in Htid.
  rewrite lookup_take_lt, lookup_drop by exact Htid.
  unfold cell.
  destruct (lookup_lt_is_Some_2 inp (i + tid) ltac:(lia)) as [v Hv].
  rewrite Hv. simpl. f_equal. symmetry. apply wrap32_small.
  exact (Forall_lookup_1 _ _ _ _ Hrange Hv).
Qed.

Lemma ScanGPUBlock_values_scan scantype x s :
  holds x s → length s ≤ warpSize * warpSize →
  ScanGPUBlock_values scantype s = scan_list scantype x (length s).
Proof.
  intros Hs Hlen. unfold ScanGPUBlock_values.
  rewrite (scanBlock_scan x s Hs Hlen).
  destruct scantype; [reflexivity|].
  apply left_neighbour_scan, scan_list_length.
Qed.

Lemma ScanGPUBlock_overtaken_length ahead scantype next v :
  length (ScanGPUBlock_overtaken ahead scantype next v) = length v.
Proof. destruct scantype; [reflexivity | apply length_imap]. Qed.

(** The loads are not overtaken in an inclusive scan, which has none, on
    warps that are not ahead, and in the last round of a block. *)
Lemma ScanGPUBlock_overtaken_quiet ahead scantype next v :
  scantype = Inclusive ∨ (∀ tid, ahead tid = false) ∨ (∀ tid, next tid = None) →
  ScanGPUBlock_overtaken ahead scantype next v = v.
Proof.
  intros H. destruct scantype; [reflexivity|]. unfold ScanGPUBlock_overtaken.
  apply list_eq. intros tid. rewrite list_lookup_imap.
  destruct (v !! tid) as [x|]; [|reflexivity].
  unfold fmap, option_fmap, option_map. cbn beta iota. f_equal.
  destruct H as [H | [H | H]]; [discriminate H | |].
  - rewrite H, andb_false_r. reflexivity.
  - rewrite H. destruct (_ && _); reflexivity.
Qed.

Lemma next_input_last B N inp i : ¬ i + B < N → ∀ tid, next_input B N inp i tid = None.
Proof. intros Hlast tid. unfold next_input. rewrite decide_False by exact Hlast. reflexivity. Qed.

Lemma ScanGPUBlock_round_scan ahead scantype B N i inp out :
  Forall in_range inp → B ≤ warpSize * warpSize →
  scantype = Inclusive ∨ (∀ tid, ahead i tid = false) ∨ ¬ i + B < N →
  ScanGPUBlock_round ahead scantype B N i inp out = scan_round scantype B i inp out.
Proof.
  intros Hrange HB Hquiet. unfold ScanGPUBlock_round, scan_round.
  destruct (read_block inp i B) as [s| |] eqn:Hread; [|reflexivity..].
  destruct (read_block_holds inp i B s Hrange Hread) as [Hlen Hs].
  run_bind. rewrite (ScanGPUBlock_values_scan scantype (cell inp i) s Hs) by lia.
  rewrite Hlen, ScanGPUBlock_overtaken_quiet; [reflexivity|].
  destruct Hquiet as [H | [H | H]]; [left; exact H | right; left; exact H |].
  right. right. apply next_input_last, H.
Qed.

Lemma ScanGPUBlockShuffle_round_scan scantype logBlockSize B i inp out :
  Forall in_range inp → B = 2 ^ logBlockSize →
  logWarpSize ≤ logBlockSize ≤ 2 * logWarpSize →
  ScanGPUBlockShuffle_round scantype logBlockSize B i inp out
  = scan_round scantype B i inp out.
Proof.
  intros Hrange HB Hlog. unfold ScanGPUBlockShuffle_round, scan_round.
  destruct (read_block inp i B) as [s| |] eqn:Hread; [|reflexivity..].
  destruct (read_block_holds inp i B s Hrange Hread) as [Hlen Hs].
  run_bind. destruct scantype.
  - rewrite (inclusive_scan_block_scan (cell inp i) s logBlockSize Hs) by lia.
    rewrite Hlen. reflexivity.
  - rewrite (exclusive_scan_block_scan (cell inp i) s logBlockSize Hs) by lia.
    rewrite Hlen. reflexivity.
Qed.

Lemma block_size_bound logBlockSize :
  logBlockSize ≤ 2 * logWarpSize → 2 ^ logBlockSize ≤ warpSize * warpSize.
Proof.
  intros Hlog. change (warpSize * warpSize) with (2 ^ (2 * logWarpSize)).
  apply Nat.pow_le_mono_r; lia.
Qed.

(** Where no load is overtaken, the loops of the two kernels do the
    same. *)
Lemma loops_agree ahead scantype logBlockSize B N inp :
  Forall in_range inp → B = 2 ^ logBlockSize →
  logWarpSize ≤ logBlockSize ≤ 2 * logWarpSize →
  scantype = Inclusive ∨ (∀ i tid, ahead i tid = false) →
  ∀ fuel i out,
    ScanGPUBlock_loop fuel ahead scantype B N i inp out
    = ScanGPUBlockShuffle_loop fuel scantype logBlockSize B N i inp out.
Proof.
  intros Hrange HB Hlog Hquiet.
  pose proof (block_size_bound logBlockSize ltac:(lia)) as Hbound.
  induction fuel as [|fuel IH]; intros i out; simpl;
    destruct (decide (i < N)); try reflexivity.
  rewrite ScanGPUBlock_round_scan
    by (assumption || lia || (destruct Hquiet as [H|H];
                                [left; exact H | right; left; apply H])).
  rewrite (ScanGPUBlockShuffle_round_scan scantype logBlockSize) by assumption.
  destruct (scan_round scantype B i inp out); [|reflexivity..].
  run_bind. apply IH.
Qed.

Lemma run_grid_ext (k1 k2 : nat → list Z → result (list Z)) blocks :
  (∀ b out, k1 b out = k2 b out) →
  ∀ out, run_grid k1 blocks out = run_grid k2 blocks out.
Proof.
  intros Hk. induction blocks as [|b blocks IH]; intros out; simpl; [reflexivity|].
  rewrite Hk. destruct (k2 b out); [|reflexivity..]. run_bind. apply IH.
Qed.

Lemma launch_ext dev (k1 k2 : nat → nat → list Z → result (list Z))
    cBlocks cThreads out :
  (∀ b out, k1 b (Z.to_nat cThreads) out = k2 b (Z.to_nat cThreads) out) →
  launch dev k1 cBlocks cThreads out = launch dev k2 cBlocks cThreads out.
Proof.
  intros Hk. unfold launch. destruct (decide _); [|reflexivity].
  f_equal. apply run_grid_ext. exact Hk.
Qed.

(** For 128, 256, 512 and 1024 threads the driver [ScanGPUBlockShuffle]
    does what the kernel [ScanGPUBlock] does on warps that run abreast. *)
Lemma ScanGPUBlockShuffle_abreast (dev : device) (scantype : ScanType)
    (out inp : list Z) (N : nat) (cThreads : Z) :
  cThreads = 128%Z ∨ cThreads = 256%Z ∨ cThreads = 512%Z ∨ cThreads = 1024%Z →
  Forall in_range inp →
  ScanGPUBlockShuffle dev scantype out inp N cThreads
  = launch dev (ScanGPUBlock_kernel (λ _ _, false) scantype inp N)
           (cBlocks_of N) cThreads out.
Proof.
  intros HB Hrange. unfold ScanGPUBlockShuffle.
  destruct HB as [-> | [-> | [-> | ->]]].
  - rewrite decide_True by reflexivity.
    apply launch_ext. intros b o. unfold ScanGPUBlock_kernel, ScanGPUBlockShuffle_kernel.
    symmetry. apply loops_agree;
      [exact Hrange | reflexivity | unfold logWarpSize; lia | right; reflexivity].
  - rewrite decide_False, decide_True by (reflexivity || discriminate).
    apply launch_ext. intros b o. unfold ScanGPUBlock_kernel, ScanGPUBlockShuffle_kernel.
    symmetry. apply loops_agree;
      [exact Hrange | reflexivity | unfold logWarpSize; lia | right; reflexivity].
  - rewrite !decide_False, decide_True by (reflexivity || discriminate).
    apply launch_ext. intros b o. unfold ScanGPUBlock_kernel, ScanGPUBlockShuffle_kernel.
    symmetry. apply loops_agree;
      [exact Hrange | reflexivity | unfold logWarpSize; lia | right; reflexivity].
  - rewrite !decide_False, decide_True by (reflexivity || discriminate).
    apply launch_ext. intros b o. unfold ScanGPUBlock_kernel, ScanGPUBlockShuffle_kernel.
    symmetry. apply loops_agree;
      [exact Hrange | reflexivity | unfold logWarpSize; lia | right; reflexivity].
Qed.

(** Where no load can be overtaken, in the inclusive scan and on a device
    whose warps are never ahead, the two drivers have the same outcome and
    leave the same output array, for every length and all buffers. *)
Lemma paths_agree_without_overtaking (dev : device) (scantype : ScanType)
    (out inp : list Z) (N : nat) (cThreads : Z) :
  cThreads = 128%Z ∨ cThreads = 256%Z ∨ cThreads = 512%Z ∨ cThreads = 1024%Z →
  Forall in_range inp →
  scantype = Inclusive ∨ (∀ i tid, overtakes dev i tid = false) →
  ScanGPUBlock dev scantype out inp N cThreads
  = ScanGPUBlockShuffle dev scantype out inp N cThreads.
Proof.
  intros HB Hrange Hquiet.
  rewrite (ScanGPUBlockShuffle_abreast dev scantype out inp N cThreads HB Hrange).
  unfold ScanGPUBlock. apply launch_ext. intros b o. unfold ScanGPUBlock_kernel.
  assert (Hlog : ∃ logBlockSize, Z.to_nat cThreads = 2 ^ logBlockSize
                                 ∧ logWarpSize ≤ logBlockSize ≤ 2 * logWarpSize).
  { destruct HB as [-> | [-> | [-> | ->]]];
      [exists 7 | exists 8 | exists 9 | exists 10];
      (split; [reflexivity | unfold logWarpSize; lia]). }
  destruct Hlog as (logBlockSize & Hpow & Hlog).
  rewrite (loops_agree (overtakes dev) scantype logBlockSize _ N inp
             Hrange Hpow Hlog Hquiet).
  rewrite (loops_agree (λ _ _, false) scantype logBlockSize _ N inp
             Hrange Hpow Hlog ltac:(right; reflexivity)).
  reflexivity.
Qed.

(** ** The segmented-scan driver on arrays of 150 elements and more *)

Lemma write_block_lookup out i vs out' :
  write_block out i vs = Ok out' →
  length out' = length out ∧
  ∀ k, out' !! k = if decide (i ≤ k < i + length vs) then vs !! (k - i)
                   else out !! k.
Proof.
  unfold write_block. destruct (decide (i + length vs ≤ length out)) as [Hfit|];
    [|discriminate].
  intros [= <-]. split.
  - rewrite !length_app, length_take, length_drop. lia.
  - intros k. destruct (decide (i ≤ k < i + length vs)) as [Hin|Hout].
    + rewrite lookup_app_r by (rewrite length_take; lia).
      rewrite length_take, lookup_app_l by lia. f_equal. lia.
    + destruct (decide (k < i)) as [Hlt|Hge].
      * rewrite lookup_app_l by (rewrite length_take; lia).
        apply lookup_take_lt. exact Hlt.
      * rewrite lookup_app_r by (rewrite length_take; lia).
        rewrite length_take, lookup_app_r by lia.
        rewrite lookup_drop. f_equal. lia.
Qed.

Lemma rsum_cell inp i len : ∀ lo,
  rsum (cell inp i) lo len = rsum (cell inp 0) (i + lo) len.
Proof.
  induction len as [|len IH]; intros lo; [reflexivity|].
  change (rsum (cell inp i) lo (S len))
    with (cell inp i lo + rsum (cell inp i) (S lo) len)%Z.
  change (rsum (cell inp 0) (i + lo) (S len))
    with (cell inp 0 (i + lo) + rsum (cell inp 0) (S (i + lo)) len)%Z.
  rewrite IH. replace (i + S lo) with (S (i + lo)) by lia.
  unfold cell at 1 3. rewrite Nat.add_0_l. reflexivity.
Qed.

Lemma scan_value_cell scantype inp i r :
  scan_value scantype (cell inp i) 0 r = scan_value scantype (cell inp 0) i r.
Proof.
  unfold scan_value. destruct scantype; rewrite rsum_cell, Nat.add_0_r; reflexivity.
Qed.

Lemma segment_index B q k :
  q * B ≤ k < q * B + B → k / B * B = q * B ∧ k mod B = k - q * B.
Proof.
  intros Hk. assert (HB : 0 < B) by lia.
  assert (Hq : k / B = q).
  { symmetry. apply (Nat.div_unique k B q (k - q * B)); lia. }
  pose proof (Nat.div_mod_eq k B). rewrite Hq in *. lia.
Qed.

Lemma ScanGPUBlock_round_lookup ahead scantype B N i inp out :
  Forall in_range inp → B ≤ warpSize * warpSize →
  i + B ≤ length inp → i + B ≤ length out →
  ∃ out', ScanGPUBlock_round ahead scantype B N i inp out = Ok out' ∧
    length out' = length out ∧
    ∀ k, out' !! k = if decide (i ≤ k < i + B)
                     then Some (ScanGPUBlock_cell ahead scantype B N inp i (k - i))
                     else out !! k.
Proof.
  intros Hrange HB Hin Hout. unfold ScanGPUBlock_round.
  destruct (read_block inp i B) as [s| |] eqn:Hread;
    [| exfalso; unfold read_block in Hread;
       rewrite decide_True in Hread by exact Hin; discriminate Hread..].
  destruct (read_block_holds inp i B s Hrange Hread) as [Hlen Hs].
  run_bind. rewrite (ScanGPUBlock_values_scan scantype (cell inp i) s Hs) by lia.
  rewrite Hlen.
  set (vs := ScanGPUBlock_overtaken _ _ _ _).
  assert (Hvs : length vs = B)
    by (unfold vs; rewrite ScanGPUBlock_overtaken_length; apply scan_list_length).
  destruct (write_block out i vs) as [out'| |] eqn:Hw;
    [| exfalso; unfold write_block in Hw; rewrite Hvs in Hw;
       rewrite decide_True in Hw by exact Hout; discriminate Hw..].
  destruct (write_block_lookup _ _ _ _ Hw) as [Hlen' Hlook].
  exists out'. split; [reflexivity|]. split; [exact Hlen'|].
  intros k. rewrite Hlook, Hvs.
  destruct (decide (i ≤ k < i + B)) as [Hk|Hk]; [|reflexivity].
  unfold vs, ScanGPUBlock_overtaken, ScanGPUBlock_cell. cbv zeta.
  destruct scantype.
  - rewrite scan_list_lookup by lia. f_equal. apply scan_value_cell.
  - rewrite list_lookup_imap, scan_list_lookup by lia.
    unfold fmap, option_fmap, option_map. cbn beta iota.
    rewrite scan_value_cell. reflexivity.
Qed.

Section Driver.
Variables (ahead : nat → nat → bool) (scantype : ScanType) (B n : nat) (inp : list Z).
Hypothesis HB : 0 < B.
Hypothesis HBmax : B ≤ warpSize * warpSize.
Hypothesis Hrange : Forall in_range inp.
Hypothesis Hinp : length inp = n * B.

Let val : nat → Z :=
  λ k, ScanGPUBlock_cell ahead scantype B (n * B) inp (k / B * B) (k mod B).

Lemma ScanGPUBlock_loop_good fuel : ∀ q out,
  n - q ≤ fuel → length out = n * B →
  ∃ out', ScanGPUBlock_loop fuel ahead scantype B (n * B) (q * B) inp out = Ok out' ∧
    length out' = n * B ∧
    (∀ k, k < q * B → out' !! k = out !! k) ∧
    (∀ k, q * B ≤ k < n * B → out' !! k = Some (val k)).
Proof.
  induction fuel as [|fuel IH]; intros q out Hfuel Hlen; simpl;
    destruct (decide (q * B < n * B)) as [Hlt|Hge];
    try (exists out; split; [reflexivity|]; split; [exact Hlen|];
         split; [reflexivity | intros k Hk; lia]).
  - exfalso. nia.
  - assert (Hnext : q * B + B ≤ n * B).
    { destruct (decide (q < n)) as [Hqn|Hqn].
      - pose proof (Nat.mul_le_mono_r (S q) n B Hqn). lia.
      - pose proof (Nat.mul_le_mono_r n q B ltac:(lia)). lia. }
    destruct (ScanGPUBlock_round_lookup ahead scantype B (n * B) (q * B) inp out
                Hrange HBmax ltac:(lia) ltac:(lia))
      as (out1 & Hrun & Hlen1 & Hlook1).
    rewrite Hrun. run_bind.
    replace (q * B + B) with (S q * B) by lia.
    destruct (IH (S q) out1 ltac:(lia) ltac:(lia))
      as (out' & Hloop & Hlen' & Hlow & Hhigh).
    exists out'. split; [exact Hloop|]. split; [exact Hlen'|]. split.
    + intros k Hk. rewrite Hlow by lia. rewrite Hlook1.
      rewrite decide_False by lia. reflexivity.
    + intros k Hk. destruct (decide (k < S q * B)) as [Hseg|Hseg].
      * rewrite Hlow by exact Hseg. rewrite Hlook1.
        rewrite decide_True by lia. f_equal. unfold val.
        destruct (segment_index B q k ltac:(lia)) as [-> ->]. reflexivity.
      * apply Hhigh. lia.
Qed.

Lemma ScanGPUBlock_kernel_good b t out :
  good_from val (n * B) t out →
  ∃ out', ScanGPUBlock_kernel ahead scantype inp (n * B) b B out = Ok out' ∧
          good_from val (n * B) (min t (b * B)) out'.
Proof.
  intros [Hlen Hgood]. unfold ScanGPUBlock_kernel.
  destruct (ScanGPUBlock_loop_good (n * B) b out ltac:(nia) Hlen)
    as (out' & Hrun & Hlen' & Hlow & Hhigh).
  exists out'. split; [exact Hrun|]. split; [exact Hlen'|].
  intros k Hk. destruct (decide (b * B ≤ k)) as [Hb|Hb].
  - apply Hhigh. lia.
  - rewrite Hlow by lia. apply Hgood. lia.
Qed.

Lemma run_grid_good blocks : ∀ t out,
  good_from val (n * B) t out →
  ∃ out', run_grid (λ b, ScanGPUBlock_kernel ahead scantype inp (n * B) b B) blocks out
          = Ok out' ∧
    good_from val (n * B) t out' ∧
    (0 ∈ blocks → good_from val (n * B) 0 out').
Proof.
  induction blocks as [|b blocks IH]; intros t out Hgood.
  - exists out. split; [reflexivity|]. split; [exact Hgood|].
    intros H. inversion H.
  - simpl. destruct (ScanGPUBlock_kernel_good b t out Hgood)
      as (out1 & Hrun & Hgood1).
    rewrite Hrun. run_bind.
    destruct (IH (min t (b * B)) out1 Hgood1) as (out' & Hrest & Hgood' & Hzero).
    exists out'. split; [exact Hrest|]. split.
    + destruct Hgood' as [Hlen' Hg]. split; [exact Hlen'|].
      intros k Hk. apply Hg. lia.
    + intros Hin. apply elem_of_cons in Hin as [<-|Hin]; [|apply Hzero, Hin].
      rewrite Nat.mul_0_l, Nat.min_0_r in Hgood'. exact Hgood'.
Qed.
End Driver.

Lemma cBlocks_of_positive N :
  150 ≤ N → (Z.of_nat N / 150 < 2 ^ 31)%Z → (0 < cBlocks_of N)%Z.
Proof.
  intros HN Hint. unfold cBlocks_of.
  assert (1 <= Z.of_nat N / 150)%Z by (apply Z.div_le_lower_bound; lia).
  rewrite wrap32_small by (unfold in_range; lia).
  destruct (decide _); lia.
Qed.

(** What is stored by the kernel at offset [r] of segment [q]: the input
    of the left neighbour for the next segment where an exclusive load
    between two warps was overtaken, the scan of the segment elsewhere. *)
Lemma ScanGPUBlock_cell_at ahead scantype B n inp q r :
  length inp = n * B → r < B → q < n →
  ScanGPUBlock_cell ahead scantype B (n * B) inp (q * B) r
  = if bool_decide (scantype = Exclusive ∧ r ≠ 0 ∧ r mod warpSize = 0 ∧ S q < n)
       && ahead (q * B) r
    then cell inp 0 (S q * B + (r - 1))
    else scan_value scantype (cell inp 0) (q * B) r.
Proof.
  intros Hinp Hr Hq. unfold ScanGPUBlock_cell. cbv zeta.
  destruct scantype.
  - rewrite bool_decide_eq_false_2 by (intros [H _]; discriminate H). reflexivity.
  - destruct (decide (S q < n)) as [Hnext|Hlast].
    + pose proof (Nat.mul_le_mono_r (S (S q)) n B Hnext) as Hfit.
      destruct (decide (r ≠ 0 ∧ r mod warpSize = 0)) as [Hfirst|Hno].
      * rewrite !bool_decide_eq_true_2 by tauto.
        destruct (ahead (q * B) r); [|reflexivity]. cbn [andb].
        unfold next_input. rewrite decide_True by lia.
        unfold cell. rewrite Nat.add_0_l.
        replace (q * B + B + (r - 1)) with (S q * B + (r - 1)) by lia.
        destruct (lookup_lt_is_Some_2 inp (S q * B + (r - 1)) ltac:(lia)) as [x Hx].
        rewrite Hx. reflexivity.
      * rewrite !bool_decide_eq_false_2 by tauto. reflexivity.
    + rewrite (bool_decide_eq_false_2 (_ ∧ _ ∧ _ ∧ _)) by tauto.
      assert (Hn : n * B = q * B + B) by (assert (n = S q) as -> by lia; lia).
      rewrite next_input_last by lia.
      destruct (_ && _); reflexivity.
Qed.

(** With at least 150 elements, a whole number of segments and a block of
    at most 1024 threads that the device accepts, the kernel [ScanGPUBlock]
    runs to the end whatever the order in which the device runs the blocks,
    and leaves in every position the value above. *)
Lemma launch_ScanGPUBlock_cells (dev : device) (ahead : nat → nat → bool)
    (scantype : ScanType) (B n : nat) (inp out : list Z) :
  runs_every_block dev →
  0 < B → B ≤ warpSize * warpSize →
  (Z.of_nat B <= maxThreadsPerBlock dev)%Z →
  150 ≤ n * B → (Z.of_nat (n * B) / 150 < 2 ^ 31)%Z →
  length inp = n * B → length out = n * B →
  Forall in_range inp →
  ∃ out', launch dev (ScanGPUBlock_kernel ahead scantype inp (n * B))
                 (cBlocks_of (n * B)) (Z.of_nat B) out = Ran (Ok out') ∧
    length out' = n * B ∧
    ∀ q r, r < B → q < n →
      out' !! (q * B + r)
      = Some (if bool_decide (scantype = Exclusive ∧ r ≠ 0 ∧ r mod warpSize = 0
                              ∧ S q < n) && ahead (q * B) r
              then cell inp 0 (S q * B + (r - 1))
              else scan_value scantype (cell inp 0) (q * B) r).
Proof.
  intros Hdev HB HBmax Hmax HN Hint Hinp Hout Hrange.
  pose proof (cBlocks_of_positive (n * B) HN Hint) as Hblocks.
  unfold launch. rewrite decide_True by lia.
  rewrite Nat2Z.id.
  destruct (run_grid_good ahead scantype B n inp HB HBmax Hrange Hinp
              (schedule dev (Z.to_nat (cBlocks_of (n * B)))) (n * B) out)
    as (out' & Hrun & _ & Hzero).
  { split; [exact Hout | intros k Hk; lia]. }
  exists out'. split; [rewrite Hrun; reflexivity|].
  destruct Hzero as [Hlen Hgood].
  { rewrite (Hdev _). apply elem_of_seq. lia. }
  split; [exact Hlen|]. intros q r Hr Hq.
  pose proof (Nat.mul_le_mono_r (S q) n B Hq) as Hfit.
  rewrite Hgood by lia. f_equal.
  destruct (segment_index B q (q * B + r) ltac:(lia)) as [-> ->].
  replace (q * B + r - q * B) with r by lia.
  apply ScanGPUBlock_cell_at; assumption.
Qed.

(** The driver [ScanGPUBlock] writes the scan of every segment to the
    positions of that segment when no load is overtaken: in an inclusive
    scan, on a single segment, and on warps that run abreast. *)
Lemma ScanGPUBlock_periodic (dev : device) (scantype : ScanType)
    (B n : nat) (inp out : list Z) :
  runs_every_block dev →
  0 < B → B ≤ warpSize * warpSize →
  (Z.of_nat B <= maxThreadsPerBlock dev)%Z →
  150 ≤ n * B → (Z.of_nat (n * B) / 150 < 2 ^ 31)%Z →
  length inp = n * B → length out = n * B →
  Forall in_range inp →
  scantype = Inclusive ∨ n = 1 ∨ (∀ i tid, overtakes dev i tid = false) →
  ∃ out', ScanGPUBlock dev scantype out inp (n * B) (Z.of_nat B) = Ran (Ok out') ∧
    length out' = n * B ∧
    ∀ q r, r < B → q < n →
      out' !! (q * B + r) = Some (scan_value scantype (cell inp 0) (q * B) r).
Proof.
  intros Hdev HB HBmax Hmax HN Hint Hinp Hout Hrange Hquiet.
  destruct (launch_ScanGPUBlock_cells dev (overtakes dev) scantype B n inp out
              Hdev HB HBmax Hmax HN Hint Hinp Hout Hrange)
    as (out' & Hrun & Hlen & Hval).
  exists out'. split; [exact Hrun|]. split; [exact Hlen|].
  intros q r Hr Hq. rewrite (Hval q r Hr Hq). f_equal.
  destruct Hquiet as [-> | [-> | Hq0]].
  - rewrite bool_decide_eq_false_2 by (intros [H _]; discriminate H). reflexivity.
  - rewrite bool_decide_eq_false_2 by lia. reflexivity.
  - rewrite Hq0, andb_false_r. reflexivity.
Qed.

(** The driver [ScanGPUBlockShuffle] with 128, 256, 512 or 1024 threads
    writes the scan of every segment. *)
Lemma ScanGPUBlockShuffle_periodic (dev : device) (scantype : ScanType)
    (B n : nat) (inp out : list Z) :
  runs_every_block dev →
  B = 128 ∨ B = 256 ∨ B = 512 ∨ B = 1024 →
  (Z.of_nat B <= maxThreadsPerBlock dev)%Z →
  150 ≤ n * B → (Z.of_nat (n * B) / 150 < 2 ^ 31)%Z →
  length inp = n * B → length out = n * B →
  Forall in_range inp →
  ∃ out', ScanGPUBlockShuffle dev scantype out inp (n * B) (Z.of_nat B)
          = Ran (Ok out') ∧
    length out' = n * B ∧
    ∀ q r, r < B → q < n →
      out' !! (q * B + r) = Some (scan_value scantype (cell inp 0) (q * B) r).
Proof.
  intros Hdev HB Hmax HN Hint Hinp Hout Hrange.
  assert (Hsize : 0 < B ∧ B ≤ warpSize * warpSize)
    by (destruct HB as [-> | [-> | [-> | ->]]]; vm_compute; lia).
  rewrite ScanGPUBlockShuffle_abreast;
    [| destruct HB as [-> | [-> | [-> | ->]]]; tauto | exact Hrange].
  destruct (launch_ScanGPUBlock_cells dev (λ _ _, false) scantype B n inp out
              Hdev ltac:(tauto) ltac:(tauto) Hmax HN Hint Hinp Hout Hrange)
    as (out' & Hrun & Hlen & Hval).
  exists out'. split; [exact Hrun|]. split; [exact Hlen|].
  intros q r Hr Hq. rewrite (Hval q r Hr Hq), andb_false_r. reflexivity.
Qed.

(** C5 (the code departs from the claim).  The exclusive scan of the
    shared-memory path loads [sPartials[tid-1]] with no barrier before the
    store of the next round, and the shuffle path has no such load.  On
    512 elements that hold their indices, with blocks of 256 threads and a
    device whose warps run ahead, thread 32 finds in slot 31 the input 287
    of thread 31 for the second segment: [ScanGPUBlock] leaves 287 at
    position 32, where [ScanGPUBlockShuffle] leaves the sum 496 of the
    inputs 0 to 31, and the two output arrays differ. *)
Theorem ScanGPUBlock_exclusive_is_overtaken :
  ∃ shared shfl,
    ScanGPUBlock racing_device Exclusive (repeat 0%Z 512)
                 (Z.of_nat <$> seq 0 512) 512 256%Z = Ran (Ok shared)
    ∧ ScanGPUBlockShuffle racing_device Exclusive (repeat 0%Z 512)
                 (Z.of_nat <$> seq 0 512) 512 256%Z = Ran (Ok shfl)
    ∧ shared !! 32 = Some 287%Z
    ∧ shfl !! 32 = Some 496%Z
    ∧ shared ≠ shfl.
Proof.
  assert (Hrange : Forall in_range (Z.of_nat <$> seq 0 512))
    by (apply (bool_decide_unpack _); vm_compute; exact I).
  destruct (launch_ScanGPUBlock_cells racing_device (overtakes racing_device)
              Exclusive 256 2 (Z.of_nat <$> seq 0 512) (repeat 0%Z 512))
    as (shared & Hshared & _ & Hcell);
    [intros n; reflexivity | lia | vm_compute; lia | vm_compute; discriminate
    | lia | vm_compute; reflexivity | reflexivity | reflexivity | exact Hrange |].
  destruct (ScanGPUBlockShuffle_periodic racing_device Exclusive 256 2
              (Z.of_nat <$> seq 0 512) (repeat 0%Z 512))
    as (shfl & Hshfl & _ & Hscan);
    [intros n; reflexivity | tauto | vm_compute; discriminate
    | lia | vm_compute; reflexivity | reflexivity | reflexivity | exact Hrange |].
  pose proof (Hcell 0 32 ltac:(lia) ltac:(lia)) as H1.
  pose proof (Hscan 0 32 ltac:(lia) ltac:(lia)) as H2.
  change (0 * 256 + 32) with 32 in H1, H2.
  exists shared, shfl.
  split; [exact Hshared|]. split; [exact Hshfl|].
  assert (E1 : shared !! 32 = Some 287%Z) by (rewrite H1; vm_compute; reflexivity).
  assert (E2 : shfl !! 32 = Some 496%Z) by (rewrite H2; vm_compute; reflexivity).
  split; [exact E1|]. split; [exact E2|].
  intros Heq. rewrite Heq, E2 in E1. discriminate E1.
Qed.

Example ScanGPUBlock_triangular :
  ScanGPUBlock reference_device Inclusive (repeat 0%Z 256)
               (Z.of_nat <$> seq 0 256) 256 256%Z
  = Ran (Ok ((λ k, Z.of_nat (k * (k + 1) / 2)) <$> seq 0 256))
  ∧ ScanGPUBlockShuffle reference_device Exclusive (repeat 0%Z 256)
               (Z.of_nat <$> seq 0 256) 256 256%Z
    = Ran (Ok ((λ k, Z.of_nat (k * (k - 1) / 2)) <$> seq 0 256)).
Proof. split; vm_compute; reflexivity. Qed.

(** ** The exclusive block scan from the slot to the left *)

Lemma in_range_holds s : Forall in_range s → holds (cell s 0) s.
Proof.
  intros Hrange tid Htid. unfold cell. rewrite Nat.add_0_l.
  destruct (lookup_lt_is_Some_2 s tid Htid) as [v Hv]. rewrite Hv. simpl.
  f_equal. symmetry. apply wrap32_small.
  exact (Forall_lookup_1 _ _ _ _ Hrange Hv).
Qed.

Lemma exclusive_by_conversion_scan x s :
  holds x s → length s ≤ warpSize * warpSize →
  exclusive_by_conversion s = scan_list Exclusive x (length s).
Proof.
  intros Hs Hlen. unfold exclusive_by_conversion. apply list_eq_lookup.
  - rewrite length_imap, scan_list_length. reflexivity.
  - intros tid Htid. rewrite length_imap in Htid.
    destruct (group_index_bound tid (length s) Htid Hlen) as [Hw Hw'].
    rewrite list_lookup_imap, (Hs tid Htid).
    unfold fmap, option_fmap, option_map. cbn beta iota.
    rewrite (lookup_total_Some _ _ _ (scanWarp_inclusive x s tid Hs Htid)).
    rewrite (carry_in_shared x s _ Hs Hw Hw'), add_carry_in_exclusive.
    rewrite scan_list_lookup by exact Htid. reflexivity.
Qed.

(** C6. In a block of at most 1024 threads that holds 32-bit integers, the
    exclusive values the kernel [ScanGPUBlock] takes after the inclusive
    pass and a barrier from the shared-memory slot to the left (lane [tid]
    reads slot [tid - 1], lane 0 takes 0) are the exclusive scan of the
    block, and they are the values obtained by converting each lane's own
    inclusive value to exclusive before the carry-in is added. *)
Theorem exclusive_from_left_slot_is_exclusive_scan (sPartials : list Z) :
  Forall in_range sPartials →
  length sPartials ≤ warpSize * warpSize →
  ScanGPUBlock_values Exclusive sPartials = exclusive_by_conversion sPartials
  ∧ length (ScanGPUBlock_values Exclusive sPartials) = length sPartials
  ∧ ∀ tid, tid < length sPartials →
      ScanGPUBlock_values Exclusive sPartials !! tid
      = Some (wrap32 (rsum (cell sPartials 0) 0 tid)).
Proof.
  intros Hrange Hlen. pose proof (in_range_holds sPartials Hrange) as Hs.
  rewrite (ScanGPUBlock_values_scan Exclusive _ _ Hs Hlen).
  rewrite (exclusive_by_conversion_scan _ _ Hs Hlen).
  split; [reflexivity|]. split; [apply scan_list_length|].
  intros tid Htid. rewrite scan_list_lookup by exact Htid. reflexivity.
Qed.

Lemma exclusive_from_left_slot_is_exclusive_scan_witness :
  ScanGPUBlock_values Exclusive (Z.of_nat <$> seq 1 64)
  = exclusive_by_conversion (Z.of_nat <$> seq 1 64)
  ∧ ScanGPUBlock_values Exclusive (Z.of_nat <$> seq 1 64) !! 40 = Some 820%Z.
Proof.
  destruct (exclusive_from_left_slot_is_exclusive_scan (Z.of_nat <$> seq 1 64))
    as (Heq & _ & Hval).
  - apply (bool_decide_unpack _). vm_compute. exact I.
  - vm_compute. lia.
  - split; [exact Heq|]. rewrite (Hval 40) by (vm_compute; lia). reflexivity.
Defined.

(** ** What the driver does with the calls the specification forbids *)

(** C2 (the code departs from the claim below 150 elements).  The host
    wrapper asks for [N / 150] blocks: for one segment of 128 elements and
    128 threads that is a grid of no block, which every device refuses; no
    thread is run and no output position is written. *)
Theorem ScanGPUBlock_one_segment_of_128_is_refused :
  cBlocks_of 128 = 0%Z
  ∧ ∀ dev scantype out inp, ScanGPUBlock dev scantype out inp 128 128%Z = Refused.
Proof.
  split; [reflexivity|]. intros dev scantype out inp.
  unfold ScanGPUBlock, launch.
  change (cBlocks_of 128) with 0%Z. rewrite decide_False by lia. reflexivity.
Qed.

Lemma ScanGPUBlock_below_150_is_refused dev scantype out inp N cThreads :
  N < 150 → ScanGPUBlock dev scantype out inp N cThreads = Refused.
Proof.
  intros HN. unfold ScanGPUBlock, launch.
  assert (E : cBlocks_of N = 0%Z).
  { unfold cBlocks_of. rewrite Z.div_small by lia. reflexivity. }
  rewrite E, decide_False by lia. reflexivity.
Qed.

(** C4 (as amended).  The driver checks nothing: with at least 150
    elements and a block size the device accepts, the kernel is launched,
    whether or not [N] is a multiple of the block size and whether or not
    the block size is a power of two. *)
Theorem ScanGPUBlock_checks_nothing (dev : device) (scantype : ScanType)
    (out inp : list Z) (N : nat) (cThreads : Z) :
  150 ≤ N → (Z.of_nat N / 150 < 2 ^ 31)%Z →
  (0 < cThreads <= maxThreadsPerBlock dev)%Z →
  ∃ r, ScanGPUBlock dev scantype out inp N cThreads = Ran r.
Proof.
  intros HN Hint Hthreads.
  pose proof (cBlocks_of_positive N HN Hint) as Hblocks.
  unfold ScanGPUBlock, launch. rewrite decide_True by lia.
  eexists. reflexivity.
Qed.

Lemma ScanGPUBlock_checks_nothing_witness :
  ∃ r, ScanGPUBlock reference_device Inclusive (repeat 0%Z 200)
         (Z.of_nat <$> seq 0 200) 200 128%Z = Ran r.
Proof.
  apply ScanGPUBlock_checks_nothing; [lia | vm_compute; reflexivity | simpl; lia].
Defined.

(** C4 as stated fails: a call with 300 elements and blocks of 100
    threads (not a power of two) and a call with 200 elements and blocks of
    128 threads (200 is not a multiple of 128) are not rejected; the kernel
    is launched for both. *)
Lemma ScanGPUBlock_launches_forbidden_calls :
  (¬ is_power_of_two 100
   ∧ ∃ r, ScanGPUBlock reference_device Inclusive (repeat 0%Z 300)
            (repeat 1%Z 300) 300 100%Z = Ran r)
  ∧ (200 mod 128 ≠ 0
     ∧ ∃ r, ScanGPUBlock reference_device Inclusive (repeat 0%Z 200)
              (repeat 1%Z 200) 200 128%Z = Ran r).
Proof.
  split; split.
  - intros [_ H]. vm_compute in H. discriminate H.
  - unfold ScanGPUBlock, launch. rewrite decide_True by (vm_compute; intuition discriminate).
    eexists. reflexivity.
  - intros H. vm_compute in H. discriminate H.
  - unfold ScanGPUBlock, launch. rewrite decide_True by (vm_compute; intuition discriminate).
    eexists. reflexivity.
Qed.

(** What the two calls do once launched: the first runs to the end and
    writes the output, the second scans its first segment and then reads
    past the end of the input. *)
Example ScanGPUBlock_forbidden_calls_run :
  (∃ out', ScanGPUBlock reference_device Inclusive (repeat 0%Z 300)
             (repeat 1%Z 300) 300 100%Z = Ran (Ok out')
           ∧ out' ≠ repeat 0%Z 300)
  ∧ ScanGPUBlock reference_device Inclusive (repeat 0%Z 200)
      (repeat 1%Z 200) 200 128%Z = Ran Fault.
Proof.
  split.
  - eexists. split; [vm_compute; reflexivity|]. intros H. discriminate H.
  - vm_compute. reflexivity.
Qed.

(** * Further properties of the code *)

(** ** The CPU scans and the bounds of their buffers *)

Lemma rounds_up_periods B N n q : 0 < B → rounds_up B N n → (q * B < N ↔ q < n).
Proof.
  intros HB [Hle Hlt]. split; intros H.
  - destruct (decide (q < n)) as [Hq|Hq]; [exact Hq|].
    pose proof (Nat.mul_le_mono_r n q B ltac:(lia)). lia.
  - pose proof (Nat.mul_le_mono_r (S q) n B H). lia.
Qed.

Lemma rounds_up_fuel B N n : 0 < B → rounds_up B N n → n ≤ N.
Proof.
  intros HB [Hle Hlt]. destruct n as [|n]; [lia|].
  pose proof (Nat.mul_le_mono_l 1 B n HB). lia.
Qed.

Lemma next_period_fits B n q : q < n → q * B + B ≤ n * B.
Proof. intros Hq. pose proof (Nat.mul_le_mono_r (S q) n B Hq). lia. Qed.

(** One inner loop, from the bounds alone: it stays within the [todo] cells
    it is given, or it is an access outside the store. *)
Lemma ScanExclusive_inner_bounds out inp i todo : ∀ j sum m,
  (inp + (i + j) + todo ≤ length m ∧ out + (i + j) + todo ≤ length m →
   ∃ m', ScanExclusive_inner todo out inp i j sum m = Ok m' ∧
         framed (out + (i + j)) todo m m')
  ∧ (0 < todo →
     length m < inp + (i + j) + todo ∨ length m < out + (i + j) + todo →
     ScanExclusive_inner todo out inp i j sum m = Fault).
Proof.
  induction todo as [|todo IH]; intros j sum m; split.
  - intros _. exists m. split; [reflexivity|]. split; reflexivity.
  - lia.
  - intros [Hin Hout]. simpl.
    destruct (load_in_range m (inp + (i + j)) ltac:(lia)) as [v ->].
    run_bind. unfold store. rewrite decide_True by lia. run_bind.
    destruct (IH (S j) (add32 sum v) (<[out + (i + j) := sum]> m)) as [Hok _].
    destruct Hok as (m' & Hrun & Hlen & Hfr); [rewrite length_insert; lia|].
    exists m'. split; [exact Hrun|]. rewrite length_insert in Hlen.
    split; [exact Hlen|]. intros p Hp.
    rewrite Hfr by lia. apply list_lookup_insert_ne. lia.
  - intros _ Hshort. simpl. unfold load.
    destruct (m !! (inp + (i + j))) as [v|] eqn:Hv; [|reflexivity].
    apply lookup_lt_Some in Hv. run_bind. unfold store.
    destruct (decide (out + (i + j) < length m)) as [Hst|Hst]; [|reflexivity].
    run_bind.
    destruct (IH (S j) (add32 sum v) (<[out + (i + j) := sum]> m)) as [_ Hfault].
    apply Hfault; [lia | rewrite length_insert; lia].
Qed.

Lemma ScanInclusive_inner_bounds out inp i todo : ∀ j sum m,
  (inp + (i + j) + todo ≤ length m ∧ out + (i + j) + todo ≤ length m →
   ∃ m', ScanInclusive_inner todo out inp i j sum m = Ok m' ∧
         framed (out + (i + j)) todo m m')
  ∧ (0 < todo →
     length m < inp + (i + j) + todo ∨ length m < out + (i + j) + todo →
     ScanInclusive_inner todo out inp i j sum m = Fault).
Proof.
  induction todo as [|todo IH]; intros j sum m; split.
  - intros _. exists m. split; [reflexivity|]. split; reflexivity.
  - lia.
  - intros [Hin Hout]. simpl.
    destruct (load_in_range m (inp + (i + j)) ltac:(lia)) as [v ->].
    run_bind. unfold store. rewrite decide_True by lia. run_bind.
    destruct (IH (S j) (add32 sum v) (<[out + (i + j) := add32 sum v]> m))
      as [Hok _].
    destruct Hok as (m' & Hrun & Hlen & Hfr); [rewrite length_insert; lia|].
    exists m'. split; [exact Hrun|]. rewrite length_insert in Hlen.
    split; [exact Hlen|]. intros p Hp.
    rewrite Hfr by lia. apply list_lookup_insert_ne. lia.
  - intros _ Hshort. simpl. unfold load.
    destruct (m !! (inp + (i + j))) as [v|] eqn:Hv; [|reflexivity].
    apply lookup_lt_Some in Hv. run_bind. unfold store.
    destruct (decide (out + (i + j) < length m)) as [Hst|Hst]; [|reflexivity].
    run_bind.
    destruct (IH (S j) (add32 sum v) (<[out + (i + j) := add32 sum v]> m))
      as [_ Hfault].
    apply Hfault; [lia | rewrite length_insert; lia].
Qed.

Section CPUBounds.
Variables (B N n out inp : nat).
Hypothesis HB : 0 < B.
Hypothesis Hup : rounds_up B N n.

Lemma ScanExclusive_outer_bounds fuel : ∀ q m,
  n - q ≤ fuel →
  (inp + n * B ≤ length m ∧ out + n * B ≤ length m →
   ∃ m', ScanExclusive_outer fuel B out inp N (q * B) m = Ok m' ∧
         length m' = length m ∧
         ∀ p, p < out + q * B ∨ out + n * B ≤ p → m' !! p = m !! p)
  ∧ (q < n → length m < inp + n * B ∨ length m < out + n * B →
     ScanExclusive_outer fuel B out inp N (q * B) m = Fault).
Proof.
  induction fuel as [|fuel IH]; intros q m Hfuel; simpl;
    destruct (decide (q * B < N)) as [Hlt|Hge];
    try (apply (rounds_up_periods B N n q HB Hup) in Hlt);
    try (assert (Hqn : ¬ q < n)
           by (intros Hq; apply Hge, (rounds_up_periods B N n q HB Hup), Hq)).
  - lia.
  - split; [|lia]. intros _. exists m. repeat split; reflexivity.
  - pose proof (next_period_fits B n q Hlt) as Hnext.
    destruct (ScanExclusive_inner_bounds out inp (q * B) B 0 0%Z m) as [Hok Hfault].
    rewrite Nat.add_0_r in Hok, Hfault.
    destruct (decide (inp + q * B + B ≤ length m ∧ out + q * B + B ≤ length m))
      as [Hfit|Hfit].
    + destruct (Hok Hfit) as (m1 & Hrun & Hlen1 & Hfr1). rewrite Hrun. run_bind.
      replace (q * B + B) with (S q * B) by lia.
      destruct (IH (S q) m1 ltac:(lia)) as [Hok' Hfault'].
      rewrite Hlen1 in Hok', Hfault'. split.
      * intros Hfits. destruct (Hok' Hfits) as (m' & Hrun' & Hlen' & Hfr').
        exists m'. split; [exact Hrun'|]. split; [exact Hlen'|].
        intros p Hp. rewrite Hfr' by lia. apply Hfr1. lia.
      * intros _ Hshort. destruct (decide (S q < n)) as [Hmore|Hlast];
          [apply Hfault'; [exact Hmore | exact Hshort]|].
        exfalso. pose proof (Nat.mul_le_mono_r n (S q) B ltac:(lia)). lia.
    + rewrite Hfault by lia. split; [intros [? ?]; lia | reflexivity].
  - split; [|lia]. intros _. exists m. repeat split; reflexivity.
Qed.

Lemma ScanInclusive_outer_bounds fuel : ∀ q m,
  n - q ≤ fuel →
  (inp + n * B ≤ length m ∧ out + n * B ≤ length m →
   ∃ m', ScanInclusive_outer fuel B out inp N (q * B) m = Ok m' ∧
         length m' = length m ∧
         ∀ p, p < out + q * B ∨ out + n * B ≤ p → m' !! p = m !! p)
  ∧ (q < n → length m < inp + n * B ∨ length m < out + n * B →
     ScanInclusive_outer fuel B out inp N (q * B) m = Fault).
Proof.
  induction fuel as [|fuel IH]; intros q m Hfuel; simpl;
    destruct (decide (q * B < N)) as [Hlt|Hge];
    try (apply (rounds_up_periods B N n q HB Hup) in Hlt);
    try (assert (Hqn : ¬ q < n)
           by (intros Hq; apply Hge, (rounds_up_periods B N n q HB Hup), Hq)).
  - lia.
  - split; [|lia]. intros _. exists m. repeat split; reflexivity.
  - pose proof (next_period_fits B n q Hlt) as Hnext.
    destruct (ScanInclusive_inner_bounds out inp (q * B) B 0 0%Z m) as [Hok Hfault].
    rewrite Nat.add_0_r in Hok, Hfault.
    destruct (decide (inp + q * B + B ≤ length m ∧ out + q * B + B ≤ length m))
      as [Hfit|Hfit].
    + destruct (Hok Hfit) as (m1 & Hrun & Hlen1 & Hfr1). rewrite Hrun. run_bind.
      replace (q * B + B) with (S q * B) by lia.
      destruct (IH (S q) m1 ltac:(lia)) as [Hok' Hfault'].
      rewrite Hlen1 in Hok', Hfault'. split.
      * intros Hfits. destruct (Hok' Hfits) as (m' & Hrun' & Hlen' & Hfr').
        exists m'. split; [exact Hrun'|]. split; [exact Hlen'|].
        intros p Hp. rewrite Hfr' by lia. apply Hfr1. lia.
      * intros _ Hshort. destruct (decide (S q < n)) as [Hmore|Hlast];
          [apply Hfault'; [exact Hmore | exact Hshort]|].
        exfalso. pose proof (Nat.mul_le_mono_r n (S q) B ltac:(lia)). lia.
    + rewrite Hfault by lia. split; [intros [? ?]; lia | reflexivity].
  - split; [|lia]. intros _. exists m. repeat split; reflexivity.
Qed.

(** The runs for [N] and for [N] rounded up are the same runs. *)
Lemma ScanExclusive_outer_rounded fuel : ∀ fuel' q m,
  n - q ≤ fuel → n - q ≤ fuel' →
  ScanExclusive_outer fuel B out inp N (q * B) m
  = ScanExclusive_outer fuel' B out inp (n * B) (q * B) m.
Proof.
  induction fuel as [|fuel IH]; intros fuel' q m Hfuel Hfuel';
    destruct fuel' as [|fuel']; simpl;
    destruct (decide (q * B < N)) as [Hlt|Hge];
    destruct (decide (q * B < n * B)) as [Hlt'|Hge'];
    try reflexivity;
    try (apply (rounds_up_periods B N n q HB Hup) in Hlt);
    try (assert (Hqn : ¬ q < n)
           by (intros Hq; apply Hge, (rounds_up_periods B N n q HB Hup), Hq));
    try (exfalso; nia).
  destruct (ScanExclusive_inner B out inp (q * B) 0 0%Z m); [|reflexivity..].
  run_bind. replace (q * B + B) with (S q * B) by lia. apply IH; lia.
Qed.

Lemma ScanInclusive_outer_rounded fuel : ∀ fuel' q m,
  n - q ≤ fuel → n - q ≤ fuel' →
  ScanInclusive_outer fuel B out inp N (q * B) m
  = ScanInclusive_outer fuel' B out inp (n * B) (q * B) m.
Proof.
  induction fuel as [|fuel IH]; intros fuel' q m Hfuel Hfuel';
    destruct fuel' as [|fuel']; simpl;
    destruct (decide (q * B < N)) as [Hlt|Hge];
    destruct (decide (q * B < n * B)) as [Hlt'|Hge'];
    try reflexivity;
    try (apply (rounds_up_periods B N n q HB Hup) in Hlt);
    try (assert (Hqn : ¬ q < n)
           by (intros Hq; apply Hge, (rounds_up_periods B N n q HB Hup), Hq));
    try (exfalso; nia).
  destruct (ScanInclusive_inner B out inp (q * B) 0 0%Z m); [|reflexivity..].
  run_bind. replace (q * B + B) with (S q * B) by lia. apply IH; lia.
Qed.
End CPUBounds.

(** X1. Whatever the values and however the two buffers overlap, a CPU
    scan over buffers that hold [N] rounded up to whole periods returns,
    keeps the size of the store and changes no cell outside the output
    buffer [out .. out + n * B - 1]. *)
Theorem CPU_scans_write_only_output (B N n inp out : nat) (m : list Z) :
  0 < B → rounds_up B N n →
  inp + n * B ≤ length m → out + n * B ≤ length m →
  (∃ m', ScanExclusiveCPUPeriodic B out inp N m = Ok m' ∧
     length m' = length m ∧
     ∀ p, p < out ∨ out + n * B ≤ p → m' !! p = m !! p)
  ∧ (∃ m', ScanInclusiveCPUPeriodic B out inp N m = Ok m' ∧
       length m' = length m ∧
       ∀ p, p < out ∨ out + n * B ≤ p → m' !! p = m !! p).
Proof.
  intros HB Hup Hin Hout.
  pose proof (rounds_up_fuel B N n HB Hup) as Hfuel. split.
  - destruct (ScanExclusive_outer_bounds B N n out inp HB Hup N 0 m ltac:(lia))
      as [Hok _].
    destruct (Hok (conj Hin Hout)) as (m' & Hrun & Hlen & Hfr).
    exists m'. split; [exact Hrun|]. split; [exact Hlen|].
    intros p Hp. apply Hfr. lia.
  - destruct (ScanInclusive_outer_bounds B N n out inp HB Hup N 0 m ltac:(lia))
      as [Hok _].
    destruct (Hok (conj Hin Hout)) as (m' & Hrun & Hlen & Hfr).
    exists m'. split; [exact Hrun|]. split; [exact Hlen|].
    intros p Hp. apply Hfr. lia.
Qed.

Lemma CPU_scans_write_only_output_witness :
  ∃ m', ScanExclusiveCPUPeriodic 2 1 0 3 [5; 6; 7; 8; 9; 4]%Z = Ok m' ∧
        length m' = 6 ∧ m' !! 0 = Some 5%Z ∧ m' !! 5 = Some 4%Z.
Proof.
  destruct (CPU_scans_write_only_output 2 3 2 0 1 [5; 6; 7; 8; 9; 4]%Z)
    as [(m' & Hrun & Hlen & Hfr) _];
    [lia | unfold rounds_up; lia | simpl; lia | simpl; lia |].
  exists m'. split; [exact Hrun|]. split; [exact Hlen|].
  split; [apply (Hfr 0) | apply (Hfr 5)]; lia.
Defined.

(** X2. The scans work on whole periods, past the length they are given.
    For a positive [N], with [n * B] the length rounded up to a multiple of
    the period, they read the cells [inp .. inp + n * B - 1] and write the
    cells [out .. out + n * B - 1].  When the memory ends before one of the
    two ranges, the run is an access outside it.  When it holds both (the
    output range starting at or before the input range, or after its end),
    the run returns and every cell of the output range holds its scan
    value: the cells [out + N .. out + n * B - 1], which lie behind an
    output buffer of [N] cells, are overwritten too, with sums that take in
    the cells behind an input buffer of [N] cells. *)
Theorem CPU_scans_overrun_short_buffers (B N n inp out : nat) (m : list Z) :
  0 < B → rounds_up B N n → 0 < N →
  (length m < inp + n * B ∨ length m < out + n * B →
   ScanExclusiveCPUPeriodic B out inp N m = Fault
   ∧ ScanInclusiveCPUPeriodic B out inp N m = Fault)
  ∧ (inp + n * B ≤ length m → out + n * B ≤ length m →
     out ≤ inp ∨ inp + n * B ≤ out →
     ∃ mE mI,
       ScanExclusiveCPUPeriodic B out inp N m = Ok mE ∧
       ScanInclusiveCPUPeriodic B out inp N m = Ok mI ∧
       ∀ k, k < n * B →
         mE !! (out + k) = Some (periodic_value Exclusive B (cell m inp) k) ∧
         mI !! (out + k) = Some (periodic_value Inclusive B (cell m inp) k)).
Proof.
  intros HB Hup HN.
  pose proof (rounds_up_fuel B N n HB Hup) as Hfuel.
  assert (Hfuel' : n ≤ n * B) by nia.
  assert (Hn : 0 < n)
    by (apply (rounds_up_periods B N n 0 HB Hup); simpl; exact HN).
  split.
  - intros Hshort. split.
    + destruct (ScanExclusive_outer_bounds B N n out inp HB Hup N 0 m ltac:(lia))
        as [_ Hfault]. apply Hfault; assumption.
    + destruct (ScanInclusive_outer_bounds B N n out inp HB Hup N 0 m ltac:(lia))
        as [_ Hfault]. apply Hfault; assumption.
  - intros Hin Hout Halias.
    assert (Hcells : ∀ k, k < n * B → m !! (inp + k) = Some (cell m inp k))
      by (intros k Hk; apply (cell_lookup m inp (n * B)); assumption).
    destruct (ScanExclusiveCPUPeriodic_scanned (cell m inp) B n out inp m
                Halias Hcells Hout) as (mE & HrunE & _ & _ & HvalE).
    destruct (ScanInclusiveCPUPeriodic_scanned (cell m inp) B n out inp m
                Halias Hcells Hout) as (mI & HrunI & _ & _ & HvalI).
    exists mE, mI. split; [|split].
    + rewrite <- HrunE.
      apply (ScanExclusive_outer_rounded B N n out inp HB Hup N (n * B) 0 m); lia.
    + rewrite <- HrunI.
      apply (ScanInclusive_outer_rounded B N n out inp HB Hup N (n * B) 0 m); lia.
    + intros k Hk. split; [apply HvalE | apply HvalI]; exact Hk.
Qed.

Lemma CPU_scans_overrun_short_buffers_witness :
  ScanExclusiveCPUPeriodic 2 3 0 3 [5; 6; 7; 0; 0; 0]%Z = Fault
  ∧ ∃ mE, ScanExclusiveCPUPeriodic 2 4 0 3 [5; 6; 7; 8; 0; 0; 0; 9]%Z = Ok mE
          ∧ mE !! (4 + 3) = Some 7%Z.
Proof.
  split.
  - apply (CPU_scans_overrun_short_buffers 2 3 2 0 3 [5; 6; 7; 0; 0; 0]%Z);
      [lia | unfold rounds_up; lia | lia | simpl; lia].
  - destruct (CPU_scans_overrun_short_buffers 2 3 2 0 4 [5; 6; 7; 8; 0; 0; 0; 9]%Z)
      as [_ Hover]; [lia | unfold rounds_up; lia | lia |].
    destruct Hover as (mE & mI & HrunE & _ & Hval); [simpl; lia | simpl; lia | lia |].
    exists mE. split; [exact HrunE|].
    destruct (Hval 3 ltac:(lia)) as [HE _]. rewrite HE. reflexivity.
Defined.

(** X3. A length that is no multiple of the period is rounded up: the run
    for [N] is the run for the next multiple [n * B] of the period; the
    cells [N .. n * B - 1] are read and written too. *)
Theorem CPU_scans_round_length_up (B N n inp out : nat) (m : list Z) :
  0 < B → rounds_up B N n →
  ScanExclusiveCPUPeriodic B out inp N m
  = ScanExclusiveCPUPeriodic B out inp (n * B) m
  ∧ ScanInclusiveCPUPeriodic B out inp N m
    = ScanInclusiveCPUPeriodic B out inp (n * B) m.
Proof.
  intros HB Hup. pose proof (rounds_up_fuel B N n HB Hup) as Hfuel.
  assert (Hfuel' : n ≤ n * B) by nia.
  split.
  - apply (ScanExclusive_outer_rounded B N n out inp HB Hup N (n * B) 0 m); lia.
  - apply (ScanInclusive_outer_rounded B N n out inp HB Hup N (n * B) 0 m); lia.
Qed.

Lemma CPU_scans_round_length_up_witness :
  ScanInclusiveCPUPeriodic 2 4 0 3 [1; 2; 3; 4; 0; 0; 0; 0]%Z
  = ScanInclusiveCPUPeriodic 2 4 0 (2 * 2) [1; 2; 3; 4; 0; 0; 0; 0]%Z.
Proof.
  apply (CPU_scans_round_length_up 2 3 2); [lia | unfold rounds_up; lia].
Defined.

(** ** How the two CPU scans relate *)

Lemma periodic_value_inclusive B x k :
  0 < B →
  periodic_value Inclusive B x k = add32 (periodic_value Exclusive B x k) (x k).
Proof.
  intros HB. unfold periodic_value, scan_value.
  rewrite rsum_snoc, add32_wrap_l.
  pose proof (Nat.div_mod_eq k B).
  replace (k / B * B + k mod B) with k by lia. reflexivity.
Qed.

(** X4. On the same input, the inclusive scan is the exclusive scan plus
    the input, cell by cell in 32-bit arithmetic, and inside a period the
    exclusive value of a cell is the inclusive value of the cell before. *)
Theorem inclusive_is_exclusive_plus_input (B n inp out : nat) (m : list Z) :
  0 < B →
  inp + n * B ≤ length m → out + n * B ≤ length m →
  out ≤ inp ∨ inp + n * B ≤ out →
  ∃ mE mI,
    ScanExclusiveCPUPeriodic B out inp (n * B) m = Ok mE ∧
    ScanInclusiveCPUPeriodic B out inp (n * B) m = Ok mI ∧
    (∀ k, k < n * B →
       ∃ e, mE !! (out + k) = Some e ∧
            mI !! (out + k) = Some (add32 e (cell m inp k))) ∧
    (∀ q r, S r < B → q < n →
       mE !! (out + (q * B + S r)) = mI !! (out + (q * B + r))).
Proof.
  intros HB Hfit Hout Halias.
  assert (Hin : ∀ k, k < n * B → m !! (inp + k) = Some (cell m inp k))
    by (intros k Hk; apply (cell_lookup m inp (n * B)); assumption).
  destruct (ScanExclusiveCPUPeriodic_scanned (cell m inp) B n out inp m
              Halias Hin Hout) as (mE & HrunE & HscE).
  destruct (ScanInclusiveCPUPeriodic_scanned (cell m inp) B n out inp m
              Halias Hin Hout) as (mI & HrunI & HscI).
  exists mE, mI. split; [exact HrunE|]. split; [exact HrunI|]. split.
  - intros k Hk. destruct HscE as (_ & _ & HdE). destruct HscI as (_ & _ & HdI).
    eexists. split; [apply HdE, Hk|].
    rewrite (HdI k Hk). f_equal. apply periodic_value_inclusive, HB.
  - intros q r Hr Hq.
    pose proof (next_period_fits B n q Hq) as Hnext.
    rewrite (scanned_periodic Exclusive _ _ _ _ _ _ HscE q (S r)) by lia.
    rewrite (scanned_periodic Inclusive _ _ _ _ _ _ HscI q r) by lia.
    reflexivity.
Qed.

Lemma inclusive_is_exclusive_plus_input_witness :
  ∃ mE mI,
    ScanExclusiveCPUPeriodic 2 4 0 (2 * 2) [1; 2; 3; 4; 0; 0; 0; 0]%Z = Ok mE ∧
    ScanInclusiveCPUPeriodic 2 4 0 (2 * 2) [1; 2; 3; 4; 0; 0; 0; 0]%Z = Ok mI ∧
    mE !! (4 + (1 * 2 + 1)) = mI !! (4 + (1 * 2 + 0)).
Proof.
  destruct (inclusive_is_exclusive_plus_input 2 2 0 4 [1; 2; 3; 4; 0; 0; 0; 0]%Z)
    as (mE & mI & HE & HI & _ & Hshift); [lia | simpl; lia | simpl; lia | lia |].
  exists mE, mI. split; [exact HE|]. split; [exact HI|]. apply Hshift; lia.
Defined.

(** ** When the 32-bit sums are the exact sums *)

Lemma rsum_bound x M len : ∀ lo,
  (∀ k, lo ≤ k < lo + len → (- M <= x k <= M)%Z) →
  (- (Z.of_nat len * M) <= rsum x lo len <= Z.of_nat len * M)%Z.
Proof.
  induction len as [|len IH]; intros lo Hx.
  - simpl. lia.
  - change (rsum x lo (S len)) with (x lo + rsum x (S lo) len)%Z.
    pose proof (Hx lo ltac:(lia)).
    pose proof (IH (S lo) ltac:(intros k Hk; apply Hx; lia)).
    rewrite Nat2Z.inj_succ, Z.mul_succ_l. lia.
Qed.

Lemma rsum_in_range x M B lo len :
  (∀ k, lo ≤ k < lo + len → (- M <= x k <= M)%Z) →
  0 < len → len ≤ B → (Z.of_nat B * M < 2 ^ 31)%Z →
  in_range (rsum x lo len).
Proof.
  intros Hx Hpos Hlen HM.
  pose proof (rsum_bound x M len lo Hx) as Hb.
  pose proof (Hx lo ltac:(lia)) as H0.
  assert (Z.of_nat len * M <= Z.of_nat B * M)%Z by nia.
  unfold in_range. lia.
Qed.

(** X5. When every input lies in [-M, M] and [B * M] is below 2^31, no
    sum wraps around: both scans store the exact sums of the inputs of
    each period. *)
Theorem CPU_scans_exact_for_small_inputs (B n inp out : nat) (m : list Z) (M : Z) :
  inp + n * B ≤ length m → out + n * B ≤ length m →
  out ≤ inp ∨ inp + n * B ≤ out →
  (∀ k, k < n * B → (- M <= cell m inp k <= M)%Z) →
  (Z.of_nat B * M < 2 ^ 31)%Z →
  (∃ m', ScanInclusiveCPUPeriodic B out inp (n * B) m = Ok m' ∧
     ∀ q r, r < B → q < n →
       m' !! (out + (q * B + r)) = Some (rsum (cell m inp) (q * B) (S r)))
  ∧ (∃ m', ScanExclusiveCPUPeriodic B out inp (n * B) m = Ok m' ∧
       ∀ q r, r < B → q < n →
         m' !! (out + (q * B + r)) = Some (rsum (cell m inp) (q * B) r)).
Proof.
  intros Hfit Hout Halias Hsmall HM.
  assert (Hin : ∀ k, k < n * B → m !! (inp + k) = Some (cell m inp k))
    by (intros k Hk; apply (cell_lookup m inp (n * B)); assumption).
  split.
  - destruct (ScanInclusiveCPUPeriodic_scanned (cell m inp) B n out inp m
                Halias Hin Hout) as (m' & Hrun & Hsc).
    exists m'. split; [exact Hrun|]. intros q r Hr Hq.
    pose proof (next_period_fits B n q Hq) as Hnext.
    rewrite (scanned_periodic Inclusive _ _ _ _ _ _ Hsc q r) by lia.
    unfold scan_value. f_equal. apply wrap32_small.
    apply (rsum_in_range _ M B); [|lia|lia|exact HM].
    intros k Hk. apply Hsmall. lia.
  - destruct (ScanExclusiveCPUPeriodic_scanned (cell m inp) B n out inp m
                Halias Hin Hout) as (m' & Hrun & Hsc).
    exists m'. split; [exact Hrun|]. intros q r Hr Hq.
    pose proof (next_period_fits B n q Hq) as Hnext.
    rewrite (scanned_periodic Exclusive _ _ _ _ _ _ Hsc q r) by lia.
    unfold scan_value. f_equal. apply wrap32_small.
    destruct r as [|r]; [unfold in_range; simpl; lia|].
    apply (rsum_in_range _ M B); [|lia|lia|exact HM].
    intros k Hk. apply Hsmall. lia.
Qed.

Lemma CPU_scans_exact_for_small_inputs_witness :
  ∃ m', ScanInclusiveCPUPeriodic 2 4 0 (2 * 2) [1; 2; 3; 4; 0; 0; 0; 0]%Z = Ok m' ∧
        m' !! (4 + (1 * 2 + 1)) = Some 7%Z.
Proof.
  destruct (CPU_scans_exact_for_small_inputs 2 2 0 4 [1; 2; 3; 4; 0; 0; 0; 0]%Z 4%Z)
    as [(m' & Hrun & Hval) _]; [simpl; lia | simpl; lia | lia | | lia |].
  - intros k Hk. do 4 (destruct k as [|k]; [vm_compute; split; discriminate|]).
    simpl in Hk. lia.
  - exists m'. split; [exact Hrun|]. apply (Hval 1 1); lia.
Defined.

Lemma rsum_index len : ∀ lo,
  (2 * rsum Z.of_nat lo len
   = Z.of_nat len * (2 * Z.of_nat lo + Z.of_nat len - 1))%Z.
Proof.
  induction len as [|len IH]; intros lo.
  - simpl. lia.
  - change (rsum Z.of_nat lo (S len))
      with (Z.of_nat lo + rsum Z.of_nat (S lo) len)%Z.
    pose proof (IH (S lo)) as H. rewrite !Nat2Z.inj_succ in *. nia.
Qed.

(** X6. On the input that [TestScanBlock] installs, [in[i] = i], the
    inclusive total [T] of period [q] is [B * (q * B) + B * (B - 1) / 2];
    the reference scan stores it modulo 2^32, and as soon as [T] reaches
    2^31 the stored value is not the sum.  With 256 threads that happens
    from period 32768 on, within the 32M elements of [main]. *)
Theorem index_input_overflows_int (B n inp out : nat) (m : list Z) :
  0 < B →
  out + n * B ≤ length m →
  out ≤ inp ∨ inp + n * B ≤ out →
  (∀ k, k < n * B → m !! (inp + k) = Some (Z.of_nat k)) →
  ∃ m', ScanInclusiveCPUPeriodic B out inp (n * B) m = Ok m' ∧
    ∀ q, q < n →
      ∃ T : Z,
        (2 * T = Z.of_nat B * (2 * Z.of_nat (q * B) + Z.of_nat B - 1))%Z ∧
        m' !! (out + (q * B + (B - 1))) = Some (wrap32 T) ∧
        ((2 ^ 31 <= T)%Z → wrap32 T ≠ T) ∧
        (Z.of_nat B = 256%Z → (32768 <= Z.of_nat q)%Z → (2 ^ 31 <= T)%Z).
Proof.
  intros HB Hout Halias Hin.
  destruct (ScanInclusiveCPUPeriodic_scanned Z.of_nat B n out inp m
              Halias Hin Hout) as (m' & Hrun & Hsc).
  exists m'. split; [exact Hrun|]. intros q Hq.
  exists (rsum Z.of_nat (q * B) B).
  pose proof (rsum_index B (q * B)) as Hsum.
  split; [exact Hsum|]. split; [|split].
  - pose proof (next_period_fits B n q Hq) as Hnext.
    rewrite (scanned_periodic Inclusive _ _ _ _ _ _ Hsc q (B - 1)) by lia.
    unfold scan_value. replace (S (B - 1)) with B by lia. reflexivity.
  - intros Hbig Heq. pose proof (wrap32_range (rsum Z.of_nat (q * B) B)) as Hr.
    unfold in_range in Hr. lia.
  - intros HB256 Hq32. rewrite Nat2Z.inj_mul, HB256 in Hsum. lia.
Qed.

Lemma index_input_overflows_int_witness :
  ∃ m', ScanInclusiveCPUPeriodic 2 4 0 (2 * 2) [0; 1; 2; 3; 0; 0; 0; 0]%Z = Ok m' ∧
        m' !! (4 + (1 * 2 + (2 - 1))) = Some 5%Z.
Proof.
  destruct (index_input_overflows_int 2 2 0 4 [0; 1; 2; 3; 0; 0; 0; 0]%Z)
    as (m' & Hrun & Hval); [lia | simpl; lia | lia | |].
  - intros k Hk. do 4 (destruct k as [|k]; [reflexivity|]). simpl in Hk. lia.
  - exists m'. split; [exact Hrun|].
    destruct (Hval 1 ltac:(lia)) as (T & HT & Hcell & _).
    rewrite Hcell. f_equal. replace T with 5%Z by lia. reflexivity.
Defined.

(** ** [RandomArray] *)

Lemma rand_state_succ {rng : Type} (rand : rng → Z * rng) k : ∀ s,
  rand_state rand s (S k) = (rand (rand_state rand s k)).2.
Proof.
  induction k as [|k IH]; intros s; [reflexivity|].
  change (rand_state rand s (S (S k))) with (rand_state rand (rand s).2 (S k)).
  rewrite IH. reflexivity.
Qed.

Lemma RandomArray_loop_values {rng : Type} (rand : rng → Z * rng)
    out modulus s0 m0 todo : ∀ i m,
  modulus ≠ 0%Z →
  out + i + todo ≤ length m0 →
  scanned (λ k, Z.rem (rand_value rand s0 k) modulus) out i m0 m →
  ∃ m', RandomArray_loop rng rand todo out i modulus (rand_state rand s0 i) m
        = Ok (rand_state rand s0 (i + todo), m') ∧
        scanned (λ k, Z.rem (rand_value rand s0 k) modulus) out (i + todo) m0 m'.
Proof.
  induction todo as [|todo IH]; intros i m Hmod Hfit Hsc.
  - exists m. rewrite Nat.add_0_r. split; [reflexivity | exact Hsc].
  - simpl. destruct (rand (rand_state rand s0 i)) as [r s1] eqn:Hr.
    rewrite decide_False by exact Hmod.
    unfold store. pose proof Hsc as (Hlen & _).
    rewrite decide_True by lia. run_bind.
    assert (Hs1 : s1 = rand_state rand s0 (S i))
      by (rewrite rand_state_succ, Hr; reflexivity).
    assert (Hv : r = rand_value rand s0 i)
      by (unfold rand_value; rewrite Hr; reflexivity).
    rewrite Hs1, Hv.
    destruct (IH (S i) (<[out + i := Z.rem (rand_value rand s0 i) modulus]> m)
                Hmod ltac:(lia)) as (m' & Hrun & Hsc').
    + apply (scanned_step (λ k, Z.rem (rand_value rand s0 k) modulus));
        [exact Hsc | lia].
    + exists m'. replace (i + S todo) with (S i + todo) by lia.
      split; [exact Hrun | exact Hsc'].
Qed.

(** X7. [RandomArray] with a modulus other than 0 stores in cell [k] of
    the buffer the value of the [k]-th call of [rand], reduced by the
    modulus; it advances the generator by [N] calls, keeps the size of the
    store and changes no other cell.  With a positive modulus and a
    generator that returns no negative value, every cell written lies in
    [0, modulus). *)
Theorem RandomArray_stores_remainders (rng : Type) (rand : rng → Z * rng)
    (out N : nat) (modulus : Z) (s : rng) (m : list Z) :
  modulus ≠ 0%Z → out + N ≤ length m →
  ∃ m', RandomArray rng rand out N modulus s m = Ok (rand_state rand s N, m') ∧
    length m' = length m ∧
    (∀ p, p < out ∨ out + N ≤ p → m' !! p = m !! p) ∧
    (∀ k, k < N → m' !! (out + k) = Some (Z.rem (rand_value rand s k) modulus)) ∧
    ((0 < modulus)%Z → (∀ k, 0 <= rand_value rand s k)%Z →
     ∀ k, k < N → ∃ v, m' !! (out + k) = Some v ∧ (0 <= v < modulus)%Z).
Proof.
  intros Hmod Hfit. unfold RandomArray.
  destruct (RandomArray_loop_values rand out modulus s m N 0 m Hmod ltac:(lia)
              (scanned_start _ _ _)) as (m' & Hrun & Hlen & Hfr & Hdone).
  exists m'. split; [exact Hrun|]. split; [exact Hlen|].
  split; [intros p Hp; apply Hfr; simpl; lia|]. split; [exact Hdone|].
  intros Hpos Hrand k Hk. eexists. split; [apply Hdone, Hk|].
  apply Z.rem_bound_pos; [apply Hrand | exact Hpos].
Qed.

Lemma RandomArray_stores_remainders_witness :
  ∃ m', RandomArray nat (λ s, (Z.of_nat s * 1000, S s)%Z) 1 3 256%Z 5 [9; 9; 9; 9; 9]%Z
        = Ok (8, m') ∧
        m' !! (1 + 2) = Some 88%Z ∧ m' !! 0 = Some 9%Z.
Proof.
  destruct (RandomArray_stores_remainders nat (λ s, (Z.of_nat s * 1000, S s)%Z)
              1 3 256%Z 5 [9; 9; 9; 9; 9]%Z)
    as (m' & Hrun & _ & Hfr & Hval & _); [discriminate | simpl; lia |].
  exists m'. split; [exact Hrun|].
  split; [rewrite (Hval 2) by lia; reflexivity | apply (Hfr 0); lia].
Defined.

(** ** The verdict of [TestScanBlock] *)

Lemma compare_loop_spec hostGPU outCPU m todo : ∀ i,
  hostGPU + i + todo ≤ length m → outCPU + i + todo ≤ length m →
  ∃ v, compare_loop todo hostGPU outCPU i m = Ok v ∧
       (v = Passed ∨ v = ScanFailed) ∧
       (v = Passed ↔ ∀ k, i ≤ k < i + todo → m !! (hostGPU + k) = m !! (outCPU + k)).
Proof.
  induction todo as [|todo IH]; intros i Hg Hc.
  - exists Passed. split; [reflexivity|]. split; [left; reflexivity|].
    split; [intros _ k Hk; lia | reflexivity].
  - simpl.
    destruct (lookup_lt_is_Some_2 m (hostGPU + i) ltac:(lia)) as [g Hgv].
    destruct (lookup_lt_is_Some_2 m (outCPU + i) ltac:(lia)) as [c Hcv].
    unfold load. rewrite Hgv, Hcv. run_bind.
    destruct (decide (g ≠ c)) as [Hne|Heq].
    + exists ScanFailed. split; [reflexivity|]. split; [right; reflexivity|].
      split; [discriminate|].
      intros H. exfalso. apply Hne.
      specialize (H i ltac:(lia)). rewrite Hgv, Hcv in H. congruence.
    + destruct (IH (S i) ltac:(lia) ltac:(lia)) as (v & Hrun & Hcases & Hv).
      exists v. split; [exact Hrun|]. split; [exact Hcases|]. rewrite Hv. split.
      * intros H k Hk. destruct (decide (k = i)) as [->|Hki].
        -- rewrite Hgv, Hcv. f_equal. apply dec_stable. exact Heq.
        -- apply H. lia.
      * intros H k Hk. apply H. lia.
Qed.

Lemma TestScanBlock_input_index_store (rng : Type) (rand : rng → Z * rng) s junk N :
  (Z.of_nat N < 2 ^ 31)%Z →
  TestScanBlock_input rng rand s junk N = Ok (index_store junk N).
Proof. apply TestScanBlock_input_eq. Qed.

(** The run of [TestScanBlock] once both functions have returned: it ends
    as the comparison of [hostGPU] with [outCPU] does. *)
Lemma TestScanBlock_runs (rng : Type) (rand : rng → Z * rng)
    (pfnScanCPU : nat → nat → nat → Z → list Z → result (list Z))
    (pfnScanGPU : list Z → list Z → nat → Z → option (list Z))
    (s : rng) (junk : nat → Z) (N : nat) (numThreads : Z) (m3 g : list Z) :
  (Z.of_nat N < 2 ^ 31)%Z →
  pfnScanCPU N 0 N numThreads (index_store junk N) = Ok m3 →
  length m3 = 3 * N →
  pfnScanGPU (repeat 0%Z N) (take N m3) N numThreads = Some g →
  N ≤ length g →
  ∃ v m4, TestScanBlock rng rand pfnScanCPU pfnScanGPU s junk N numThreads
          = Ok (v, m4) ∧
    (v = Passed ∨ v = ScanFailed) ∧
    (v = Passed ↔ ∀ k, k < N → g !! k = m3 !! (N + k)).
Proof.
  intros HN Hcpu Hlen3 Hgpu Hleng. unfold TestScanBlock. cbv zeta.
  rewrite TestScanBlock_input_index_store by exact HN.
  run_bind. rewrite Hcpu. run_bind.
  unfold read_block. rewrite decide_True by lia. run_bind.
  rewrite drop_0, Hgpu.
  assert (Hlt : length (take N g) = N) by (rewrite length_take; lia).
  destruct (write_block m3 (2 * N) (take N g)) as [m4| |] eqn:Hw;
    [| exfalso; unfold write_block in Hw; rewrite decide_True in Hw by lia;
       discriminate Hw..].
  destruct (write_block_lookup _ _ _ _ Hw) as [Hlen4 Hlook]. rewrite Hlt in Hlook.
  run_bind.
  destruct (compare_loop_spec (2 * N) N m4 N 0 ltac:(lia) ltac:(lia))
    as (v & Hcmp & Hcases & Hv).
  rewrite Hcmp. run_bind. exists v, m4. split; [reflexivity|].
  split; [exact Hcases|].
  rewrite Hv. split.
  - intros H k Hk. specialize (H k ltac:(lia)). rewrite !Hlook in H.
    rewrite decide_True in H by lia. rewrite decide_False in H by lia.
    replace (2 * N + k - 2 * N) with k in H by lia.
    rewrite lookup_take_lt in H by exact Hk. exact H.
  - intros H k Hk. rewrite !Hlook.
    rewrite decide_True by lia. rewrite decide_False by lia.
    replace (2 * N + k - 2 * N) with k by lia.
    rewrite lookup_take_lt by lia. apply H. lia.
Qed.



(** ** The thread counts of [main] *)

(** X9. On a device that allows fewer than 2048 threads in a block, the
    loops of [main] end and test 256, 512 and 1024 threads, as far as the
    device allows them, and no other thread count: never 128. *)
Theorem main_tests_256_512_1024 (fuel : nat) (maxThreads : Z) :
  3 ≤ fuel → (maxThreads < 2048)%Z →
  ∃ l, main_numThreads fuel 256%Z maxThreads = Ok l ∧
    ∀ t, t ∈ l ↔ (t = 256%Z ∨ t = 512%Z ∨ t = 1024%Z) ∧ (t <= maxThreads)%Z.
Proof.
  intros Hfuel Hmax.
  destruct fuel as [|[|[|fuel]]]; [lia..|]. clear Hfuel.
  change (wrap32 (256 * 2)) with 512%Z.
  unfold main_numThreads; fold main_numThreads.
  change (wrap32 (256 * 2)) with 512%Z.
  change (wrap32 (512 * 2)) with 1024%Z.
  change (wrap32 (1024 * 2)) with 2048%Z.
  assert (Hend : main_numThreads fuel 2048%Z maxThreads = Ok []).
  { destruct fuel; simpl; rewrite decide_False by lia; reflexivity. }
  rewrite Hend.
  destruct (decide (256 <= maxThreads)%Z) as [H256|H256];
    [|exists []; split; [reflexivity|]; intros t; rewrite elem_of_nil; lia].
  destruct (decide (512 <= maxThreads)%Z) as [H512|H512];
    [|exists [256%Z]; split; [reflexivity|]; intros t;
      rewrite list_elem_of_singleton; lia].
  destruct (decide (1024 <= maxThreads)%Z) as [H1024|H1024];
    [|exists [256%Z; 512%Z]; split; [reflexivity|]; intros t;
      rewrite !elem_of_cons, elem_of_nil; lia].
  exists [256%Z; 512%Z; 1024%Z]. split; [reflexivity|]. intros t.
  rewrite !elem_of_cons, elem_of_nil. lia.
Qed.

Lemma main_tests_256_512_1024_witness :
  ∃ l, main_numThreads 5 256%Z 1024%Z = Ok l ∧ (512%Z ∈ l ∧ ¬ 128%Z ∈ l).
Proof.
  destruct (main_tests_256_512_1024 5 1024%Z) as (l & Hrun & Hl); [lia | lia |].
  exists l. split; [exact Hrun|]. split.
  - apply Hl. lia.
  - intros H. apply Hl in H. lia.
Defined.

(** ** The grid of the kernels *)


Lemma block_loop_done f fuel B N i inp out :
  ¬ i < N → block_loop f fuel B N i inp out = Ok out.
Proof. intros Hi. destruct fuel; simpl; rewrite decide_False by exact Hi; reflexivity. Qed.

Section BlockLoop.
Variables (f : nat → list Z → list Z) (B N n : nat) (inp : list Z).
Hypothesis Hf : ∀ i s, length (f i s) = length s.
Hypothesis HB : 0 < B.
Hypothesis Hup : rounds_up B N n.

Lemma block_round_lookup i out :
  i + B ≤ length inp → i + B ≤ length out →
  ∃ out', block_round f B i inp out = Ok out' ∧
    length out' = length out ∧
    ∀ k, out' !! k = if decide (i ≤ k < i + B)
                     then f i (take B (drop i inp)) !! (k - i)
                     else out !! k.
Proof.
  intros Hin Hout. unfold block_round, read_block.
  rewrite decide_True by exact Hin. run_bind.
  assert (Hlen : length (f i (take B (drop i inp))) = B)
    by (rewrite Hf, length_take, length_drop; lia).
  destruct (write_block out i (f i (take B (drop i inp)))) as [out'| |] eqn:Hw;
    [| exfalso; unfold write_block in Hw; rewrite Hlen in Hw;
       rewrite decide_True in Hw by exact Hout; discriminate Hw..].
  destruct (write_block_lookup _ _ _ _ Hw) as [Hlen' Hlook].
  exists out'. split; [reflexivity|]. split; [exact Hlen'|].
  intros k. rewrite Hlook, Hlen. reflexivity.
Qed.

Lemma block_round_fault i out :
  length inp < i + B ∨ length out < i + B →
  block_round f B i inp out = Fault.
Proof.
  intros Hshort. unfold block_round, read_block.
  destruct (decide (i + B ≤ length inp)) as [Hin|Hin]; [|reflexivity].
  run_bind. unfold write_block.
  rewrite Hf, length_take, length_drop.
  rewrite decide_False by lia. reflexivity.
Qed.

Lemma block_loop_cases fuel : ∀ q out,
  n - q ≤ fuel →
  (n * B ≤ length inp ∧ n * B ≤ length out →
   ∃ out', block_loop f fuel B N (q * B) inp out = Ok out' ∧
     length out' = length out ∧
     ∀ k, out' !! k = if decide (q * B ≤ k < n * B)
                      then block_target f B inp k else out !! k)
  ∧ (q < n → length inp < n * B ∨ length out < n * B →
     block_loop f fuel B N (q * B) inp out = Fault).
Proof.
  induction fuel as [|fuel IH]; intros q out Hfuel; simpl;
    destruct (decide (q * B < N)) as [Hlt|Hge];
    try (apply (rounds_up_periods B N n q HB Hup) in Hlt);
    try (assert (Hqn : ¬ q < n)
           by (intros Hq; apply Hge, (rounds_up_periods B N n q HB Hup), Hq)).
  - lia.
  - split; [|lia]. intros _. exists out. split; [reflexivity|].
    split; [reflexivity|]. intros k.
    pose proof (Nat.mul_le_mono_r n q B ltac:(lia)).
    rewrite decide_False by lia. reflexivity.
  - pose proof (next_period_fits B n q Hlt) as Hnext.
    destruct (decide (q * B + B ≤ length inp ∧ q * B + B ≤ length out))
      as [[Hfi Hfo]|Hfit].
    + destruct (block_round_lookup (q * B) out Hfi Hfo)
        as (out1 & Hrun & Hlen1 & Hlook1).
      rewrite Hrun. run_bind. replace (q * B + B) with (S q * B) by lia.
      destruct (IH (S q) out1 ltac:(lia)) as [Hok Hfault].
      rewrite Hlen1 in Hok, Hfault. split.
      * intros Hfits. destruct (Hok Hfits) as (out' & Hrun' & Hlen' & Hlook').
        exists out'. split; [exact Hrun'|]. split; [exact Hlen'|].
        intros k. rewrite Hlook'.
        destruct (decide (S q * B ≤ k < n * B)) as [Hk|Hk].
        -- rewrite decide_True by lia. reflexivity.
        -- rewrite Hlook1.
           destruct (decide (q * B ≤ k < q * B + B)) as [Hseg|Hseg].
           ++ rewrite decide_True by lia. unfold block_target.
              destruct (segment_index B q k Hseg) as [-> ->]. reflexivity.
           ++ rewrite decide_False by lia. reflexivity.
      * intros _ Hshort. destruct (decide (S q < n)) as [Hmore|Hlast];
          [apply Hfault; [exact Hmore | exact Hshort]|].
        exfalso. pose proof (Nat.mul_le_mono_r n (S q) B ltac:(lia)). lia.
    + rewrite block_round_fault by lia.
      split; [intros [? ?]; lia | reflexivity].
  - split; [|lia]. intros _. exists out. split; [reflexivity|].
    split; [reflexivity|]. intros k.
    pose proof (Nat.mul_le_mono_r n q B ltac:(lia)).
    rewrite decide_False by lia. reflexivity.
Qed.

(** The block [b] of the grid, and the whole grid against block 0. *)
Lemma block_kernel_cases b out :
  (n * B ≤ length inp ∧ n * B ≤ length out →
   ∃ out', block_loop f N B N (b * B) inp out = Ok out' ∧
     length out' = length out ∧
     ∀ k, out' !! k = if decide (b * B ≤ k < n * B)
                      then block_target f B inp k else out !! k)
  ∧ (b < n → length inp < n * B ∨ length out < n * B →
     block_loop f N B N (b * B) inp out = Fault)
  ∧ (n ≤ b → block_loop f N B N (b * B) inp out = Ok out).
Proof.
  pose proof (rounds_up_fuel B N n HB Hup) as Hfuel.
  destruct (block_loop_cases N b out ltac:(lia)) as [Hok Hfault].
  split; [exact Hok|]. split; [exact Hfault|].
  intros Hb. apply block_loop_done.
  intros Hlt. apply (rounds_up_periods B N n b HB Hup) in Hlt. lia.
Qed.

Lemma block_0_absorbs b out o1 :
  block_loop f N B N (0 * B) inp out = Ok o1 →
  block_loop f N B N (b * B) inp o1 = Ok o1.
Proof.
  intros H0.
  destruct (decide (n * B ≤ length inp ∧ n * B ≤ length out)) as [Hfits|Hno].
  - destruct (block_kernel_cases 0 out) as [Hok _].
    destruct (Hok Hfits) as (o & Hrun & Hlen & Hlook).
    rewrite Hrun in H0. injection H0 as ->.
    destruct (block_kernel_cases b o1) as [Hokb _].
    destruct Hokb as (o' & Hrun' & Hlen' & Hlook'); [lia|].
    rewrite Hrun'. f_equal. apply list_eq. intros k. rewrite Hlook'.
    destruct (decide (b * B ≤ k < n * B)) as [Hk|Hk]; [|reflexivity].
    rewrite Hlook, decide_True by lia. reflexivity.
  - destruct (decide (0 < n)) as [Hn|Hn].
    + destruct (block_kernel_cases 0 out) as (_ & Hfault & _).
      rewrite Hfault in H0 by lia. discriminate H0.
    + exfalso. assert (n = 0) by lia. subst n. simpl in Hno. lia.
Qed.

Lemma block_0_overwrites b out o' :
  block_loop f N B N (b * B) inp out = Ok o' →
  block_loop f N B N (0 * B) inp o' = block_loop f N B N (0 * B) inp out.
Proof.
  intros Hb.
  destruct (decide (n * B ≤ length inp ∧ n * B ≤ length out)) as [Hfits|Hno].
  - destruct (block_kernel_cases b out) as [Hok _].
    destruct (Hok Hfits) as (o & Hrun & Hlen & Hlook).
    rewrite Hrun in Hb. injection Hb as ->.
    destruct (block_kernel_cases 0 out) as [Hok0 _].
    destruct (Hok0 Hfits) as (o0 & Hrun0 & Hlen0 & Hlook0).
    destruct (block_kernel_cases 0 o') as [Hok1 _].
    destruct Hok1 as (o1 & Hrun1 & Hlen1 & Hlook1); [lia|].
    rewrite Hrun0, Hrun1. f_equal. apply list_eq. intros k.
    rewrite Hlook0, Hlook1, Hlook.
    destruct (decide (0 * B ≤ k < n * B)) as [Hk|Hk]; [reflexivity|].
    rewrite decide_False by lia. reflexivity.
  - destruct (decide (b < n)) as [Hbn|Hbn].
    + destruct (block_kernel_cases b out) as (_ & Hfault & _).
      rewrite Hfault in Hb by lia. discriminate Hb.
    + destruct (block_kernel_cases b out) as (_ & _ & Hskip).
      rewrite Hskip in Hb by lia. injection Hb as ->. reflexivity.
Qed.

Lemma block_never_out_of_fuel b out :
  block_loop f N B N (b * B) inp out ≠ OutOfFuel.
Proof.
  destruct (decide (n * B ≤ length inp ∧ n * B ≤ length out)) as [Hfits|Hno].
  - destruct (block_kernel_cases b out) as [Hok _].
    destruct (Hok Hfits) as (o & Hrun & _). rewrite Hrun. discriminate.
  - destruct (decide (b < n)) as [Hbn|Hbn].
    + destruct (block_kernel_cases b out) as (_ & Hfault & _).
      rewrite Hfault by lia. discriminate.
    + destruct (block_kernel_cases b out) as (_ & _ & Hskip).
      rewrite Hskip by lia. discriminate.
Qed.

Lemma run_grid_fixed blocks o1 :
  (∀ b, block_loop f N B N (b * B) inp o1 = Ok o1) →
  run_grid (λ b, block_loop f N B N (b * B) inp) blocks o1 = Ok o1.
Proof.
  intros Hfix. induction blocks as [|b blocks IH]; cbn [run_grid]; [reflexivity|].
  rewrite Hfix. run_bind. exact IH.
Qed.

Lemma run_grid_is_block_0 blocks : ∀ out,
  0 ∈ blocks →
  run_grid (λ b, block_loop f N B N (b * B) inp) blocks out
  = block_loop f N B N (0 * B) inp out.
Proof.
  induction blocks as [|b blocks IH]; intros out Hin; [inversion Hin|].
  cbn [run_grid]. destruct (decide (b = 0)) as [->|Hb].
  - destruct (block_loop f N B N (0 * B) inp out) as [o1| |] eqn:H0;
      [|reflexivity..].
    run_bind. apply run_grid_fixed. intros b. apply (block_0_absorbs b out), H0.
  - apply elem_of_cons in Hin as [Hin|Hin]; [congruence|].
    destruct (block_loop f N B N (b * B) inp out) as [o'| |] eqn:Hbk.
    + run_bind. rewrite (IH o' Hin). apply (block_0_overwrites b), Hbk.
    + run_bind. symmetry.
      destruct (decide (n * B ≤ length inp ∧ n * B ≤ length out)) as [Hfits|Hno].
      * destruct (block_kernel_cases b out) as [Hok _].
        destruct (Hok Hfits) as (o & Hrun & _). congruence.
      * destruct (decide (0 < n)) as [Hn|Hn].
        -- destruct (block_kernel_cases 0 out) as (_ & Hfault & _).
           apply Hfault; lia.
        -- exfalso. assert (n = 0) by lia. subst n. simpl in Hno. lia.
    + exfalso. exact (block_never_out_of_fuel b out Hbk).
Qed.
End BlockLoop.

(** The kernels of the file have that shape. *)
Lemma ScanGPUBlock_values_length scantype s :
  length (ScanGPUBlock_values scantype s) = length s.
Proof.
  unfold ScanGPUBlock_values, scanBlock.
  destruct scantype; rewrite ?length_imap; apply scanWarp_length.
Qed.

Lemma ScanGPUBlockShuffle_values_length scantype logBlockSize s :
  length (ScanGPUBlockShuffle_values scantype logBlockSize s) = length s.
Proof.
  unfold ScanGPUBlockShuffle_values, exclusive_scan_block, inclusive_scan_block,
    exclusive_scan_warp_shfl, inclusive_scan_warp_shfl.
  destruct scantype; rewrite ?length_imap; [|reflexivity].
  rewrite scan_warp_shfl_steps_eq. apply scanWarp_steps_length.
Qed.

Lemma ScanGPUBlock_loop_shape ahead scantype B N inp fuel : ∀ i out,
  ScanGPUBlock_loop fuel ahead scantype B N i inp out
  = block_loop (λ i s, ScanGPUBlock_overtaken (ahead i) scantype
                         (next_input B N inp i) (ScanGPUBlock_values scantype s))
               fuel B N i inp out.
Proof.
  induction fuel as [|fuel IH]; intros i out; simpl;
    destruct (decide (i < N)); try reflexivity.
  change (ScanGPUBlock_round ahead scantype B N i inp out)
    with (block_round (λ i s, ScanGPUBlock_overtaken (ahead i) scantype
                                (next_input B N inp i)
                                (ScanGPUBlock_values scantype s)) B i inp out).
  destruct (block_round _ B i inp out); [|reflexivity..]. run_bind. apply IH.
Qed.

Lemma ScanGPUBlockShuffle_loop_shape scantype logBlockSize B N inp fuel : ∀ i out,
  ScanGPUBlockShuffle_loop fuel scantype logBlockSize B N i inp out
  = block_loop (λ _, ScanGPUBlockShuffle_values scantype logBlockSize)
               fuel B N i inp out.
Proof.
  induction fuel as [|fuel IH]; intros i out; simpl;
    destruct (decide (i < N)); try reflexivity.
  change (ScanGPUBlockShuffle_round scantype logBlockSize B i inp out)
    with (block_round (λ _, ScanGPUBlockShuffle_values scantype logBlockSize)
                      B i inp out).
  destruct (block_round _ B i inp out); [|reflexivity..]. run_bind. apply IH.
Qed.

Lemma ScanGPUBlock_kernel_shape ahead scantype inp N cThreads :
  ∃ f, (∀ i s, length (f i s) = length s) ∧
    ∀ dev cBlocks out,
      launch dev (ScanGPUBlock_kernel ahead scantype inp N) cBlocks cThreads out
      = launch dev (λ b B, block_loop f N B N (b * B) inp) cBlocks cThreads out.
Proof.
  exists (λ i s, ScanGPUBlock_overtaken (ahead i) scantype
                   (next_input (Z.to_nat cThreads) N inp i)
                   (ScanGPUBlock_values scantype s)).
  split.
  - intros i s. rewrite ScanGPUBlock_overtaken_length.
    apply ScanGPUBlock_values_length.
  - intros dev cBlocks out. apply launch_ext. intros b o.
    apply ScanGPUBlock_loop_shape.
Qed.

Ltac shuffle_shape scantype logBlockSize :=
  exists (λ _ : nat, ScanGPUBlockShuffle_values scantype logBlockSize);
  split; [intros ?; apply ScanGPUBlockShuffle_values_length|];
  intros ? ? _; apply launch_ext; intros ? ?;
  apply ScanGPUBlockShuffle_loop_shape.

Lemma ScanGPUBlockShuffle_shape ahead scantype inp N cThreads :
  ∃ f, (∀ i s, length (f i s) = length s) ∧
    ∀ dev out, overtakes dev = ahead →
      ScanGPUBlockShuffle dev scantype out inp N cThreads
      = launch dev (λ b B, block_loop f N B N (b * B) inp)
               (cBlocks_of N) cThreads out.
Proof.
  unfold ScanGPUBlockShuffle.
  destruct (decide (cThreads = 128%Z)) as [_|_]; [shuffle_shape scantype 7|].
  destruct (decide (cThreads = 256%Z)) as [_|_]; [shuffle_shape scantype 8|].
  destruct (decide (cThreads = 512%Z)) as [_|_]; [shuffle_shape scantype 9|].
  destruct (decide (cThreads = 1024%Z)) as [_|_]; [shuffle_shape scantype 10|].
  destruct (ScanGPUBlock_kernel_shape ahead scantype inp N cThreads)
    as (f & Hf & Hshape).
  exists f. split; [exact Hf|]. intros dev out ->. apply Hshape.
Qed.

Section Launch.
Variables (dev : device) (f : nat → list Z → list Z) (N : nat) (inp : list Z).
Hypothesis Hf : ∀ i s, length (f i s) = length s.
Hypothesis Hdev : runs_every_block dev.


Lemma launch_overruns cBlocks cThreads out n :
  (0 < cBlocks)%Z → (0 < cThreads <= maxThreadsPerBlock dev)%Z → 0 < N →
  rounds_up (Z.to_nat cThreads) N n →
  length inp < n * Z.to_nat cThreads ∨ length out < n * Z.to_nat cThreads →
  launch dev (λ b B, block_loop f N B N (b * B) inp) cBlocks cThreads out
  = Ran Fault.
Proof.
  intros Hb Ht HN Hup Hshort. unfold launch. rewrite decide_True by lia.
  f_equal.
  rewrite (run_grid_is_block_0 f (Z.to_nat cThreads) N n inp Hf ltac:(lia) Hup).
  - destruct (block_kernel_cases f (Z.to_nat cThreads) N n inp Hf ltac:(lia) Hup 0 out)
      as (_ & Hfault & _).
    apply Hfault; [|exact Hshort].
    apply (rounds_up_periods (Z.to_nat cThreads) N n 0 ltac:(lia) Hup). simpl. exact HN.
  - rewrite (Hdev _). apply elem_of_seq. lia.
Qed.
End Launch.



(** X11. Neither driver cuts the last segment short: with at least 150
    elements and an accepted block size, when [in] or [out] ends before
    [N] rounded up to a multiple of the block size, as a buffer of exactly
    [N] cells does when [N] is no multiple, a block accesses memory
    outside the buffer. *)
Theorem drivers_overrun_short_buffers (dev : device) (scantype : ScanType)
    (out inp : list Z) (N n : nat) (cThreads : Z) :
  runs_every_block dev →
  150 ≤ N → (Z.of_nat N / 150 < 2 ^ 31)%Z →
  (0 < cThreads <= maxThreadsPerBlock dev)%Z →
  rounds_up (Z.to_nat cThreads) N n →
  length inp < n * Z.to_nat cThreads ∨ length out < n * Z.to_nat cThreads →
  ScanGPUBlock dev scantype out inp N cThreads = Ran Fault
  ∧ ScanGPUBlockShuffle dev scantype out inp N cThreads = Ran Fault.
Proof.
  intros Hdev HN Hint Ht Hup Hshort.
  pose proof (cBlocks_of_positive N HN Hint) as Hb. split.
  - unfold ScanGPUBlock.
    destruct (ScanGPUBlock_kernel_shape (overtakes dev) scantype inp N cThreads)
      as (f & Hf & Hshape).
    rewrite Hshape.
    apply (launch_overruns dev f N inp Hf Hdev _ _ out n); (assumption || lia).
  - destruct (ScanGPUBlockShuffle_shape (overtakes dev) scantype inp N cThreads)
      as (f & Hf & Hshape).
    rewrite Hshape by reflexivity.
    apply (launch_overruns dev f N inp Hf Hdev _ _ out n); (assumption || lia).
Qed.

Lemma drivers_overrun_short_buffers_witness :
  ScanGPUBlock reference_device Exclusive (repeat 0%Z 200) (repeat 1%Z 200) 200 128%Z
  = Ran Fault
  ∧ ScanGPUBlockShuffle reference_device Exclusive (repeat 0%Z 200) (repeat 1%Z 200)
      200 128%Z = Ran Fault.
Proof.
  apply (drivers_overrun_short_buffers reference_device Exclusive _ _ 200 2 128%Z).
  - intros n. reflexivity.
  - lia.
  - vm_compute. reflexivity.
  - simpl. lia.
  - unfold rounds_up. vm_compute. lia.
  - left. vm_compute. lia.
Defined.

(** ** When the drivers run *)

Lemma cBlocks_of_min N :
  (Z.of_nat N / 150 < 2 ^ 31)%Z →
  cBlocks_of N = Z.min (Z.of_nat N / 150) 150.
Proof.
  intros Hint. unfold cBlocks_of.
  assert (0 <= Z.of_nat N / 150)%Z by (apply Z.div_pos; lia).
  rewrite wrap32_small by (unfold in_range; lia).
  destruct (decide _); lia.
Qed.

(** X12. For a length in the range the block count is computed in, either
    driver asks for [min (N / 150) 150] blocks, and the device refuses the
    launch exactly when [N] is below 150 or the thread count is not one
    the device accepts; nothing else about [N] or the thread count keeps
    the kernel from running. *)
Theorem drivers_refused_iff (dev : device) (scantype : ScanType)
    (out inp : list Z) (N : nat) (cThreads : Z) :
  (Z.of_nat N / 150 < 2 ^ 31)%Z →
  cBlocks_of N = Z.min (Z.of_nat N / 150) 150
  ∧ (ScanGPUBlock dev scantype out inp N cThreads = Refused
     ↔ N < 150 ∨ (cThreads <= 0)%Z ∨ (maxThreadsPerBlock dev < cThreads)%Z)
  ∧ (ScanGPUBlockShuffle dev scantype out inp N cThreads = Refused
     ↔ N < 150 ∨ (cThreads <= 0)%Z ∨ (maxThreadsPerBlock dev < cThreads)%Z).
Proof.
  intros Hint. pose proof (cBlocks_of_min N Hint) as Hmin.
  split; [exact Hmin|].
  assert (Hpos : (0 < cBlocks_of N)%Z ↔ 150 ≤ N).
  { rewrite Hmin. split; intros H.
    - destruct (decide (150 ≤ N)) as [?|Hsmall]; [assumption|].
      rewrite Z.div_small in H by lia. lia.
    - assert (1 <= Z.of_nat N / 150)%Z by (apply Z.div_le_lower_bound; lia). lia. }
  assert (Hlaunch : ∀ k,
    launch dev k (cBlocks_of N) cThreads out = Refused
    ↔ N < 150 ∨ (cThreads <= 0)%Z ∨ (maxThreadsPerBlock dev < cThreads)%Z).
  { intros k. unfold launch. destruct (decide _) as [Hok|Hno].
    - split; [discriminate|]. intros H. exfalso. lia.
    - split; [|reflexivity]. intros _.
      destruct (decide (150 ≤ N)) as [HN|HN]; [|lia].
      apply Hpos in HN. lia. }
  split; [apply Hlaunch|].
  unfold ScanGPUBlockShuffle.
  repeat (destruct (decide (cThreads = _)); [apply Hlaunch|]). apply Hlaunch.
Qed.

Lemma drivers_refused_iff_witness :
  ScanGPUBlock reference_device Inclusive [] [] 149 256%Z = Refused
  ∧ ScanGPUBlockShuffle reference_device Inclusive [] [] 300 2048%Z = Refused.
Proof.
  destruct (drivers_refused_iff reference_device Inclusive [] [] 149 256%Z)
    as (_ & H1 & _); [vm_compute; reflexivity|].
  destruct (drivers_refused_iff reference_device Inclusive [] [] 300 2048%Z)
    as (_ & _ & H2); [vm_compute; reflexivity|].
  split; [apply H1; left; lia | apply H2; right; right; simpl; lia].
Defined.

(** ** The drivers on whole segments

    These results rest on the block scan primitives as they are written
    above after the specification. *)

(** X13. With at least 150 elements, a whole number of segments and a
    block of at most 1024 threads that the device accepts, the driver
    [ScanGPUBlock] runs to the end, whatever the number of blocks and their
    order.  Position [q * B + r] then holds the scan of segment [q] at
    offset [r], a scan that starts afresh in every segment, except where a
    load of the exclusive scan was overtaken: in a segment that is not the
    last, at the first thread [r] of a warp other than the first, when the
    warp before is ahead, the position holds the input [S q * B + r - 1] of
    the next segment.  With 128, 256, 512 or 1024 threads the driver
    [ScanGPUBlockShuffle] leaves the scan of every segment in every
    position; the two drivers leave the same array for the inclusive scan,
    for a single segment and on a device whose warps are never ahead. *)
Theorem drivers_scan_every_segment (dev : device) (scantype : ScanType)
    (B n : nat) (inp out : list Z) :
  runs_every_block dev →
  0 < B → B ≤ warpSize * warpSize →
  (Z.of_nat B <= maxThreadsPerBlock dev)%Z →
  150 ≤ n * B → (Z.of_nat (n * B) / 150 < 2 ^ 31)%Z →
  length inp = n * B → length out = n * B →
  Forall in_range inp →
  ∃ shared,
    ScanGPUBlock dev scantype out inp (n * B) (Z.of_nat B) = Ran (Ok shared) ∧
    length shared = n * B ∧
    (∀ q r, r < B → q < n →
       shared !! (q * B + r)
       = Some (if bool_decide (scantype = Exclusive ∧ r ≠ 0 ∧ r mod warpSize = 0
                               ∧ S q < n) && overtakes dev (q * B) r
               then cell inp 0 (S q * B + (r - 1))
               else scan_value scantype (cell inp 0) (q * B) r)) ∧
    (B = 128 ∨ B = 256 ∨ B = 512 ∨ B = 1024 →
     ∃ shfl,
       ScanGPUBlockShuffle dev scantype out inp (n * B) (Z.of_nat B)
       = Ran (Ok shfl) ∧
       length shfl = n * B ∧
       (∀ q r, r < B → q < n →
          shfl !! (q * B + r) = Some (scan_value scantype (cell inp 0) (q * B) r)) ∧
       (scantype = Inclusive ∨ n = 1 ∨ (∀ i tid, overtakes dev i tid = false) →
        shared = shfl)).
Proof.
  intros Hdev HB HBmax Hmax HN Hint Hinp Hout Hrange.
  destruct (launch_ScanGPUBlock_cells dev (overtakes dev) scantype B n inp out
              Hdev HB HBmax Hmax HN Hint Hinp Hout Hrange)
    as (shared & Hrun & Hlen & Hval).
  exists shared. split; [exact Hrun|]. split; [exact Hlen|]. split; [exact Hval|].
  intros Hsize.
  destruct (ScanGPUBlockShuffle_periodic dev scantype B n inp out
              Hdev Hsize Hmax HN Hint Hinp Hout Hrange)
    as (shfl & Hrun' & Hlen' & Hval').
  exists shfl. split; [exact Hrun'|]. split; [exact Hlen'|]. split; [exact Hval'|].
  intros Hquiet. apply list_eq_lookup; [lia|].
  intros k Hk. rewrite Hlen in Hk.
  pose proof (Nat.div_mod_eq k B) as Hdm.
  pose proof (Nat.mod_upper_bound k B ltac:(lia)) as Hr.
  assert (Hq : k / B < n) by (apply Nat.Div0.div_lt_upper_bound; lia).
  replace k with (k / B * B + k mod B) by lia.
  rewrite (Hval _ _ Hr Hq), (Hval' _ _ Hr Hq). f_equal.
  destruct Hquiet as [-> | [-> | Hq0]].
  - rewrite bool_decide_eq_false_2 by (intros [H _]; discriminate H). reflexivity.
  - rewrite bool_decide_eq_false_2 by lia. reflexivity.
  - rewrite Hq0, andb_false_r. reflexivity.
Qed.

Lemma drivers_scan_every_segment_witness :
  ∃ shared,
    ScanGPUBlock racing_device Exclusive (repeat 0%Z 256) (repeat 1%Z 256)
                 (2 * 128) (Z.of_nat 128) = Ran (Ok shared) ∧
    shared !! (0 * 128 + 32) = Some 1%Z ∧
    shared !! (1 * 128 + 32) = Some 32%Z.
Proof.
  destruct (drivers_scan_every_segment racing_device Exclusive 128 2
              (repeat 1%Z 256) (repeat 0%Z 256))
    as (shared & Hrun & _ & Hval & _).
  - intros n. reflexivity.
  - lia.
  - vm_compute. lia.
  - vm_compute. discriminate.
  - vm_compute. lia.
  - vm_compute. reflexivity.
  - reflexivity.
  - reflexivity.
  - apply (bool_decide_unpack _). vm_compute. exact I.
  - exists shared. split; [exact Hrun|].
    rewrite (Hval 0 32), (Hval 1 32) by lia.
    split; vm_compute; reflexivity.
Defined.

(** ** The test that [main] runs *)

Lemma ScanCPUBlock_scanned scantype x (B n inp out : nat) (m : list Z) :
  B = 256 ∨ B = 512 ∨ B = 1024 →
  out ≤ inp ∨ inp + n * B ≤ out →
  (∀ k, k < n * B → m !! (inp + k) = Some (x k)) →
  out + n * B ≤ length m →
  ∃ m', ScanCPUBlock scantype out inp (n * B) (Z.of_nat B) m = Ok m' ∧
        scanned (periodic_value scantype B x) out (n * B) m m'.
Proof.
  intros HB Halias Hin Hout.
  assert (Hrun : ScanCPUBlock scantype out inp (n * B) (Z.of_nat B) m
                 = match scantype with
                   | Exclusive => ScanExclusiveCPUPeriodic B out inp (n * B) m
                   | Inclusive => ScanInclusiveCPUPeriodic B out inp (n * B) m
                   end).
  { unfold ScanCPUBlock. destruct HB as [-> | [-> | ->]].
    - rewrite decide_True by reflexivity. reflexivity.
    - rewrite decide_False, decide_True by (reflexivity || discriminate). reflexivity.
    - rewrite !decide_False, decide_True by (reflexivity || discriminate). reflexivity. }
  rewrite Hrun. destruct scantype.
  - apply ScanInclusiveCPUPeriodic_scanned; assumption.
  - apply ScanExclusiveCPUPeriodic_scanned; assumption.
Qed.

Lemma index_store_length junk N : length (index_store junk N) = 3 * N.
Proof.
  unfold index_store. rewrite length_app, !length_fmap, !length_seq. lia.
Qed.

Lemma index_store_lookup junk N k :
  k < N → index_store junk N !! k = Some (Z.of_nat k).
Proof.
  intros Hk. unfold index_store.
  rewrite lookup_app_l by (rewrite length_fmap, length_seq; exact Hk).
  rewrite list_lookup_fmap, lookup_seq_lt by exact Hk. reflexivity.
Qed.

Lemma supported_block_size B :
  B = 256 ∨ B = 512 ∨ B = 1024 → 0 < B ∧ B ≤ warpSize * warpSize.
Proof. intros [-> | [-> | ->]]; vm_compute; lia. Qed.

Section MainTest.
Variables (rng : Type) (rand : rng → Z * rng).
Variables (scantype : ScanType) (B n : nat).
Variables (s : rng) (junk : nat → Z).
Variable pfnScanGPU : list Z → list Z → nat → Z → option (list Z).
Hypothesis HB : B = 256 ∨ B = 512 ∨ B = 1024.
Hypothesis Hint : (Z.of_nat (n * B) < 2 ^ 31)%Z.
Hypothesis Hscan : ∀ inp out,
  length inp = n * B → length out = n * B → Forall in_range inp →
  ∃ g, pfnScanGPU out inp (n * B) (Z.of_nat B) = Some g ∧
    length g = n * B ∧
    ∀ q r, r < B → q < n →
      g !! (q * B + r) = Some (scan_value scantype (cell inp 0) (q * B) r).

(** A GPU function that leaves the scan of every segment agrees with
    [ScanCPUBlock] on the input of the test. *)
Lemma TestScanBlock_agreement :
  ∃ m3 g,
    ScanCPUBlock scantype (n * B) 0 (n * B) (Z.of_nat B) (index_store junk (n * B))
    = Ok m3 ∧
    length m3 = 3 * (n * B) ∧
    pfnScanGPU (repeat 0%Z (n * B)) (take (n * B) m3) (n * B) (Z.of_nat B)
    = Some g ∧
    length g = n * B ∧
    ∀ k, k < n * B → g !! k = m3 !! (n * B + k).
Proof.
  destruct (supported_block_size B HB) as [Hpos Hsmall].
  set (N := n * B) in *. set (m2 := index_store junk N).
  pose proof (index_store_length junk N) as Hlen2. fold m2 in Hlen2.
  assert (Hin : ∀ k, k < N → m2 !! (0 + k) = Some (cell m2 0 k))
    by (intros k Hk; apply (cell_lookup m2 0 N); lia).
  destruct (ScanCPUBlock_scanned scantype (cell m2 0) B n 0 N m2 HB
              ltac:(fold N; lia) Hin ltac:(fold N; lia))
    as (m3 & Hcpu & Hlen3 & Hfr3 & Hdone3).
  fold N in Hcpu, Hfr3, Hdone3.
  assert (Hsame : ∀ k, k < N → take N m3 !! k = Some (Z.of_nat k)).
  { intros k Hk. rewrite lookup_take_lt, Hfr3 by lia.
    apply index_store_lookup, Hk. }
  assert (Hrange : Forall in_range (take N m3)).
  { apply Forall_lookup. intros k v Hv.
    assert (Hk : k < N).
    { apply lookup_lt_Some in Hv. rewrite length_take in Hv. lia. }
    rewrite (Hsame k Hk) in Hv. injection Hv as <-. unfold in_range. lia. }
  destruct (Hscan (take N m3) (repeat 0%Z N))
    as (g & Hgpu & Hleng & Hval);
    [rewrite length_take; lia | apply repeat_length | exact Hrange |].
  exists m3, g. split; [exact Hcpu|]. split; [lia|]. split; [exact Hgpu|].
  split; [exact Hleng|].
  intros k Hk. pose proof (Nat.div_mod_eq k B) as Hdm.
  pose proof (Nat.mod_upper_bound k B ltac:(lia)) as Hr.
  assert (Hq : k / B < n).
  { apply Nat.Div0.div_lt_upper_bound. fold N. lia. }
  rewrite (Hdone3 k Hk).
  replace k with (k / B * B + k mod B) at 1 by lia.
  rewrite (Hval (k / B) (k mod B) Hr Hq). f_equal.
  unfold periodic_value.
  pose proof (next_period_fits B n (k / B) Hq) as Hnext. fold N in Hnext.
  assert (Hcell : ∀ j, j < N → cell (take N m3) 0 j = cell m2 0 j).
  { intros j Hj. unfold cell. rewrite !Nat.add_0_l, (Hsame j Hj).
    unfold m2. rewrite (index_store_lookup junk N j Hj). reflexivity. }
  unfold scan_value. destruct scantype; f_equal; apply rsum_ext;
    intros j Hj; apply Hcell; lia.
Qed.

Lemma TestScanBlock_passes_with :
  ∃ m4, TestScanBlock rng rand (ScanCPUBlock scantype) pfnScanGPU s junk
          (n * B) (Z.of_nat B) = Ok (Passed, m4).
Proof.
  destruct TestScanBlock_agreement as (m3 & g & Hcpu & Hlen3 & Hgpu & Hleng & Hsame).
  destruct (TestScanBlock_runs rng rand (ScanCPUBlock scantype) pfnScanGPU s junk
              (n * B) (Z.of_nat B) m3 g Hint Hcpu Hlen3 Hgpu ltac:(lia))
    as (v & m4 & Hrun & _ & Hv).
  exists m4. rewrite Hrun. do 2 f_equal. apply Hv. exact Hsame.
Qed.
End MainTest.

(** X14. The tests of [main] pass: for 256, 512 or 1024 threads that the
    device accepts and a whole number of segments, of at least 150
    elements in all and no more than an [int] counts, [TestScanBlock]
    with [ScanCPUBlock] as the reference passes for the inclusive scan of
    the driver [ScanGPUBlock] and for both scans of the driver
    [ScanGPUBlockShuffle], whatever the generator, the contents of the
    buffers [malloc] returned and the order of the warps.  (The test of
    the exclusive scan of [ScanGPUBlock] is disabled in [main].)  A driver
    is seen through the function pointer [pfnScanGPU]: when its kernel
    runs to the end, the test reads what the kernel left in [outGPU]. *)
Theorem TestScanBlock_passes (rng : Type) (rand : rng → Z * rng)
    (dev : device) (scantype : ScanType) (B n : nat) (s : rng) (junk : nat → Z)
    (pfnBlock pfnShuffle : list Z → list Z → nat → Z → option (list Z)) :
  runs_every_block dev →
  B = 256 ∨ B = 512 ∨ B = 1024 →
  (Z.of_nat B <= maxThreadsPerBlock dev)%Z →
  150 ≤ n * B → (Z.of_nat (n * B) < 2 ^ 31)%Z →
  (∀ o i g, ScanGPUBlock dev Inclusive o i (n * B) (Z.of_nat B) = Ran (Ok g) →
            pfnBlock o i (n * B) (Z.of_nat B) = Some g) →
  (∀ o i g, ScanGPUBlockShuffle dev scantype o i (n * B) (Z.of_nat B) = Ran (Ok g) →
            pfnShuffle o i (n * B) (Z.of_nat B) = Some g) →
  (∃ m4, TestScanBlock rng rand (ScanCPUBlock Inclusive) pfnBlock s junk
           (n * B) (Z.of_nat B) = Ok (Passed, m4))
  ∧ (∃ m4, TestScanBlock rng rand (ScanCPUBlock scantype) pfnShuffle s junk
             (n * B) (Z.of_nat B) = Ok (Passed, m4)).
Proof.
  intros Hdev HB Hmax HN Hint Hblock Hshfl.
  destruct (supported_block_size B HB) as [Hpos Hsmall].
  assert (Hdiv : (Z.of_nat (n * B) / 150 < 2 ^ 31)%Z)
    by (apply Z.div_lt_upper_bound; lia).
  split.
  - apply (TestScanBlock_passes_with rng rand Inclusive B n s junk pfnBlock HB Hint).
    intros inp out Hinp Hout Hrange.
    destruct (ScanGPUBlock_periodic dev Inclusive B n inp out Hdev Hpos Hsmall
                Hmax HN Hdiv Hinp Hout Hrange ltac:(left; reflexivity))
      as (g & Hrun & Hlen & Hval).
    exists g. split; [apply Hblock, Hrun|]. split; assumption.
  - apply (TestScanBlock_passes_with rng rand scantype B n s junk pfnShuffle HB Hint).
    intros inp out Hinp Hout Hrange.
    destruct (ScanGPUBlockShuffle_periodic dev scantype B n inp out Hdev
                ltac:(tauto) Hmax HN Hdiv Hinp Hout Hrange)
      as (g & Hrun & Hlen & Hval).
    exists g. split; [apply Hshfl, Hrun|]. split; assumption.
Qed.

Lemma TestScanBlock_passes_witness :
  ∃ m4, TestScanBlock nat (λ s, (Z.of_nat s, S s))
          (ScanCPUBlock Exclusive)
          (λ o i N t, match ScanGPUBlockShuffle racing_device Exclusive o i N t with
                      | Ran (Ok g) => Some g
                      | _ => None
                      end)
          0 (λ _, 7%Z) (2 * 256) (Z.of_nat 256) = Ok (Passed, m4).
Proof.
  destruct (TestScanBlock_passes nat (λ s, (Z.of_nat s, S s))
              racing_device Exclusive 256 2 0 (λ _, 7%Z)
              (λ o i N t, match ScanGPUBlock racing_device Inclusive o i N t with
                          | Ran (Ok g) => Some g
                          | _ => None
                          end)
              (λ o i N t, match ScanGPUBlockShuffle racing_device Exclusive o i N t with
                          | Ran (Ok g) => Some g
                          | _ => None
                          end)) as [_ Hpass].
  - intros n. reflexivity.
  - left. reflexivity.
  - vm_compute. discriminate.
  - vm_compute. lia.
  - vm_compute. reflexivity.
  - intros o i g H. rewrite H. reflexivity.
  - intros o i g H. rewrite H. reflexivity.
  - exact Hpass.
Defined.

(** ** The warp scan drivers

    These results rest on the warp scan primitives as they are written
    above after the specification. *)

Lemma ScanGPUWarpShuffle_values_eq scantype regs :
  ScanGPUWarpShuffle_values scantype regs = ScanGPUWarp_values scantype regs.
Proof.
  unfold ScanGPUWarpShuffle_values, ScanGPUWarp_values, scanWarpExclusive,
    exclusive_scan_warp_shfl, inclusive_scan_warp_shfl, scanWarp.
  rewrite scan_warp_shfl_steps_eq. destruct scantype; reflexivity.
Qed.

Lemma ScanGPUWarp_values_length scantype s :
  length (ScanGPUWarp_values scantype s) = length s.
Proof.
  unfold ScanGPUWarp_values, scanWarpExclusive.
  destruct scantype; [apply scanWarp_length | apply length_imap].
Qed.

Lemma block_loop_ext f g B N inp fuel : ∀ i out,
  (∀ i s, f i s = g i s) →
  block_loop f fuel B N i inp out = block_loop g fuel B N i inp out.
Proof.
  induction fuel as [|fuel IH]; intros i out Hfg; simpl;
    destruct (decide (i < N)); try reflexivity.
  unfold block_round. destruct (read_block inp i B) as [s| |]; [|reflexivity..].
  run_bind. rewrite Hfg. destruct (write_block out i (g i s)); [|reflexivity..].
  run_bind. apply IH, Hfg.
Qed.

Lemma lane_of_segment k w :
  (k mod (w * warpSize)) mod warpSize = k mod warpSize.
Proof.
  rewrite (Nat.mul_comm w warpSize), Nat.Div0.mod_mul_r.
  rewrite (Nat.mul_comm warpSize), Nat.Div0.mod_add. apply Nat.Div0.mod_mod.
Qed.

(** What a thread of [ScanGPUWarp] holds for position [k] after a round on
    the segment that holds [k]. *)
Lemma ScanGPUWarp_target scantype w inp k :
  Forall in_range inp → 0 < w →
  k / (w * warpSize) * (w * warpSize) + w * warpSize ≤ length inp →
  block_target (λ _, ScanGPUWarp_values scantype) (w * warpSize) inp k
  = Some (periodic_value scantype warpSize (cell inp 0) k).
Proof.
  intros Hrange Hw Hfit. unfold block_target.
  set (B := w * warpSize) in *. set (i := k / B * B) in *.
  assert (HB : 0 < B) by (unfold B, warpSize; lia).
  assert (Hread : read_block inp i B = Ok (take B (drop i inp)))
    by (unfold read_block; rewrite decide_True by lia; reflexivity).
  destruct (read_block_holds inp i B _ Hrange Hread) as [Hlen Hs].
  set (seg := take B (drop i inp)) in *.
  pose proof (Nat.mod_upper_bound k B ltac:(lia)) as Htid.
  pose proof (Nat.div_mod_eq k B) as Hk.
  pose proof (lane_of_segment k w) as Hlane. fold B in Hlane.
  pose proof (Nat.Div0.mod_le (k mod B) warpSize) as Hle.
  pose proof (div_sub_lane k warpSize ltac:(unfold warpSize; lia)) as Hlo.
  assert (Hincl : scanWarp seg !! (k mod B)
                  = Some (wrap32 (rsum (cell inp 0) (k / warpSize * warpSize)
                                       (S (k mod warpSize))))).
  { rewrite (scanWarp_inclusive (cell inp i) seg (k mod B) Hs) by lia.
    rewrite rsum_cell, Hlane. do 3 f_equal. fold i in Hk. lia. }
  unfold ScanGPUWarp_values, periodic_value, scan_value. destruct scantype.
  - exact Hincl.
  - unfold scanWarpExclusive. rewrite list_lookup_imap, (Hs (k mod B)) by lia.
    unfold fmap, option_fmap, option_map. cbn beta iota.
    rewrite (lookup_total_Some _ _ _ Hincl), sub32_wrap, rsum_snoc. do 2 f_equal.
    unfold cell at 2. unfold cell at 2.
    replace (0 + (k / warpSize * warpSize + k mod warpSize)) with (i + k mod B)
      by (fold i in Hk; lia).
    lia.
Qed.

(** X15. With at least 150 elements, a whole number of segments and an
    accepted block of whole warps, the warp scan drivers [ScanGPU] and
    [ScanGPUShuffle] run to the end and leave the same array: the scan
    that starts afresh every 32 elements, the one [ScanCPU32] computes. *)
Theorem warp_drivers_scan_every_32 (dev : device) (scantype : ScanType)
    (w n : nat) (inp out : list Z) :
  runs_every_block dev →
  0 < w → (Z.of_nat (w * warpSize) <= maxThreadsPerBlock dev)%Z →
  150 ≤ n * (w * warpSize) →
  (Z.of_nat (n * (w * warpSize)) / 150 < 2 ^ 31)%Z →
  length inp = n * (w * warpSize) → length out = n * (w * warpSize) →
  Forall in_range inp →
  ∃ out',
    ScanGPU dev scantype out inp (n * (w * warpSize)) (Z.of_nat (w * warpSize))
    = Ran (Ok out') ∧
    ScanGPUShuffle dev scantype out inp (n * (w * warpSize))
                   (Z.of_nat (w * warpSize)) = Ran (Ok out') ∧
    length out' = n * (w * warpSize) ∧
    ∀ q r, r < warpSize → q * warpSize + r < n * (w * warpSize) →
      out' !! (q * warpSize + r)
      = Some (scan_value scantype (cell inp 0) (q * warpSize) r).
Proof.
  intros Hdev Hw Hmax HN Hint Hinp Hout Hrange.
  set (B := w * warpSize) in *.
  assert (HB : 0 < B) by (unfold B, warpSize; lia).
  pose proof (cBlocks_of_positive (n * B) HN Hint) as Hblocks.
  assert (Hup : rounds_up B (n * B) n) by (unfold rounds_up; lia).
  assert (Hshfl : ScanGPUShuffle dev scantype out inp (n * B) (Z.of_nat B)
                  = ScanGPU dev scantype out inp (n * B) (Z.of_nat B)).
  { unfold ScanGPUShuffle, ScanGPU. apply launch_ext. intros b o.
    apply block_loop_ext. intros _. apply ScanGPUWarpShuffle_values_eq. }
  rewrite Hshfl. unfold ScanGPU, launch. rewrite decide_True by lia.
  rewrite Nat2Z.id.
  change (λ blockIdx, ScanGPUWarp_kernel scantype inp (n * B) blockIdx B)
    with (λ b, block_loop (λ _, ScanGPUWarp_values scantype) (n * B) B (n * B)
                          (b * B) inp).
  rewrite (run_grid_is_block_0 (λ _, ScanGPUWarp_values scantype) B (n * B) n inp
             (λ _, ScanGPUWarp_values_length scantype) HB Hup)
    by (rewrite (Hdev _); apply elem_of_seq; lia).
  destruct (block_kernel_cases (λ _, ScanGPUWarp_values scantype) B (n * B) n inp
              (λ _, ScanGPUWarp_values_length scantype) HB Hup 0 out) as [Hok _].
  destruct Hok as (out' & Hrun & Hlen & Hlook); [lia|].
  exists out'. rewrite Hrun. split; [reflexivity|]. split; [reflexivity|].
  split; [lia|]. intros q r Hr Hk.
  rewrite Hlook, decide_True by lia.
  assert (Hq : (q * warpSize + r) / B < n)
    by (apply Nat.Div0.div_lt_upper_bound; lia).
  pose proof (next_period_fits B n _ Hq) as Hnext.
  pose proof (ScanGPUWarp_target scantype w inp (q * warpSize + r) Hrange Hw) as Ht.
  fold B in Ht. rewrite Ht by lia.
  f_equal. apply periodic_value_at, Hr.
Qed.

Lemma warp_drivers_scan_every_32_witness :
  ∃ out',
    ScanGPU reference_device Exclusive (repeat 0%Z 192) (repeat 1%Z 192)
            (3 * (2 * warpSize)) (Z.of_nat (2 * warpSize)) = Ran (Ok out') ∧
    out' !! (4 * warpSize + 7) = Some 7%Z.
Proof.
  destruct (warp_drivers_scan_every_32 reference_device Exclusive 2 3
              (repeat 1%Z 192) (repeat 0%Z 192))
    as (out' & Hrun & _ & _ & Hval).
  - intros n. reflexivity.
  - lia.
  - vm_compute. discriminate.
  - vm_compute. lia.
  - vm_compute. reflexivity.
  - reflexivity.
  - reflexivity.
  - apply (bool_decide_unpack _). vm_compute. exact I.
  - exists out'. split; [exact Hrun|].
    rewrite (Hval 4 7) by (vm_compute; lia). vm_compute. reflexivity.
Defined.

(** ** The dispatch of the CPU reference *)

(** X16. [ScanCPUBlock] dispatches on 256, 512 and 1024 threads and on
    nothing else: for these it is the scan with that period and changes no
    cell outside the output buffer, for every other thread count it
    returns at once and changes no cell at all.  [ScanCPU32] is the scan
    with period 32. *)
Theorem CPU_dispatchers (scantype : ScanType) (B n inp out : nat) (m : list Z) :
  inp + n * B ≤ length m →
  out + n * B ≤ length m →
  out ≤ inp ∨ inp + n * B ≤ out →
  (B = 256 ∨ B = 512 ∨ B = 1024 →
   ∃ m', ScanCPUBlock scantype out inp (n * B) (Z.of_nat B) m = Ok m' ∧
     periodic_scan scantype B (cell m inp) out (n * B) m' ∧
     ∀ p, p < out ∨ out + n * B ≤ p → m' !! p = m !! p)
  ∧ (B = 32 →
     ∃ m', ScanCPU32 scantype out inp (n * B) m = Ok m' ∧
       periodic_scan scantype 32 (cell m inp) out (n * B) m')
  ∧ (∀ numThreads N,
       numThreads ≠ 256%Z → numThreads ≠ 512%Z → numThreads ≠ 1024%Z →
       ScanCPUBlock scantype out inp N numThreads m = Ok m).
Proof.
  intros Hfit Hout Halias.
  assert (Hin : ∀ k, k < n * B → m !! (inp + k) = Some (cell m inp k))
    by (intros k Hk; apply (cell_lookup m inp (n * B)); assumption).
  split; [|split].
  - intros HB.
    destruct (ScanCPUBlock_scanned scantype (cell m inp) B n inp out m HB
                Halias Hin Hout) as (m' & Hrun & Hsc).
    exists m'. split; [exact Hrun|].
    split; [exact (scanned_periodic scantype _ _ _ _ _ _ Hsc)|].
    destruct Hsc as (_ & Hfr & _). exact Hfr.
  - intros ->. unfold ScanCPU32. destruct scantype.
    + destruct (ScanInclusiveCPUPeriodic_scanned (cell m inp) 32 n out inp m
                  Halias Hin Hout) as (m' & Hrun & Hsc).
      exists m'. split; [exact Hrun|].
      exact (scanned_periodic Inclusive _ _ _ _ _ _ Hsc).
    + destruct (ScanExclusiveCPUPeriodic_scanned (cell m inp) 32 n out inp m
                  Halias Hin Hout) as (m' & Hrun & Hsc).
      exists m'. split; [exact Hrun|].
      exact (scanned_periodic Exclusive _ _ _ _ _ _ Hsc).
  - intros numThreads N H256 H512 H1024. unfold ScanCPUBlock.
    rewrite !decide_False by assumption. reflexivity.
Qed.

Lemma CPU_dispatchers_witness :
  ∃ m', ScanCPUBlock Inclusive 256 0 (1 * 256) (Z.of_nat 256)
          (repeat 1%Z 256 ++ repeat 0%Z 256) = Ok m' ∧
        m' !! (256 + (0 * 256 + 9)) = Some 10%Z.
Proof.
  destruct (CPU_dispatchers Inclusive 256 1 0 256 (repeat 1%Z 256 ++ repeat 0%Z 256))
    as [Hblock _]; [vm_compute; lia | vm_compute; lia | right; vm_compute; lia |].
  destruct Hblock as (m' & Hrun & Hscan & _); [left; reflexivity|].
  exists m'. split; [exact Hrun|].
  rewrite (Hscan 0 9) by (vm_compute; lia). vm_compute. reflexivity.
Defined.
